(** * Universal Test Engine: the declarative interpreter, verified

    A shallow embedding of the interpreter core of the repository
    (data-loader.ts, helpers.ts, boundary-generator.ts, api-runner.ts,
    ui-runner.ts), of what surrounds it (auth-helper.ts, fixtures.ts,
    schema-validator.ts, env.config.ts), and the properties its
    specification states or its code shows.

    Conventions of the embedding.
    - A JS string is a [string]; one character of the model stands for one
      code unit.  Every character the code inspects (braces, dots, word
      characters) is ASCII, so the embedding does not depend on how the other
      characters are encoded.
    - A JS object used as a record or dictionary is modelled by its own
      enumerable properties: a [gmap] where only lookup matters, an
      association list in property order where [Object.keys] /
      [Object.entries] order matters.  The members every object inherits
      from [Object.prototype] are modelled where the interpreter looks a
      variable up or assigns under a computed key ([Interp.property],
      [Interp.assign]); the lookup [Js.get] of the helpers reads own
      properties only, and a statement that depends on the difference says
      which keys it is about.
    - Builtins of the JS runtime that no property below depends on ([Number(s)],
      [String(v)], the schema validator, the test runner's matchers, the
      browser page) are parameters of the section that uses them. *)

From Stdlib Require Import ZArith Ascii String List Bool Lia DecimalString DecimalNat.

Set Warnings "-register-all".
From stdpp Require Import base option list gmap strings.

Local Open Scope list_scope.

(* stdpp freezes [String.append] under [simpl]; the proofs below compute
   with it. *)
#[local] Arguments String.append _ _ : simpl nomatch.

(** ** Strings *)

Module Str.

Definition lbrace : ascii := "{"%char.
Definition rbrace : ascii := "}"%char.
Definition dquote : ascii := "034"%char.

(** ['a'.repeat(n)] and friends. *)
Fixpoint repeat (s : string) (n : nat) : string :=
  match n with
  | O => ""
  | S n' => s +:+ repeat s n'
  end.

End Str.

(** ** JS values *)

Module Js.

(** Numbers.  An integral finite double is carried as its integer; a finite
    non-integral double is [m / 2^e] with [m] odd, which names it uniquely.
    The sign of zero is not modelled. *)
Inductive number : Type :=
| Int (z : Z)
| Frac (m : Z) (e : positive)
| NaN
| Infinity (negative : bool).

(** The values the interpreter handles: what [JSON.parse] yields, plus
    [undefined].  An array is the list of its elements; an object is the list
    of its own properties in [Object.keys] order; the keys of an object that
    comes from the runtime are distinct, which the properties that need it
    assume explicitly. *)
Inductive value : Type :=
| VUndefined
| VNull
| VBool (b : bool)
| VNum (n : number)
| VStr (s : string)
| VArr (items : list value)
| VObj (props : list (string * value)).

(** Exceptions. *)
Inductive exn : Type :=
| TypeError (msg : string)
| RangeError (msg : string)
| Error (msg : string).

(** A computation that returns or throws. *)
Inductive res (E A : Type) : Type :=
| Ok (a : A)
| Throw (e : E).
Arguments Ok {E A} a.
Arguments Throw {E A} e.

Definition bind {E A B} (m : res E A) (k : A -> res E B) : res E B :=
  match m with
  | Ok a => k a
  | Throw e => Throw e
  end.

(** [x === y] on numbers: [NaN] equals nothing. *)
Definition num_eqb (a b : number) : bool :=
  match a, b with
  | Int x, Int y => (x =? y)%Z
  | Frac m e, Frac m' e' => (m =? m')%Z && (e =? e')%positive
  | Infinity s, Infinity s' => Bool.eqb s s'
  | _, _ => false
  end.

(** [a <= b] on numbers: false whenever [NaN] is involved. *)
Definition num_leb (a b : number) : bool :=
  match a, b with
  | NaN, _ | _, NaN => false
  | Infinity true, _ => true
  | _, Infinity false => true
  | Infinity false, _ => false
  | _, Infinity true => false
  | Int x, Int y => (x <=? y)%Z
  | Int x, Frac m e => (x * 2 ^ Zpos e <=? m)%Z
  | Frac m e, Int y => (m <=? y * 2 ^ Zpos e)%Z
  | Frac m e, Frac m' e' => (m * 2 ^ Zpos e' <=? m' * 2 ^ Zpos e)%Z
  end.

(** [a === b] in the tree model.  Primitives compare by value.  Two
    containers are the same only if they are one object; a tree does not
    record identity, so containers are taken to be distinct objects and the
    code that follows the test compares them structurally. *)
Definition strict_eq (a b : value) : bool :=
  match a, b with
  | VUndefined, VUndefined => true
  | VNull, VNull => true
  | VBool x, VBool y => Bool.eqb x y
  | VNum x, VNum y => num_eqb x y
  | VStr x, VStr y => String.eqb x y
  | _, _ => false
  end.

Definition typeof (v : value) : string :=
  match v with
  | VUndefined => "undefined"
  | VNull => "object"
  | VBool _ => "boolean"
  | VNum _ => "number"
  | VStr _ => "string"
  | VArr _ | VObj _ => "object"
  end.

Definition isArray (v : value) : bool :=
  match v with VArr _ => true | _ => false end.

Definition is_nullish (v : value) : bool :=
  match v with VUndefined | VNull => true | _ => false end.

(** [!!v] *)
Definition truthy (v : value) : bool :=
  match v with
  | VUndefined | VNull => false
  | VBool b => b
  | VNum (Int z) => negb (z =? 0)%Z
  | VNum NaN => false
  | VNum _ => true
  | VStr s => negb (String.eqb s "")
  | VArr _ | VObj _ => true
  end.

(** First binding of a key in a property list. *)
Fixpoint assoc {A} (k : string) (o : list (string * A)) : option A :=
  match o with
  | [] => None
  | (k', v) :: o' => if String.eqb k k' then Some v else assoc k o'
  end.

(** [{ ...o, [k]: v }] / [o[k] = v]: an existing property keeps its place,
    a new one goes last.  (JS lists keys that are array indices before the
    others; the lists here are not reordered for them.) *)
Fixpoint set_prop {A} (o : list (string * A)) (k : string) (v : A)
  : list (string * A) :=
  match o with
  | [] => [(k, v)]
  | (k', v') :: o' =>
      if String.eqb k k' then (k, v) :: o' else (k', v') :: set_prop o' k v
  end.

(** The key of the array element at index [i]. *)
Definition index_key (i : nat) : string :=
  NilZero.string_of_uint (Nat.to_uint i).

(** The own enumerable properties of an array from index [i] on. *)
Fixpoint array_entries (i : nat) (l : list value) : list (string * value) :=
  match l with
  | [] => []
  | x :: l' => (index_key i, x) :: array_entries (S i) l'
  end.

(** [Object.entries(v)] of an array or an object. *)
Definition entries (v : value) : list (string * value) :=
  match v with
  | VArr l => array_entries 0 l
  | VObj o => o
  | _ => []
  end.

(** [Object.keys(v)]. *)
Definition keys (v : value) : list string := map fst (entries v).

Definition of_nat (n : nat) : value := VNum (Int (Z.of_nat n)).

(** [v[k]] for a string key, own properties only: the members a value
    inherits from its prototype ([constructor], [toString], [__proto__],
    the methods of arrays and strings) are not found, so a statement that
    depends on a lookup holds of the code for the keys that name none of
    them.  It throws on [null] and [undefined]; an array also owns
    [length]; the length of a string is the number of its characters in
    the model, which is its number of code units for ASCII text. *)
Definition get (v : value) (k : string) : res exn value :=
  match v with
  | VUndefined | VNull => Throw (TypeError "Cannot read properties of null or undefined")
  | VArr l =>
      if String.eqb k "length" then Ok (of_nat (length l))
      else Ok (default VUndefined (assoc k (array_entries 0 l)))
  | VObj o => Ok (default VUndefined (assoc k o))
  | VStr s =>
      if String.eqb k "length" then Ok (of_nat (String.length s))
      else Ok (default VUndefined
                 (assoc k (array_entries 0
                    (map (fun c => VStr (String c "")) (list_ascii_of_string s)))))
  | VBool _ | VNum _ => Ok VUndefined
  end.

(** [v[k]] where the receiver is known to be an object or an array. *)
Definition get_own (v : value) (k : string) : value :=
  match get v k with
  | Ok x => x
  | Throw _ => VUndefined
  end.

(** [arr[idx]] for a number: the element when [idx] is an index in range,
    [undefined] otherwise (no other own property of an array is named by
    the string of a number). *)
Definition get_index (l : list value) (idx : number) : value :=
  match idx with
  | Int z => if (0 <=? z)%Z then nth (Z.to_nat z) l VUndefined else VUndefined
  | _ => VUndefined
  end.

(** A JSON-like value: null, booleans, finite numbers, strings, arrays and
    objects of such, each object with distinct keys.  It holds no
    [undefined] and no [NaN]. *)
Definition json_number (n : number) : bool :=
  match n with Int _ | Frac _ _ => true | _ => false end.

Fixpoint json_like (v : value) : Prop :=
  match v with
  | VUndefined => False
  | VNull | VBool _ | VStr _ => True
  | VNum n => json_number n = true
  | VArr l => (fix all (l : list value) : Prop :=
                 match l with [] => True | x :: l' => json_like x /\ all l' end) l
  | VObj o => NoDup (map fst o) /\
              (fix all (o : list (string * value)) : Prop :=
                 match o with [] => True | (_, x) :: o' => json_like x /\ all o' end) o
  end.

End Js.

(** ** data-loader.ts: variable interpolation on strings *)

Module Interp.

Import Str Js.

(** [\w] of a JS regular expression without the [u] and [i] flags:
    [A-Za-z0-9_]. *)
Definition is_word (c : ascii) : bool :=
  let n := nat_of_ascii c in
  ((48 <=? n) && (n <=? 57)) || ((65 <=? n) && (n <=? 90))
  || ((97 <=? n) && (n <=? 122)) || (n =? 95).

(** The greedy [\w*]: the longest prefix of word characters, and the rest. *)
Fixpoint span_word (s : string) : string * string :=
  match s with
  | String c s' =>
      if is_word c then let (w, r) := span_word s' in (String c w, r)
      else ("", s)
  | EmptyString => ("", "")
  end.

(** One attempt of [/\{\{(\w+)\}\}/] at the head of [s]: the captured key and
    the text after the match.  [\w+] is greedy and is followed by a closing
    brace, which is no word character, so backtracking into a shorter run
    can never succeed: the run is the maximal one. *)
Definition INTERPOLATION_RE (s : string) : option (string * string) :=
  match s with
  | String c1 (String c2 s1) =>
      if Ascii.eqb c1 lbrace && Ascii.eqb c2 lbrace then
        match span_word s1 with
        | (String k0 k, String d1 (String d2 rest)) =>
            if Ascii.eqb d1 rbrace && Ascii.eqb d2 rbrace
            then Some (String k0 k, rest) else None
        | _ => None
        end
      else None
  | _ => None
  end.

(** [s.replace(re, f)] for the global regex above and a replacer function.
    The builtin scans from the left: at a match it records the captured key
    and resumes after the match, otherwise it passes one character over.
    [fuel] bounds the number of steps; the length of the string always
    suffices ([scan_fuel]). *)
Inductive token : Type :=
| Lit (c : ascii)
| Hole (key : string).

Fixpoint scan_from (fuel : nat) (s : string) : list token :=
  match fuel with
  | O => []
  | S n =>
      match s with
      | EmptyString => []
      | String c s' =>
          match INTERPOLATION_RE s with
          | Some (key, rest) => Hole key :: scan_from n rest
          | None => Lit c :: scan_from n s'
          end
      end
  end.

Definition scan (s : string) : list token :=
  scan_from (String.length s) s.

(** Each match is replaced by what the replacer returns for its key (the
    returned text is inserted literally and never scanned again); everything
    else is copied. *)
Definition render (f : string -> string) (t : token) : string :=
  match t with
  | Lit c => String c ""
  | Hole key => f key
  end.

Fixpoint flatten (l : list string) : string :=
  match l with
  | [] => ""
  | x :: l' => x +:+ flatten l'
  end.

Definition String_replace (f : string -> string) (s : string) : string :=
  flatten (map (render f) (scan s)).

Definition placeholder (key : string) : string :=
  "{{" +:+ key +:+ "}}".

(** What [String(f)] is for a built-in function named [name], as Node
    prints it. *)
Definition native (name : string) : string :=
  "function " +:+ name +:+ "() { [native code] }".

(** The members every plain object inherits from [Object.prototype], by
    name, each with the string the runtime makes of it: the text of a
    function, and for [__proto__] the string of the prototype object. *)
Definition Object_prototype : list (string * string) :=
  [("constructor", native "Object");
   ("__defineGetter__", native "__defineGetter__");
   ("__defineSetter__", native "__defineSetter__");
   ("hasOwnProperty", native "hasOwnProperty");
   ("__lookupGetter__", native "__lookupGetter__");
   ("__lookupSetter__", native "__lookupSetter__");
   ("isPrototypeOf", native "isPrototypeOf");
   ("propertyIsEnumerable", native "propertyIsEnumerable");
   ("toString", native "toString");
   ("valueOf", native "valueOf");
   ("__proto__", "[object Object]");
   ("toLocaleString", native "toLocaleString")].

(** [vars[key]], as a string when it is not [undefined]: the entry of the
    mapping under [key], and without one the member of that name the mapping
    inherits. *)
Definition property (vars : gmap string string) (key : string) : option string :=
  match vars !! key with
  | Some v => Some v
  | None => assoc key Object_prototype
  end.

(** [(_, key) => vars[key] ?? `{{${key}}}`] *)
Definition replacer (vars : gmap string string) (key : string) : string :=
  match property vars key with
  | Some v => v
  | None => placeholder key
  end.

(** The string branch of [interpolate]. *)
Definition interpolate_string (vars : gmap string string) (s : string) : string :=
  String_replace (replacer vars) s.

(** The keys of the placeholders the scan finds in [s], left to right. *)
Definition placeholders (s : string) : list string :=
  omap (fun t => match t with Hole k => Some k | Lit _ => None end) (scan s).

(** Predicates on the characters of a string. *)
Fixpoint all_chars (p : ascii -> bool) (s : string) : bool :=
  match s with
  | EmptyString => true
  | String c s' => p c && all_chars p s'
  end.

Definition is_brace (c : ascii) : bool :=
  Ascii.eqb c lbrace || Ascii.eqb c rbrace.

(** An identifier: a non-empty run of word characters. *)
Definition identifier (k : string) : Prop :=
  k <> "" /\ all_chars is_word k = true.

Definition brace_free (t : string) : Prop :=
  all_chars (fun c => negb (is_brace c)) t = true.

Definition has_non_word (t : string) : Prop :=
  all_chars is_word t = false.

(** *** [interpolate] on value trees

    The value the call returns, as a function of the value it is given.
    The object branch runs the loop of the source: [result] starts empty and
    receives one assignment [result[k] = f v] per entry. *)

(** [result[k] = v].  For the key [__proto__] the assignment goes to the
    setter every plain object inherits: it gives [result] no property of
    that name (it makes an object [v] the prototype of [result], which a
    tree of own properties does not record). *)
Definition assign {B} (result : list (string * B)) (k : string) (v : B)
  : list (string * B) :=
  if String.eqb k "__proto__" then result else set_prop result k v.

Section Assign.

Context {A B : Type} (f : A -> B).

Fixpoint assign_all (entries : list (string * A)) (result : list (string * B))
  : list (string * B) :=
  match entries with
  | [] => result
  | (k, v) :: rest => assign_all rest (assign result k (f v))
  end.

End Assign.

Fixpoint interpolate (vars : gmap string string) (obj : value) : value :=
  match obj with
  | VStr s => VStr (interpolate_string vars s)
  | VArr items => VArr (map (interpolate vars) items)
  | VObj props => VObj (assign_all (interpolate vars) props [])
  | _ => obj
  end.

(** *** [interpolate] on a store of objects

    The same function with the objects it reads and creates made explicit:
    arrays and objects live in a store and values refer to them, so that
    writes, and what they write to, are visible. *)
Definition loc := positive.

Inductive hvalue : Type :=
| HUndefined
| HNull
| HBool (b : bool)
| HNum (n : number)
| HStr (s : string)
| HRef (l : loc).

Inductive cell : Type :=
| CArr (items : list hvalue)
| CObj (props : list (string * hvalue)).

Abbreviation heap := (gmap loc cell).

(** A new object: a location the store does not use yet. *)
Definition alloc (h : heap) (c : cell) : loc * heap :=
  let l := fresh (dom h) in (l, <[l := c]> h).

(** [A[A.length] = v], the write [Array.prototype.map] performs on the array
    it creates. *)
Definition push_item (h : heap) (l : loc) (v : hvalue) : option heap :=
  match h !! l with
  | Some (CArr items) => Some (<[l := CArr (items ++ [v])]> h)
  | _ => None
  end.

(** [result[k] = v] *)
Definition write_prop (h : heap) (l : loc) (k : string) (v : hvalue) : option heap :=
  match h !! l with
  | Some (CObj props) => Some (<[l := CObj (set_prop props k v)]> h)
  | _ => None
  end.

(** [result[k] = v] on the store; see [assign] for the key [__proto__]. *)
Definition assign_prop (h : heap) (l : loc) (k : string) (v : hvalue) : option heap :=
  if String.eqb k "__proto__" then Some h else write_prop h l k v.

(** The loops over the elements of an array and the entries of an object,
    for a recursive call [f]; [r] is the object under construction. *)
Section Loops.

Context (f : hvalue -> heap -> option (hvalue * heap)) (r : loc).

Fixpoint map_loop (items : list hvalue) (h : heap) : option heap :=
  match items with
  | [] => Some h
  | item :: rest =>
      '(v, h1) ← f item h;
      h2 ← push_item h1 r v;
      map_loop rest h2
  end.

Fixpoint entries_loop (entries : list (string * hvalue)) (h : heap) : option heap :=
  match entries with
  | [] => Some h
  | (k, x) :: rest =>
      '(v, h1) ← f x h;
      h2 ← assign_prop h1 r k v;
      entries_loop rest h2
  end.

End Loops.

(** [None]: the recursion is deeper than [fuel] (a cyclic structure
    overflows the stack), or a reference dangles. *)
Fixpoint interpolate_heap (fuel : nat) (vars : gmap string string)
    (obj : hvalue) (h : heap) : option (hvalue * heap) :=
  match fuel with
  | O => None
  | S n =>
      match obj with
      | HStr s => Some (HStr (interpolate_string vars s), h)
      | HRef l =>
          match h !! l with
          | Some (CArr items) =>
              (* obj.map(...): the new array, then one write per element *)
              let (r, h0) := alloc h (CArr []) in
              h' ← map_loop (interpolate_heap n vars) r items h0;
              Some (HRef r, h')
          | Some (CObj props) =>
              (* const result = {}; for (...) result[k] = ... *)
              let (r, h0) := alloc h (CObj []) in
              h' ← entries_loop (interpolate_heap n vars) r props h0;
              Some (HRef r, h')
          | None => None
          end
      | _ => Some (obj, h)
      end
  end.

(** [repr h v t]: in the store [h], the value [v] is the root of the tree
    [t]. *)
Inductive repr (h : heap) : hvalue -> value -> Prop :=
| repr_undefined : repr h HUndefined VUndefined
| repr_null : repr h HNull VNull
| repr_bool b : repr h (HBool b) (VBool b)
| repr_num n : repr h (HNum n) (VNum n)
| repr_str s : repr h (HStr s) (VStr s)
| repr_arr l items ts :
    h !! l = Some (CArr items) ->
    Forall2 (repr h) items ts ->
    repr h (HRef l) (VArr ts)
| repr_obj l props o :
    h !! l = Some (CObj props) ->
    Forall2 (fun p q => fst p = fst q /\ repr h (snd p) (snd q)) props o ->
    repr h (HRef l) (VObj o).

(** *** Tag filtering *)

Record TestCaseRaw : Type := {
  name : string;
  tags : option (list string);
  skip : option bool;
  only : option bool;
  rest : list (string * Js.value);   (* [[key: string]: unknown] *)
}.

(** [filterTags.includes(tag)] *)
Definition includes (l : list string) (x : string) : bool :=
  existsb (String.eqb x) l.

(** [t.tags?.some((tag) => filterTags.includes(tag))], as the truth value
    [filter] reads: [undefined] counts as false. *)
Definition tag_match (filterTags : list string) (t : TestCaseRaw) : bool :=
  match tags t with
  | Some ts => existsb (includes filterTags) ts
  | None => false
  end.

Definition filterByTags (tests : list TestCaseRaw) (filterTags : list string)
  : list TestCaseRaw :=
  if (length filterTags =? 0) then tests
  else List.filter (tag_match filterTags) tests.

End Interp.

(** ** helpers.ts: deep object utilities *)

Module Helpers.

Import Js.

(** [path.split('.')]: always at least one piece. *)
Fixpoint split_dot (s : string) : list string :=
  match s with
  | EmptyString => [""]
  | String c s' =>
      if Ascii.eqb c "."%char then "" :: split_dot s'
      else match split_dot s' with
           | [] => [String c ""]
           | p :: ps => String c p :: ps
           end
  end.

Section DeepGet.

(** [Number(key)], the runtime's conversion of a string to a number. *)
Variable Number : string -> number.

Definition isNaN (n : number) : bool :=
  match n with NaN => true | _ => false end.

(** The reducer of [deepGet].  Property access is the only operation in it
    that can throw, and it is written with [get], which does throw on [null]
    and [undefined]. *)
Definition deepGet_step (current : value) (key : string) : res exn value :=
  if strict_eq current VNull || strict_eq current VUndefined then Ok VUndefined
  else if isArray current then
    let idx := Number key in
    if isNaN idx then Ok VUndefined
    else match current with
         | VArr l => Ok (get_index l idx)
         | _ => Ok VUndefined
         end
  else if String.eqb (typeof current) "object" then get current key
  else Ok VUndefined.

(** [keys.reduce(step, obj)] *)
Fixpoint reduce (ks : list string) (acc : value) : res exn value :=
  match ks with
  | [] => Ok acc
  | k :: ks' => bind (deepGet_step acc k) (reduce ks')
  end.

Definition deepGet (obj : value) (path : string) : res exn value :=
  reduce (split_dot path) obj.

End DeepGet.

(** [deepContains(superset, subset)]; the recursion descends in [subset]. *)
Fixpoint deepContains (superset subset : value) {struct subset} : bool :=
  if strict_eq subset superset then true
  else if is_nullish subset then strict_eq superset subset
  else if negb (String.eqb (typeof subset) "object") then strict_eq superset subset
  else match subset with
       | VArr items =>
           match superset with
           | VArr sups =>
               (fix every (l : list value) : bool :=
                  match l with
                  | [] => true
                  | item :: l' =>
                      existsb (fun sup => deepContains sup item) sups && every l'
                  end) items
           | _ => false
           end
       | VObj subObj =>
           if negb (String.eqb (typeof superset) "object") || strict_eq superset VNull
           then false
           else (fix every (o : list (string * value)) : bool :=
                   match o with
                   | [] => true
                   | (key, x) :: o' =>
                       deepContains (get_own superset key) x && every o'
                   end) subObj
       | _ => false
       end.

(** [deepEqual(a, b)]; the recursion descends in [a].  [keysA.every(key =>
    deepEqual(a[key], b[key]))] runs over the properties of [a]: for an
    array these are its elements under their index keys, for an object its
    property list, where [a[key]] is the value listed with [key]. *)
Fixpoint deepEqual (a b : value) {struct a} : bool :=
  if strict_eq a b then true
  else if strict_eq a VNull || strict_eq b VNull then false
  else if negb (String.eqb (typeof a) (typeof b)) then false
  else match a, b with
       | VArr la, VArr lb =>
           if negb (length la =? length lb) then false
           else (fix every (l : list value) (i : nat) : bool :=
                   match l with
                   | [] => true
                   | item :: l' =>
                       deepEqual item (nth i lb VUndefined) && every l' (S i)
                   end) la 0
       | VArr la, VObj _ =>
           if negb (length (keys a) =? length (keys b)) then false
           else (fix every (l : list value) (i : nat) : bool :=
                   match l with
                   | [] => true
                   | item :: l' =>
                       deepEqual item (get_own b (index_key i)) && every l' (S i)
                   end) la 0
       | VObj oa, (VArr _ | VObj _) =>
           if negb (length (keys a) =? length (keys b)) then false
           else (fix every (o : list (string * value)) : bool :=
                   match o with
                   | [] => true
                   | (key, x) :: o' => deepEqual x (get_own b key) && every o'
                   end) oa
       | _, _ => false
       end.

End Helpers.

(** ** boundary-generator.ts *)

Module Boundary.

Import Str Js.

(** *** Arithmetic on integral numbers

    A JS number is a binary64 float.  On integers [+] and [-] return the
    exact result rounded to the nearest float, ties to the even significand;
    the rounding is the identity up to [2^53] in magnitude.  The model covers
    magnitudes below [2^1023], where no sum overflows. *)
Definition round_double (z : Z) : Z :=
  let k := (Z.log2 (Z.abs z) - 52)%Z in
  if (k <=? 0)%Z then z
  else
    let q := (z / 2 ^ k)%Z in
    let r := (z mod 2 ^ k)%Z in
    let half := (2 ^ (k - 1))%Z in
    let q' := if (r <? half)%Z then q
              else if (half <? r)%Z then (q + 1)%Z
              else if Z.even q then q else (q + 1)%Z in
    (q' * 2 ^ k)%Z.

Definition js_add (a b : Z) : Z := round_double (a + b).
Definition js_sub (a b : Z) : Z := round_double (a - b).

(** [Math.floor(x / 2)] for an integral [x]: halving a float is exact. *)
Definition floor_half (x : Z) : Z := (x / 2)%Z.

Definition MAX_SAFE_INTEGER : Z := (2 ^ 53 - 1)%Z.
Definition MIN_SAFE_INTEGER : Z := (- (2 ^ 53 - 1))%Z.

(** [`${n}`] for an integral number: its decimal digits, which is what JS
    prints for the integers up to [2^53] in magnitude (beyond, JS prints the
    shortest digits that name the double).  The text goes into the
    descriptions of the generated cases only. *)
Definition show_Z (z : Z) : string := NilZero.string_of_int (Z.to_int z).
Definition show_nat (n : nat) : string := NilZero.string_of_uint (Nat.to_uint n).

(** *** String boundaries (the three the generator uses) *)
Definition unicode : string := "日本語テスト 🎉🚀".
Definition htmlInjection : string :=
  "<script>alert(" +:+ String dquote ("xss" +:+ String dquote ")</script>").
Definition sqlInjection : string := "' OR 1=1; DROP TABLE users; --".

(** *** Field specifications and boundary cases *)
Inductive FieldType : Type :=
| TString | TNumber | TEmail | TBoolean | TInteger.

(** Lengths are natural numbers and numeric bounds integers. *)
Record FieldSpec : Type := {
  name : string;
  type : FieldType;
  minLength : option nat;
  maxLength : option nat;
  min : option Z;
  max : option Z;
  required : option bool;
}.

Record BoundaryCase : Type := {
  description : string;
  field : string;
  value : Js.value;
  expectValid : bool;
}.

Definition mk (d : string) (f : string) (v : Js.value) (ok : bool) : BoundaryCase :=
  {| description := d; field := f; value := v; expectValid := ok |}.

Definition num (z : Z) : Js.value := VNum (Int z).

(** The cases of [generateBoundaryCases], in the order of the pushes. *)
Definition generateBoundaryCases (spec : FieldSpec) : list BoundaryCase :=
  let name := name spec in
  let cases : list BoundaryCase := [] in
  (* Required / missing *)
  let cases :=
    if default false (required spec) then
      cases ++ [mk (name +:+ ": missing (undefined)") name VUndefined false;
                mk (name +:+ ": null") name VNull false]
    else cases in
  (* Type-specific *)
  match type spec with
  | TString =>
      let min := default 0 (minLength spec) in
      let max := default 255 (maxLength spec) in
      cases ++
      [mk (name +:+ ": empty string") name (VStr "") (min =? 0);
       mk (name +:+ ": at minLength (" +:+ show_nat min +:+ ")") name
          (VStr (repeat "a" min)) true;
       mk (name +:+ ": below minLength") name
          (VStr (repeat "a" (Nat.max 0 (min - 1)))) (min <=? 1);
       mk (name +:+ ": at maxLength (" +:+ show_nat max +:+ ")") name
          (VStr (repeat "a" max)) true;
       mk (name +:+ ": above maxLength") name (VStr (repeat "a" (max + 1))) false;
       mk (name +:+ ": unicode") name (VStr unicode) true;
       mk (name +:+ ": XSS attempt") name (VStr htmlInjection) false;
       mk (name +:+ ": SQL injection") name (VStr sqlInjection) false]
  | TEmail =>
      cases ++
      [mk (name +:+ ": valid email") name (VStr "user@example.com") true;
       mk (name +:+ ": no @") name (VStr "userexample.com") false;
       mk (name +:+ ": double @") name (VStr "user@@example.com") false;
       mk (name +:+ ": no domain") name (VStr "user@") false;
       mk (name +:+ ": no local") name (VStr "@example.com") false;
       mk (name +:+ ": spaces") name (VStr "user @example.com") false;
       mk (name +:+ ": unicode domain") name (VStr "user@例え.jp") true]
  | TNumber | TInteger =>
      let min := default MIN_SAFE_INTEGER (min spec) in
      let max := default MAX_SAFE_INTEGER (max spec) in
      let cases :=
        cases ++
        [mk (name +:+ ": zero") name (num 0) ((min <=? 0)%Z && (0 <=? max)%Z);
         mk (name +:+ ": at min (" +:+ show_Z min +:+ ")") name (num min) true;
         mk (name +:+ ": below min") name (num (js_sub min 1)) false;
         mk (name +:+ ": at max (" +:+ show_Z max +:+ ")") name (num max) true;
         mk (name +:+ ": above max") name (num (js_add max 1)) false;
         mk (name +:+ ": negative") name (num (-1)) (min <=? -1)%Z;
         mk (name +:+ ": NaN") name (VNum NaN) false;
         mk (name +:+ ": string instead") name (VStr "not-a-number") false] in
      match type spec with
      | TInteger => cases ++ [mk (name +:+ ": float") name (VNum (Frac 3 1)) false]
      | _ => cases
      end
  | TBoolean =>
      cases ++
      [mk (name +:+ ": true") name (VBool true) true;
       mk (name +:+ ": false") name (VBool false) true;
       mk (name +:+ ": string " +:+ String dquote ("true" +:+ String dquote "")) name
          (VStr "true") false;
       mk (name +:+ ": number 1") name (num 1) false;
       mk (name +:+ ": number 0") name (num 0) false]
  end.

(** *** Negative payloads *)
Record NegativePayload : Type := {
  np_description : string;
  payload : list (string * Js.value);
}.

(** [results.push({ description: c.description,
                    payload: { ...validPayload, [c.field]: c.value } })] *)
Definition push_negative (validPayload : list (string * Js.value))
    (results : list NegativePayload) (c : BoundaryCase) : list NegativePayload :=
  results ++ [{| np_description := description c;
                 payload := set_prop validPayload (field c) (value c) |}].

(** The two nested loops over [specs] and over the invalid cases of each. *)
Definition generateNegativePayloads (validPayload : list (string * Js.value))
    (specs : list FieldSpec) : list NegativePayload :=
  fold_left
    (fun results spec =>
       let cases :=
         List.filter (fun c => negb (expectValid c)) (generateBoundaryCases spec) in
       fold_left (push_negative validPayload) cases results)
    specs [].

(** *** Quick boundary sets *)
Definition integerBoundaries (min max : Z) : list Z :=
  [js_sub min 1; min; js_add min 1; floor_half (js_add min max);
   js_sub max 1; max; js_add max 1].

(** [s.repeat(count)]: a negative count is a [RangeError]. *)
Definition String_repeat (s : string) (count : Z) : res exn string :=
  if (count <? 0)%Z then Throw (RangeError "Invalid count value")
  else Ok (repeat s (Z.to_nat count)).

Fixpoint sequence {A} (l : list (res exn A)) : res exn (list A) :=
  match l with
  | [] => Ok []
  | m :: l' => bind m (fun x => bind (sequence l') (fun xs => Ok (x :: xs)))
  end.

Definition stringLengthBoundaries (minLen maxLen : nat) : res exn (list string) :=
  let minLen := Z.of_nat minLen in
  let maxLen := Z.of_nat maxLen in
  sequence
    [Ok "";
     String_repeat "a" (Z.max 0 (minLen - 1));
     String_repeat "a" minLen;
     String_repeat "a" (minLen + 1);
     String_repeat "a" ((minLen + maxLen) / 2);
     String_repeat "a" (maxLen - 1);
     String_repeat "a" maxLen;
     String_repeat "a" (maxLen + 1)].

End Boundary.

(** ** ui-runner.ts: the action dispatcher *)

Module UiRunner.

Import Str Js.

Record UiAction : Type := {
  action : string;
  selector : option string;
  value : Js.value;          (* [VUndefined] when the step has none *)
  options : Js.value;        (* [VUndefined] when the step has none *)
  description : option string;
}.

(** The calls the dispatcher makes on the page, with their arguments. *)
Inductive call : Type :=
| page_goto (url : string) (opts : Js.value)
| locator_click (sel : option string) (opts : Js.value)
| locator_fill (sel : option string) (text : string)
| locator_selectOption (sel : option string) (text : string)
| locator_check (sel : option string)
| locator_uncheck (sel : option string)
| locator_hover (sel : option string)
| locator_press (sel : option string) (key : string)
| locator_scrollIntoViewIfNeeded (sel : option string)
| page_evaluate_scrollTo (xy : Js.value)
| locator_setInputFiles (sel : option string) (files : Js.value)
| page_evaluate (script : string)
| page_waitForTimeout (ms : number)
| page_waitForSelector (sel : option string) (opts : Js.value)
| page_waitForURL (url : string) (opts : Js.value)
| expect_toBeVisible (sel : option string) (opts : Js.value)
| expect_toBeHidden (sel : option string) (opts : Js.value)
| expect_toContainText (sel : option string) (text : string) (opts : Js.value)
| expect_toHaveValue (sel : option string) (text : string) (opts : Js.value)
| expect_toHaveURL (url : string) (opts : Js.value)
| expect_toHaveTitle (title : string) (opts : Js.value)
| expect_toHaveCount (sel : option string) (n : number) (opts : Js.value)
| page_screenshot (path : string) (fullPage : Js.value).

(** What a run leaves behind: the steps entered and the calls made. *)
Inductive event : Type :=
| Step (desc : string)
| Host (c : call).



(** [a ?? b] *)
Definition nullish_or (a b : Js.value) : Js.value :=
  if is_nullish a then b else a.

Definition of_selector (sel : option string) : Js.value :=
  match sel with Some s => VStr s | None => VUndefined end.

(** [if (action.selector)] *)
Definition truthy_selector (sel : option string) : bool :=
  match sel with Some s => negb (String.eqb s "") | None => false end.

(** [action.options?.fullPage] *)
Definition fullPage_of (opts : Js.value) : Js.value :=
  if is_nullish opts then VUndefined else get_own opts "fullPage".

Section Dispatcher.

(** The page and the runtime conversions the dispatcher applies. *)
Variable page : Type.
Variable perform : call -> page -> page * option exn.
Variable String_ : Js.value -> string.
Variable Number_ : Js.value -> number.

(** The [switch] of [executeAction]: the call each action name stands for,
    or the error of the [default] branch. *)
Definition dispatch (a : UiAction) : res exn call :=
  let name := action a in
  let sel := selector a in
  let v := value a in
  let opts := options a in
  let named := String.eqb name in
  if named "goto" then
    Ok (page_goto (String_ (nullish_or (nullish_or v (of_selector sel)) (VStr "/"))) opts)
  else if named "click" then Ok (locator_click sel opts)
  else if named "fill" then Ok (locator_fill sel (String_ v))
  else if named "select" then Ok (locator_selectOption sel (String_ v))
  else if named "check" then Ok (locator_check sel)
  else if named "uncheck" then Ok (locator_uncheck sel)
  else if named "hover" then Ok (locator_hover sel)
  else if named "press" then Ok (locator_press sel (String_ v))
  else if named "scroll" then
    if truthy_selector sel then Ok (locator_scrollIntoViewIfNeeded sel)
    else Ok (page_evaluate_scrollTo
               (nullish_or v (VArr [VNum (Int 0); VNum (Int 500)])))
  else if named "upload" then Ok (locator_setInputFiles sel v)
  else if named "evaluate" then Ok (page_evaluate (String_ v))
  else if named "wait" then
    Ok (page_waitForTimeout (Number_ (nullish_or v (VNum (Int 1000)))))
  else if named "waitForSelector" then Ok (page_waitForSelector sel opts)
  else if named "waitForURL" then Ok (page_waitForURL (String_ v) opts)
  else if named "assertVisible" then Ok (expect_toBeVisible sel opts)
  else if named "assertHidden" then Ok (expect_toBeHidden sel opts)
  else if named "assertText" then Ok (expect_toContainText sel (String_ v) opts)
  else if named "assertValue" then Ok (expect_toHaveValue sel (String_ v) opts)
  else if named "assertURL" then Ok (expect_toHaveURL (String_ v) opts)
  else if named "assertTitle" then Ok (expect_toHaveTitle (String_ v) opts)
  else if named "assertCount" then Ok (expect_toHaveCount sel (Number_ v) opts)
  else if named "screenshot" then
    Ok (page_screenshot
          ("test-results/screenshots/" +:+
           String_ (nullish_or v (VStr "inline")) +:+ ".png")
          (nullish_or (fullPage_of opts) (VBool false)))
  else
    Throw (Error ("Unknown UI action: " +:+ String dquote (name +:+ String dquote ""))).

(** [executeAction(page, action)]: the page after it, the calls made, and
    the exception if it throws. *)
Definition executeAction (p : page) (a : UiAction)
  : page * list event * option exn :=
  match dispatch a with
  | Ok c => let (p', r) := perform c p in (p', [Host c], r)
  | Throw e => (p, [], Some e)
  end.

(** [step.description ?? `Step ${i + 1}: ${step.action}`] *)
Definition step_desc (i : nat) (a : UiAction) : string :=
  match description a with
  | Some d => d
  | None => "Step " +:+ index_key (i + 1) +:+ ": " +:+ action a
  end.

(** The loop over [resolved.steps], from index [i] on; an exception leaves
    the loop and the test function. *)
Fixpoint run_steps (i : nat) (steps : list UiAction) (p : page)
  : page * list event * option exn :=
  match steps with
  | [] => (p, [], None)
  | st :: rest =>
      match executeAction p st with
      | (p', log, Some e) => (p', Step (step_desc i st) :: log, Some e)
      | (p', log, None) =>
          let '(p'', log', r) := run_steps (S i) rest p' in
          (p'', Step (step_desc i st) :: log ++ log', r)
      end
  end.

End Dispatcher.

End UiRunner.

(** ** api-runner.ts: the assertions on a response *)

Module ApiRunner.

Import Str Js Helpers.

(** One entry of [bodyPath]. *)
Record BodyPath : Type := {
  path : string;
  equals : option Js.value;
  contains : option Js.value;
  type : option string;
  minLength : option Z;
  maxLength : option Z;
  regex : option string;
}.

(** [ApiExpectation]: an absent key is [None]. *)
Record ApiExpectation : Type := {
  status : option Z;
  statusRange : option (Z * Z);
  bodyContains : option (list (string * Js.value));
  bodyExact : option Js.value;
  bodySchema : option Js.value;
  bodyPath : option (list BodyPath);
  headers : option (list (string * string));
  responseTime : option Z;
}.

(** What was observed: status, headers (names in lower case, as the HTTP
    client reports them), parsed body, elapsed milliseconds. *)
Record Response : Type := {
  r_status : Z;
  r_headers : gmap string string;
  r_body : Js.value;
  r_elapsed : Z;
}.

(** The assertions, named after the key that activates them. *)
Inductive path_check : Type :=
| P_equals | P_contains | P_type | P_minLength | P_maxLength | P_regex.

Inductive assertion : Type :=
| A_status
| A_statusRange_min
| A_statusRange_max
| A_bodyContains
| A_bodyExact
| A_bodySchema
| A_bodyPath (i : nat) (p : string) (c : path_check)
| A_header (name : string)
| A_responseTime.

(** Why the test function stopped: an [expect] did not hold, or evaluating
    its argument threw. *)
Inductive failure : Type :=
| Failed (a : assertion)
| Raised (e : exn).

Definition check : Type := res failure unit.

(** [expect(...).toBe(...)] and the other matchers: they throw when the
    assertion does not hold. *)
Definition expect (a : assertion) (ok : bool) : check :=
  if ok then Ok tt else Throw (Failed a).

Definition lift {A} (m : res exn A) : res failure A :=
  match m with
  | Ok x => Ok x
  | Throw e => Throw (Raised e)
  end.

(** Statement after statement. *)
Definition seq (a b : check) : check := bind a (fun _ => b).
Infix ">>" := seq (at level 65, right associativity).

(** [if (key !== undefined) { ... }] *)
Definition when_some {A} (o : option A) (f : A -> check) : check :=
  match o with
  | Some x => f x
  | None => Ok tt
  end.

(** [if (s) { ... }] for a string: the empty string is falsy. *)
Definition when_string (o : option string) (f : string -> check) : check :=
  match o with
  | Some s => if String.eqb s "" then Ok tt else f s
  | None => Ok tt
  end.

(** [if (n) { ... }] for a number: zero is falsy. *)
Definition when_number (o : option Z) (f : Z -> check) : check :=
  match o with
  | Some n => if (n =? 0)%Z then Ok tt else f n
  | None => Ok tt
  end.

(** [if (v) { ... }] for a value: [null], [false], [0], [NaN] and the empty
    string are falsy. *)
Definition when_truthy (o : option Js.value) (f : Js.value -> check) : check :=
  match o with
  | Some v => if truthy v then f v else Ok tt
  | None => Ok tt
  end.

(** [for (const x of xs) { ... }], with the position of [x]. *)
Fixpoint for_each {A} (f : nat -> A -> check) (i : nat) (xs : list A) : check :=
  match xs with
  | [] => Ok tt
  | x :: xs' => f i x >> for_each f (S i) xs'
  end.

(** [key.toLowerCase()] on ASCII letters. *)
Definition lower_ascii (c : ascii) : ascii :=
  let n := nat_of_ascii c in
  if (65 <=? n) && (n <=? 90) then ascii_of_nat (n + 32) else c.

Fixpoint toLowerCase (s : string) : string :=
  match s with
  | EmptyString => ""
  | String c s' => String (lower_ascii c) (toLowerCase s')
  end.

(** [expect(x).toBeGreaterThanOrEqual(n)] / [toBeLessThanOrEqual(n)] on a
    received value: it must be a number. *)
Definition at_least (received : Js.value) (n : Z) : bool :=
  match received with VNum x => num_leb (Int n) x | _ => false end.

Definition at_most (received : Js.value) (n : Z) : bool :=
  match received with VNum x => num_leb x (Int n) | _ => false end.

Section Assertions.

(** The collaborators: [Number(key)] inside [deepGet], the schema validator
    ([valid] of its result), the runner's recursive equality [toEqual],
    [new RegExp(pattern).test(text)] behind [toMatch], and [String(value)].
    The validator and the regex constructor may throw. *)
Variable Number : string -> number.
Variable validateAgainstSchema : Js.value -> Js.value -> res exn bool.
Variable toEqual : Js.value -> Js.value -> bool.
Variable RegExp_test : string -> string -> res exn bool.
Variable String_ : Js.value -> string.

(** The body of the loop over [exp.bodyPath]. *)
Definition check_path (body : Js.value) (i : nat) (bp : BodyPath) : check :=
  let A := A_bodyPath i (path bp) in
  bind (lift (deepGet Number body (path bp))) (fun actual =>
    when_some (equals bp) (fun e => expect (A P_equals) (toEqual actual e)) >>
    when_some (contains bp) (fun c => expect (A P_contains) (deepContains actual c)) >>
    when_string (type bp) (fun ty =>
      expect (A P_type) (String.eqb (typeof actual) ty)) >>
    when_some (minLength bp) (fun n =>
      bind (lift (get actual "length")) (fun len =>
        expect (A P_minLength) (at_least len n))) >>
    when_some (maxLength bp) (fun n =>
      bind (lift (get actual "length")) (fun len =>
        expect (A P_maxLength) (at_most len n))) >>
    when_string (regex bp) (fun re =>
      bind (lift (RegExp_test re (String_ actual))) (fun ok =>
        expect (A P_regex) ok))).

(** The assertions of the test function, in the order of the source. *)
Definition runAssertions (exp : ApiExpectation) (response : Response) : check :=
  let st := r_status response in
  let responseBody := r_body response in
  (* Status code *)
  when_some (status exp) (fun s => expect A_status (st =? s)%Z) >>
  (* Status range *)
  when_some (statusRange exp) (fun '(mn, mx) =>
    expect A_statusRange_min (mn <=? st)%Z >>
    expect A_statusRange_max (st <=? mx)%Z) >>
  (* Body contains (partial match) *)
  when_some (bodyContains exp) (fun c =>
    expect A_bodyContains (deepContains responseBody (VObj c))) >>
  (* Body exact match *)
  when_some (bodyExact exp) (fun e =>
    expect A_bodyExact (deepEqual responseBody e)) >>
  (* Body JSON schema validation *)
  when_truthy (bodySchema exp) (fun schema =>
    bind (lift (validateAgainstSchema responseBody schema)) (fun valid =>
      expect A_bodySchema valid)) >>
  (* Body path assertions *)
  when_some (bodyPath exp) (for_each (check_path responseBody) 0) >>
  (* Response headers *)
  when_some (headers exp) (for_each (fun _ '(key, expected) =>
    expect (A_header key)
      (bool_decide (r_headers response !! toLowerCase key = Some expected))) 0) >>
  (* Response time *)
  when_number (responseTime exp) (fun rt =>
    expect A_responseTime (r_elapsed response <=? rt)%Z).

(** *** The specification's reading

    Every present key activates its assertions, and each assertion is
    evaluated on its own: the list below holds the result of each, in the
    order of the keys. *)
Definition present {A B} (o : option A) (f : A -> list B) : list B :=
  match o with
  | Some x => f x
  | None => []
  end.

Definition path_checks (body : Js.value) (i : nat) (bp : BodyPath) : list check :=
  let A := A_bodyPath i (path bp) in
  let actual := lift (deepGet Number body (path bp)) in
  present (equals bp) (fun e =>
    [bind actual (fun a => expect (A P_equals) (toEqual a e))]) ++
  present (contains bp) (fun c =>
    [bind actual (fun a => expect (A P_contains) (deepContains a c))]) ++
  present (type bp) (fun ty =>
    [bind actual (fun a => expect (A P_type) (String.eqb (typeof a) ty))]) ++
  present (minLength bp) (fun n =>
    [bind actual (fun a => bind (lift (get a "length")) (fun len =>
       expect (A P_minLength) (at_least len n)))]) ++
  present (maxLength bp) (fun n =>
    [bind actual (fun a => bind (lift (get a "length")) (fun len =>
       expect (A P_maxLength) (at_most len n)))]) ++
  present (regex bp) (fun re =>
    [bind actual (fun a => bind (lift (RegExp_test re (String_ a))) (fun ok =>
       expect (A P_regex) ok))]).

Fixpoint all_path_checks (body : Js.value) (i : nat) (bps : list BodyPath)
  : list check :=
  match bps with
  | [] => []
  | bp :: bps' => path_checks body i bp ++ all_path_checks body (S i) bps'
  end.

Definition checks (exp : ApiExpectation) (response : Response) : list check :=
  let st := r_status response in
  let body := r_body response in
  present (status exp) (fun s => [expect A_status (st =? s)%Z]) ++
  present (statusRange exp) (fun '(mn, mx) =>
    [expect A_statusRange_min (mn <=? st)%Z;
     expect A_statusRange_max (st <=? mx)%Z]) ++
  present (bodyContains exp) (fun c =>
    [expect A_bodyContains (deepContains body (VObj c))]) ++
  present (bodyExact exp) (fun e => [expect A_bodyExact (deepEqual body e)]) ++
  present (bodySchema exp) (fun schema =>
    [bind (lift (validateAgainstSchema body schema)) (expect A_bodySchema)]) ++
  present (bodyPath exp) (all_path_checks body 0) ++
  present (headers exp) (map (fun '(key, expected) =>
    expect (A_header key)
      (bool_decide (r_headers response !! toLowerCase key = Some expected)))) ++
  present (responseTime exp) (fun rt =>
    [expect A_responseTime (r_elapsed response <=? rt)%Z]).

End Assertions.

(** The failures among independent results, and what one run reports. *)
Definition failing (l : list check) : list failure :=
  omap (fun c => match c with Throw f => Some f | Ok _ => None end) l.

Definition reported (c : check) : list failure :=
  match c with
  | Throw f => [f]
  | Ok _ => []
  end.

Fixpoint first_failure (l : list check) : check :=
  match l with
  | [] => Ok tt
  | Ok _ :: l' => first_failure l'
  | Throw f :: _ => Throw f
  end.

(** *** Keys that switch nothing on

    The test function asks of [bodySchema], of [responseTime] and of the
    [type] and [regex] of a [bodyPath] entry whether they are truthy, not
    whether they are there: a falsy value under one of them ([null], [0],
    the empty string) is as good as no key.  [switched_on] is the
    expectation with such keys left out. *)
Definition truthy_value (o : option Js.value) : option Js.value :=
  match o with
  | Some v => if truthy v then Some v else None
  | None => None
  end.

Definition truthy_string (o : option string) : option string :=
  match o with
  | Some s => if String.eqb s "" then None else Some s
  | None => None
  end.

Definition truthy_number (o : option Z) : option Z :=
  match o with
  | Some n => if (n =? 0)%Z then None else Some n
  | None => None
  end.

Definition switched_on_path (bp : BodyPath) : BodyPath :=
  {| path := path bp; equals := equals bp; contains := contains bp;
     type := truthy_string (type bp);
     minLength := minLength bp; maxLength := maxLength bp;
     regex := truthy_string (regex bp) |}.

Definition switched_on (exp : ApiExpectation) : ApiExpectation :=
  {| status := status exp; statusRange := statusRange exp;
     bodyContains := bodyContains exp; bodyExact := bodyExact exp;
     bodySchema := truthy_value (bodySchema exp);
     bodyPath := option_map (map switched_on_path) (bodyPath exp);
     headers := headers exp;
     responseTime := truthy_number (responseTime exp) |}.

End ApiRunner.

(** ** helpers.ts: [buildUrl] *)

Module Url.

Import Str Js.

Definition is_slash (c : ascii) : bool := Ascii.eqb c "/"%char.

(** What is left of the string is made of slashes only. *)
Fixpoint all_slashes (s : string) : bool :=
  match s with
  | EmptyString => true
  | String c s' => is_slash c && all_slashes s'
  end.

(** [s.replace(/\/+$/, '')].  The pattern is tried at every position from
    the left; it matches at the first one from which a non-empty run of
    slashes reaches the end of the string, and that run is removed. *)
Fixpoint replace_trailing_slashes (s : string) : string :=
  match s with
  | EmptyString => ""
  | String c s' => if all_slashes s then "" else String c (replace_trailing_slashes s')
  end.

(** [s.replace(/^\/+/, '')]: the slashes the string starts with are
    removed. *)
Fixpoint replace_leading_slashes (s : string) : string :=
  match s with
  | EmptyString => ""
  | String c s' => if is_slash c then replace_leading_slashes s' else s
  end.

(** [`${base.replace(/\/+$/, '')}/${endpoint.replace(/^\/+/, '')}`] *)
Definition join_url (base endpoint : string) : string :=
  replace_trailing_slashes base +:+ "/" +:+ replace_leading_slashes endpoint.

Section BuildUrl.

(** [new URLSearchParams(query).toString()] *)
Variable URLSearchParams_toString : list (string * string) -> string.

Definition buildUrl (base endpoint : string) (query : option (list (string * string)))
  : string :=
  let url := join_url base endpoint in
  match query with
  | None => url
  | Some q =>
      if length (map fst q) =? 0 then url
      else url +:+ "?" +:+ URLSearchParams_toString q
  end.

End BuildUrl.

End Url.

(** ** auth-helper.ts: [resolveAuth] *)

Module Auth.

Import Str Js Helpers Url.

(** [AuthConfig] of env.config.ts: an absent key is [None]. *)
Record AuthConfig : Type := {
  strategy : string;
  tokenEndpoint : option string;
  credentials : option (list (string * string));
  apiKey : option string;
  headerName : option string;
}.

Record AuthResult : Type := {
  headers : list (string * string);
  token : option Js.value;
}.

(** What [request.post] resolves to, as far as [resolveAuth] reads it. *)
Record PostResponse : Type := {
  ok : bool;
  status : Z;
  statusText : string;
  json : res exn Js.value;
}.

(** The requests a call makes: URL and posted data. *)
Definition request : Type := (string * list (string * string))%type.

(** [`${v}`]: a string stands for itself, another value for what the
    runtime's [String] makes of it. *)
Definition template (String_ : Js.value -> string) (v : Js.value) : string :=
  match v with
  | VStr s => s
  | _ => String_ v
  end.

(** [auth.credentials?.[key]] *)
Definition credential (auth : AuthConfig) (key : string) : option string :=
  match credentials auth with
  | Some c => assoc key c
  | None => None
  end.

(** [a ?? b] on optional strings. *)
Definition or_else (a b : option string) : option string :=
  match a with
  | Some _ => a
  | None => b
  end.

Section ResolveAuth.

(** [Number(key)] inside [deepGet], the string a template literal makes of a
    value, [Buffer.from(s).toString('base64')], and the server behind
    [request.post]. *)
Variable Number : string -> number.
Variable String_ : Js.value -> string.
Variable base64 : string -> string.
Variable post : string -> list (string * string) -> res exn PostResponse.

(** [deepGet(body, p) ?? rest] *)
Definition first_of (body : Js.value) (p : string) (rest : res exn Js.value)
  : res exn Js.value :=
  bind (deepGet Number body p) (fun v => if is_nullish v then rest else Ok v).

(** Look for token in common locations *)
Definition token_of (body : Js.value) : res exn Js.value :=
  first_of body "token"
    (first_of body "data.token"
       (first_of body "access_token"
          (deepGet Number body "data.access_token"))).

Definition resolveAuth (baseUrl : string) (auth : AuthConfig)
  : list request * res exn AuthResult :=
  let named := String.eqb (strategy auth) in
  if named "bearer" then
    match tokenEndpoint auth, credentials auth with
    | Some endpoint, Some creds =>
        if String.eqb endpoint "" then
          ([], Throw (Error "Bearer strategy requires tokenEndpoint and credentials"))
        else
          let url := join_url baseUrl endpoint in
          ([(url, creds)],
           bind (post url creds) (fun res =>
             if negb (ok res) then
               Throw (Error ("Auth request failed: " +:+ Boundary.show_Z (status res)
                             +:+ " " +:+ statusText res))
             else
               bind (json res) (fun body =>
               bind (token_of body) (fun tok =>
                 if negb (truthy tok) then
                   Throw (Error "Could not extract token from auth response")
                 else
                   Ok {| headers := [("Authorization", "Bearer " +:+ template String_ tok)];
                         token := Some tok |}))))
    | _, _ => ([], Throw (Error "Bearer strategy requires tokenEndpoint and credentials"))
    end
  else if named "basic" then
    match credential auth "username", credential auth "password" with
    | Some username, Some password =>
        if String.eqb username "" || String.eqb password "" then
          ([], Throw (Error "Basic strategy requires username and password in credentials"))
        else
          let encoded := base64 (username +:+ ":" +:+ password) in
          ([], Ok {| headers := [("Authorization", "Basic " +:+ encoded)];
                     token := None |})
    | _, _ =>
        ([], Throw (Error "Basic strategy requires username and password in credentials"))
    end
  else if named "api-key" then
    let headerName := default "X-API-Key" (headerName auth) in
    match or_else (apiKey auth) (credential auth "apiKey") with
    | Some key =>
        if String.eqb key "" then
          ([], Throw (Error "api-key strategy requires apiKey or credentials.apiKey"))
        else ([], Ok {| headers := [(headerName, key)]; token := None |})
    | None =>
        ([], Throw (Error "api-key strategy requires apiKey or credentials.apiKey"))
    end
  else ([], Ok {| headers := []; token := None |}).

End ResolveAuth.

End Auth.

(** ** fixtures.ts: the headers of the API context *)

Module Fixtures.

Import Str Js Auth.

(** [{ ...a, ...b }]: the properties of [a], then those of [b] assigned one
    after the other. *)
Definition spread {A} (a b : list (string * A)) : list (string * A) :=
  fold_left (fun o kv => set_prop o (fst kv) (snd kv)) b a.

(** The part of [EnvironmentConfig] the fixtures read. *)
Record EnvironmentConfig : Type := {
  apiBaseUrl : string;
  auth : AuthConfig;
  headers : list (string * string);
}.

Section Context.

Variable Number : string -> number.
Variable String_ : Js.value -> string.
Variable base64 : string -> string.
Variable post : string -> list (string * string) -> res exn PostResponse.

(** The [authHeaders] fixture: the requests made and the headers handed to
    the test, or the exception of [resolveAuth].  (The request context the
    fixture opens for the call is disposed of in every case; it is not
    modelled.) *)
Definition authHeaders (envConfig : EnvironmentConfig)
  : list request * res exn (list (string * string)) :=
  if String.eqb (strategy (auth envConfig)) "none" then ([], Ok [])
  else
    let (requests, result) :=
      resolveAuth Number String_ base64 post (apiBaseUrl envConfig) (auth envConfig) in
    (requests, bind result (fun r => Ok (Auth.headers r))).

(** [extraHTTPHeaders] of the [apiContext] fixture. *)
Definition extraHTTPHeaders (envConfig : EnvironmentConfig)
    (authHeaders : list (string * string)) : list (string * string) :=
  spread (headers envConfig) authHeaders.

End Context.

End Fixtures.

(** ** api-runner.ts: preparing a request *)

Module ApiSuite.

Import Str Js Helpers Interp.

Section Prepare.

Variable Number : string -> number.

(** [const val = deepGet(body, fromPath);
     if (typeof val === 'string') vars[as] = val;]
    The assignment stores the string under [as], except under the name
    [__proto__], where it reaches the setter the store inherits, which
    ignores a string. *)
Definition extractToken (vars : gmap string string) (body : Js.value)
    (fromPath as_ : string) : res exn (gmap string string) :=
  bind (deepGet Number body fromPath) (fun val =>
    match val with
    | VStr s => if String.eqb as_ "__proto__" then Ok vars else Ok (<[as_ := s]> vars)
    | _ => Ok vars
    end).

End Prepare.

(** [{ ...vars, ...(tc.dataInjection ?? {}) }] *)
Definition localVars (vars : gmap string string)
    (dataInjection : option (gmap string string)) : gmap string string :=
  default ∅ dataInjection ∪ vars.

(** [const headers = { ...(resolved.headers ?? {}) };
     if (resolved.auth) headers['Authorization'] = `Bearer ${resolved.auth}`;] *)
Definition request_headers (headers : option (list (string * string)))
    (auth : option string) : list (string * string) :=
  let headers := default [] headers in
  match auth with
  | Some a =>
      if String.eqb a "" then headers
      else set_prop headers "Authorization" ("Bearer " +:+ a)
  | None => headers
  end.

End ApiSuite.

(** ** ui-runner.ts: the test function *)

Module UiSuite.

Import Str Js UiRunner.

Record SnapshotConfig : Type := {
  snap_name : string;
  snap_fullPage : option bool;
  snap_selector : option string;
}.

(** The part of a resolved [UiTestCase] the test function reads. *)
Record UiTestCase : Type := {
  url : option string;
  viewport : option (Z * Z);
  steps : list UiAction;
  snapshot : option SnapshotConfig;
}.

(** What the test function asks of the page and of the report: its own
    calls, and the calls of the steps. *)
Inductive test_call : Type :=
| page_setViewportSize (width height : Z)
| page_goto_url (url : string)
| of_step (c : call)
| locator_toHaveScreenshot (sel : string) (file : string)
| page_toHaveScreenshot (file : string) (fullPage : bool)
| page_screenshot_fullPage
| attachScreenshot (name : string).

Inductive test_event : Type :=
| InStep (desc : string)
| Did (c : test_call).

Definition of_event (e : event) : test_event :=
  match e with
  | Step desc => InStep desc
  | Host c => Did (of_step c)
  end.

(** [if (s) ...] for an optional string: the string, when it is there and
    not empty. *)
Definition truthy_string (o : option string) : option string :=
  match o with
  | Some s => if String.eqb s "" then None else Some s
  | None => None
  end.

Section TestFunction.

Variable page : Type.
Variable perform : test_call -> page -> page * option exn.
Variable String_ : Js.value -> string.
Variable Number_ : Js.value -> number.
(** [testInfo.status !== testInfo.expectedStatus], read when the body of the
    test has run to its end. *)
Variable status_differs : page -> bool.

Definition outcome : Type := (page * list test_event * option exn)%type.

(** [await c; rest]: an exception leaves the test function. *)
Definition await (c : test_call) (p : page) (rest : page -> outcome) : outcome :=
  let (p1, r) := perform c p in
  match r with
  | Some e => (p1, [Did c], Some e)
  | None => let '(p2, log, r') := rest p1 in (p2, Did c :: log, r')
  end.

(** Attach final screenshot on failure *)
Definition on_failure (p : page) : outcome :=
  if status_differs p then
    await page_screenshot_fullPage p (fun p =>
    await (attachScreenshot "failure-screenshot") p (fun p => (p, [], None)))
  else (p, [], None).

(** Snapshot comparison (visual regression) *)
Definition compare_snapshot (tc : UiTestCase) (p : page) : outcome :=
  match snapshot tc with
  | Some snap =>
      match truthy_string (snap_selector snap) with
      | Some sel =>
          await (locator_toHaveScreenshot sel (snap_name snap +:+ ".png")) p on_failure
      | None =>
          await (page_toHaveScreenshot (snap_name snap +:+ ".png")
                   (default true (snap_fullPage snap))) p on_failure
      end
  | None => on_failure p
  end.

(** Execute each step sequentially *)
Definition execute_steps (tc : UiTestCase) (p : page) : outcome :=
  let '(p1, log, r) :=
    run_steps page (fun c => perform (of_step c)) String_ Number_ 0 (steps tc) p in
  match r with
  | Some e => (p1, map of_event log, Some e)
  | None =>
      let '(p2, log', r') := compare_snapshot tc p1 in
      (p2, map of_event log ++ log', r')
  end.

(** Navigate to URL if specified *)
Definition navigate (basePath : option string) (tc : UiTestCase) (p : page) : outcome :=
  match truthy_string (url tc) with
  | Some url => await (page_goto_url (default "" basePath +:+ url)) p (execute_steps tc)
  | None => execute_steps tc p
  end.

(** The body of the test function from the viewport override on, for a
    resolved test case.  (The timeout of the runner, set before, is no call
    on the page.) *)
Definition ui_test (basePath : option string) (tc : UiTestCase) (p : page) : outcome :=
  match viewport tc with
  | Some (w, h) => await (page_setViewportSize w h) p (navigate basePath tc)
  | None => navigate basePath tc p
  end.

End TestFunction.

End UiSuite.

(** ** schema-validator.ts and the loader of data-loader.ts *)

Module Loader.

Import Str Js.

(** [s.endsWith(suffix)] *)
Definition endsWith (s suffix : string) : bool :=
  let n := String.length s in
  let m := String.length suffix in
  if n <? m then false else String.eqb (substring (n - m) m s) suffix.

(** [l.join(sep)] *)
Fixpoint join (sep : string) (l : list string) : string :=
  match l with
  | [] => ""
  | [x] => x
  | x :: l' => x +:+ sep +:+ join sep l'
  end.

(** An error of the schema library, as far as it is printed. *)
Record ErrorObject : Type := {
  instancePath : string;
  message : option string;
  params : Js.value;
}.

Record ValidationResult : Type := {
  valid : bool;
  errors : list string;
}.

(** A compiled schema: the verdict on a value and [validate.errors] after
    the call. *)
Definition ValidateFunction : Type := Js.value -> bool * option (list ErrorObject).

Section Files.

(** [validators[type]], [JSON.stringify], [JSON.parse], the file system and
    [path]. *)
Variable validators : string -> option ValidateFunction.
Variable JSON_stringify : Js.value -> string.
Variable JSON_parse : string -> res exn Js.value.
Variable existsSync : string -> bool.
Variable readFileSync : string -> string.
Variable readdirSync : string -> list string.
Variable path_join : string -> string -> string.
Variable path_resolve : string -> string -> string.
(** [DATA_DIR] of data-loader.ts and [dataDir] of the CLI. *)
Variable DATA_DIR : string.
Variable dataDir : string.

(** [`${e.instancePath || '/'} ${e.message} ${JSON.stringify(e.params)}`] *)
Definition show_error (e : ErrorObject) : string :=
  (if String.eqb (instancePath e) "" then "/" else instancePath e) +:+ " " +:+
  default "undefined" (message e) +:+ " " +:+ JSON_stringify (params e).

Definition validateTestData (data : Js.value) (type : string) : ValidationResult :=
  match validators type with
  | None =>
      {| valid := false;
         errors := ["Unknown test type: " +:+ String dquote (type +:+ String dquote "")] |}
  | Some validate =>
      let (valid, validate_errors) := validate data in
      let errors :=
        if valid then [] else map show_error (default [] validate_errors) in
      {| valid := valid; errors := errors |}
  end.

Definition validateTestFile (filePath : string) (type : string) : ValidationResult :=
  if negb (existsSync filePath) then
    {| valid := false; errors := ["File not found: " +:+ filePath] |}
  else
    let raw := readFileSync filePath in
    match JSON_parse raw with
    | Throw _ => {| valid := false; errors := ["Invalid JSON in " +:+ filePath] |}
    | Ok data => validateTestData data type
    end.

(** *** CLI mode: validate all JSON files in the data directory *)

(** One line of the console. *)
Inductive line : Type :=
| console_log (s : string)
| console_error (s : string).

(** The loop over the files of one folder: the lines printed and
    [hasErrors]. *)
Fixpoint validate_files (folder type : string) (files : list string)
    (hasErrors : bool) : list line * bool :=
  match files with
  | [] => ([], hasErrors)
  | file :: rest =>
      let full := path_join folder file in
      let result := validateTestFile full type in
      if valid result then
        let (out, h) := validate_files folder type rest hasErrors in
        (console_log ("✓ " +:+ type +:+ "/" +:+ file) :: out, h)
      else
        let (out, h) := validate_files folder type rest true in
        (console_error ("✗ " +:+ type +:+ "/" +:+ file) ::
         map (fun e => console_error ("    " +:+ e)) (errors result) ++ out, h)
  end.

(** The loop over the folders. *)
Fixpoint validate_dirs (dirs : list (string * string)) (hasErrors : bool)
  : list line * bool :=
  match dirs with
  | [] => ([], hasErrors)
  | (folder, type) :: rest =>
      if negb (existsSync folder) then validate_dirs rest hasErrors
      else
        let files := List.filter (fun f => endsWith f ".json") (readdirSync folder) in
        let (out, h) := validate_files folder type files hasErrors in
        let (out', h') := validate_dirs rest h in
        (out ++ out', h')
  end.

(** The lines printed and the exit code. *)
Definition main : list line * Z :=
  let dirs := [(path_join dataDir "api", "api"); (path_join dataDir "ui", "ui")] in
  let (out, hasErrors) := validate_dirs dirs false in
  (out, if hasErrors then 1%Z else 0%Z).

(** *** data-loader.ts *)

Definition loadTestFile (relativePath : string) (type : string) : res exn Js.value :=
  let fullPath := path_resolve DATA_DIR relativePath in
  if negb (existsSync fullPath) then
    Throw (Error ("Test data file not found: " +:+ fullPath))
  else
    bind (JSON_parse (readFileSync fullPath)) (fun raw =>
      let validation := validateTestData raw type in
      if negb (valid validation) then
        Throw (Error ("Schema validation failed for " +:+ relativePath +:+ ":" +:+
                      String "010" "  " +:+
                      join (String "010" "  ") (errors validation)))
      else Ok raw).

(** [files.map((f) => loadTestFile(...))]: the first file that fails ends
    the call. *)
Fixpoint load_each (subdir type : string) (files : list string)
  : res exn (list Js.value) :=
  match files with
  | [] => Ok []
  | f :: rest =>
      bind (loadTestFile (path_join subdir f) type) (fun x =>
      bind (load_each subdir type rest) (fun xs => Ok (x :: xs)))
  end.

Definition loadAllTestFiles (subdir : string) (type : string) : res exn (list Js.value) :=
  let dir := path_join DATA_DIR subdir in
  if negb (existsSync dir) then Ok []
  else load_each subdir type
         (List.filter (fun f => endsWith f ".json") (readdirSync dir)).

End Files.

End Loader.

(** ** env.config.ts *)

Module EnvConfig.

Import Str Js Loader.

(** The string without its first [n] characters. *)
Fixpoint drop (n : nat) (s : string) : string :=
  match n, s with
  | S n', String _ s' => drop n' s'
  | _, _ => s
  end.

(** The text starts with the pattern. *)
Fixpoint starts_with (pattern s : string) : bool :=
  match pattern, s with
  | EmptyString, _ => true
  | String a pattern', String b s' => Ascii.eqb a b && starts_with pattern' s'
  | String _ _, EmptyString => false
  end.

(** [s.replace(pattern, '')] for a pattern that is a string: the first
    occurrence of the pattern is removed. *)
Fixpoint remove_first (pattern s : string) : string :=
  if starts_with pattern s then drop (String.length pattern) s
  else match s with
       | EmptyString => ""
       | String c s' => String c (remove_first pattern s')
       end.

Section Env.

(** [process.env], [Number], [JSON.parse(raw) as EnvironmentConfig] (the
    files hold objects), the file system and the two paths the loader
    builds. *)
Variable env : gmap string string.
Variable Number : string -> number.
Variable JSON_parse : string -> res exn (list (string * Js.value)).
Variable existsSync : string -> bool.
Variable readFileSync : string -> string.
Variable readdirSync : string -> list string.
Variable environments_dir : string.
Variable environment_file : string -> string.

(** [process.env.NAME] where the code tests it for truth: set and not
    empty. *)
Definition env_var (name : string) : option string :=
  match env !! name with
  | Some s => if String.eqb s "" then None else Some s
  | None => None
  end.

Definition resolveEnvName : string := default "dev" (env_var "TEST_ENV").

(** [if (process.env.NAME) config.key = f(process.env.NAME)] *)
Definition override (name key : string) (f : string -> Js.value)
    (config : list (string * Js.value)) : list (string * Js.value) :=
  match env_var name with
  | Some s => set_prop config key (f s)
  | None => config
  end.

Definition applyEnvOverrides (config : list (string * Js.value))
  : list (string * Js.value) :=
  let config := override "API_BASE_URL" "apiBaseUrl" VStr config in
  let config := override "UI_BASE_URL" "uiBaseUrl" VStr config in
  let config := override "TEST_TIMEOUT" "timeout" (fun s => VNum (Number s)) config in
  let config := override "TEST_RETRIES" "retries" (fun s => VNum (Number s)) config in
  config.

Definition listAvailableEnvironments : list string :=
  let dir := environments_dir in
  if negb (existsSync dir) then []
  else map (remove_first ".json")
         (List.filter (fun f => endsWith f ".json") (readdirSync dir)).

Definition loadJsonConfig (envName : string) : res exn (list (string * Js.value)) :=
  let filePath := environment_file (envName +:+ ".json") in
  if negb (existsSync filePath) then
    Throw (Error ("Environment config not found: " +:+ filePath +:+ String "010" "" +:+
                  "Available environments: " +:+ join ", " listAvailableEnvironments))
  else JSON_parse (readFileSync filePath).

Definition getConfig : res exn (list (string * Js.value)) :=
  let envName := resolveEnvName in
  bind (loadJsonConfig envName) (fun config => Ok (applyEnvOverrides config)).

Definition getEnvName : string := resolveEnvName.

End Env.

End EnvConfig.

(** * Properties *)

(** ** Strings *)

Section StringFacts.

Import Str.

Lemma append_nil_r (s : string) : s +:+ "" = s.
Proof. induction s as [|c s IH]; simpl; [reflexivity | f_equal; exact IH]. Qed.

Lemma append_assoc (a b c : string) : (a +:+ b) +:+ c = a +:+ (b +:+ c).
Proof. induction a as [|x a IH]; simpl; [reflexivity | f_equal; exact IH]. Qed.

Lemma length_append (a b : string) :
  String.length (a +:+ b) = String.length a + String.length b.
Proof. induction a as [|x a IH]; simpl; [reflexivity | f_equal; exact IH]. Qed.

End StringFacts.

(** ** The scanner of [interpolate] *)

Section ScanFacts.

Import Str Interp.

Lemma is_word_not_brace c : is_word c = true -> is_brace c = false.
Proof.
  unfold is_brace, lbrace, rbrace. intros Hw.
  destruct (Ascii.eqb c "{") eqn:E1.
  { apply Ascii.eqb_eq in E1. subst c. discriminate Hw. }
  destruct (Ascii.eqb c "}") eqn:E2.
  { apply Ascii.eqb_eq in E2. subst c. discriminate Hw. }
  reflexivity.
Qed.

(** [span_word] splits its argument, the first part is made of word
    characters and the second does not start with one. *)
Definition stops (r : string) : Prop :=
  match r with
  | EmptyString => True
  | String c _ => is_word c = false
  end.

Lemma span_word_spec s w r :
  span_word s = (w, r) ->
  s = w +:+ r /\ all_chars is_word w = true /\ stops r.
Proof.
  revert w r. induction s as [|c s IH]; intros w r; simpl.
  - intros [= <- <-]. now repeat split.
  - destruct (is_word c) eqn:Hc.
    + destruct (span_word s) as [w' r'] eqn:E. intros [= <- <-].
      destruct (IH _ _ eq_refl) as (-> & Hw & Hr).
      simpl. rewrite Hc. now repeat split.
    + intros [= <- <-]. simpl. now repeat split.
Qed.

Lemma span_word_app w r :
  all_chars is_word w = true -> stops r -> span_word (w +:+ r) = (w, r).
Proof.
  induction w as [|c w IH]; simpl; intros Hw Hr.
  - destruct r as [|d r]; simpl in *; [reflexivity | now rewrite Hr].
  - apply andb_prop in Hw as [Hc Hw]. rewrite Hc, IH by assumption. reflexivity.
Qed.

(** What a match is: the text starts with an identifier in double braces. *)
Lemma INTERPOLATION_RE_Some s key rest :
  INTERPOLATION_RE s = Some (key, rest) <->
  s = placeholder key +:+ rest /\ identifier key.
Proof.
  unfold placeholder, identifier. split.
  - destruct s as [|c1 [|c2 s1]]; simpl; try discriminate.
    destruct (Ascii.eqb c1 lbrace) eqn:E1; simpl; [|discriminate].
    destruct (Ascii.eqb c2 lbrace) eqn:E2; simpl; [|discriminate].
    apply Ascii.eqb_eq in E1, E2. subst c1 c2.
    destruct (span_word s1) as [w r] eqn:E.
    apply span_word_spec in E as (-> & Hw & _).
    destruct w as [|k0 k]; [discriminate|].
    destruct r as [|d1 [|d2 r]]; try discriminate.
    destruct (Ascii.eqb d1 rbrace) eqn:E3; simpl; [|discriminate].
    destruct (Ascii.eqb d2 rbrace) eqn:E4; simpl; [|discriminate].
    apply Ascii.eqb_eq in E3, E4. subst d1 d2.
    intros [= <- <-]. simpl. rewrite !append_assoc. simpl. now repeat split.
  - intros (-> & Hne & Hw). simpl. rewrite !append_assoc. simpl.
    rewrite span_word_app by (assumption || reflexivity).
    destruct key as [|k0 k]; [congruence | reflexivity].
Qed.

Lemma INTERPOLATION_RE_length s key rest :
  INTERPOLATION_RE s = Some (key, rest) ->
  String.length s = 4 + String.length key + String.length rest.
Proof.
  intros (-> & _)%INTERPOLATION_RE_Some. unfold placeholder.
  rewrite !length_append. simpl. lia.
Qed.

Lemma INTERPOLATION_RE_head c s :
  c <> lbrace -> INTERPOLATION_RE (String c s) = None.
Proof.
  intros Hc. destruct s as [|c2 s]; simpl; [reflexivity|].
  apply Ascii.eqb_neq in Hc. now rewrite Hc.
Qed.

(** Any fuel from the length of the string on gives the same tokens. *)
Lemma scan_fuel n m s :
  String.length s <= n -> String.length s <= m -> scan_from n s = scan_from m s.
Proof.
  revert m s. induction n as [|n IH]; intros m s Hn Hm.
  - destruct s; simpl in Hn; [|lia]. now destruct m.
  - destruct s as [|c s]; [now destruct m|].
    destruct m as [|m]; [simpl in Hm; lia|].
    cbn [scan_from]. destruct (INTERPOLATION_RE (String c s)) as [[k r]|] eqn:E.
    + apply INTERPOLATION_RE_length in E. f_equal. apply IH; lia.
    + f_equal. simpl in Hn, Hm. apply IH; lia.
Qed.

Lemma scan_nil : scan "" = [].
Proof. reflexivity. Qed.

Lemma scan_match s key rest :
  INTERPOLATION_RE s = Some (key, rest) -> scan s = Hole key :: scan rest.
Proof.
  intros E. unfold scan. pose proof (INTERPOLATION_RE_length _ _ _ E) as Hl.
  destruct s as [|c s]; [discriminate|].
  cbn [String.length scan_from]. rewrite E. f_equal.
  apply scan_fuel; simpl in Hl; lia.
Qed.

Lemma scan_lit c s :
  INTERPOLATION_RE (String c s) = None -> scan (String c s) = Lit c :: scan s.
Proof. intros E. unfold scan. cbn [String.length scan_from]. now rewrite E. Qed.

(** Induction along the scan. *)
Lemma scan_ind (P : string -> Prop) :
  P "" ->
  (forall s key rest,
      INTERPOLATION_RE s = Some (key, rest) -> P rest -> P s) ->
  (forall c s, INTERPOLATION_RE (String c s) = None -> P s -> P (String c s)) ->
  forall s, P s.
Proof.
  intros H0 Hm Hl s.
  remember (String.length s) as n eqn:Hn.
  revert s Hn. induction n as [n IH] using lt_wf_ind. intros s ->.
  destruct s as [|c s]; [exact H0|].
  destruct (INTERPOLATION_RE (String c s)) as [[k r]|] eqn:E.
  - apply (Hm _ _ _ E). apply (IH (String.length r)); [|reflexivity].
    apply INTERPOLATION_RE_length in E. lia.
  - apply (Hl _ _ E). apply (IH (String.length s)); [simpl; lia | reflexivity].
Qed.

(** Text that follows does not disturb the scan of what precedes it, as
    long as it starts with two opening braces: no match can straddle that
    point, since a match has no opening brace after its first two
    characters. *)
Lemma span_word_stops a t :
  stops t -> span_word (a +:+ t) = let (w, r) := span_word a in (w, r +:+ t).
Proof.
  intros Ht. induction a as [|c a IH]; simpl.
  - destruct t as [|d t]; simpl in *; [reflexivity | now rewrite Ht].
  - destruct (is_word c); [|reflexivity].
    rewrite IH. now destruct (span_word a).
Qed.

Lemma INTERPOLATION_RE_app a t :
  a <> "" ->
  INTERPOLATION_RE (a +:+ "{{" +:+ t) =
  match INTERPOLATION_RE a with
  | Some (key, rest) => Some (key, rest +:+ "{{" +:+ t)
  | None => None
  end.
Proof.
  intros Ha. destruct a as [|c1 [|c2 s1]]; [congruence| |].
  - simpl. now rewrite andb_false_r || destruct (Ascii.eqb c1 lbrace).
  - cbn [String.append INTERPOLATION_RE].
    destruct (Ascii.eqb c1 lbrace && Ascii.eqb c2 lbrace); [|reflexivity].
    rewrite span_word_stops by reflexivity.
    destruct (span_word s1) as [[|k0 k] r]; [reflexivity|].
    destruct r as [|d1 [|d2 r]]; simpl.
    + reflexivity.
    + now rewrite andb_false_r.
    + now destruct (Ascii.eqb d1 rbrace && Ascii.eqb d2 rbrace).
Qed.

Lemma scan_app a t :
  scan (a +:+ "{{" +:+ t) = scan a ++ scan ("{{" +:+ t).
Proof.
  induction a as [|s key rest E IH|c s E IH] using scan_ind.
  - reflexivity.
  - assert (s <> "") as Hs by (intros ->; discriminate E).
    pose proof (INTERPOLATION_RE_app s t Hs) as E'. rewrite E in E'.
    rewrite (scan_match _ _ _ E), (scan_match _ _ _ E'), IH. reflexivity.
  - pose proof (INTERPOLATION_RE_app (String c s) t ltac:(discriminate)) as E'.
    rewrite E in E'. change (String c s +:+ "{{" +:+ t)
      with (String c (s +:+ "{{" +:+ t)) in *.
    rewrite (scan_lit _ _ E), (scan_lit _ _ E'), IH. reflexivity.
Qed.

Lemma scan_placeholder key b :
  identifier key -> scan (placeholder key +:+ b) = Hole key :: scan b.
Proof.
  intros Hk. apply scan_match, INTERPOLATION_RE_Some. now split.
Qed.

(** Characters other than an opening brace are passed over one by one. *)
Definition lits (u : string) : list token :=
  map Lit (list_ascii_of_string u).

Lemma scan_no_lbrace u s :
  all_chars (fun c => negb (Ascii.eqb c lbrace)) u = true ->
  scan (u +:+ s) = lits u ++ scan s.
Proof.
  induction u as [|c u IH]; simpl; intros Hu; [reflexivity|].
  apply andb_prop in Hu as [Hc Hu].
  rewrite scan_lit, IH by
    (assumption || (apply INTERPOLATION_RE_head, Ascii.eqb_neq, negb_true_iff, Hc)).
  reflexivity.
Qed.

Lemma flatten_app l1 l2 : flatten (l1 ++ l2) = flatten l1 +:+ flatten l2.
Proof.
  induction l1 as [|x l1 IH]; simpl; [reflexivity|].
  now rewrite IH, append_assoc.
Qed.

Lemma flatten_lits f u : flatten (map (render f) (lits u)) = u.
Proof. induction u as [|c u IH]; simpl; [reflexivity | now f_equal]. Qed.

(** The equations of [String_replace]. *)
Lemma String_replace_nil f : String_replace f "" = "".
Proof. reflexivity. Qed.

Lemma String_replace_match f s key rest :
  INTERPOLATION_RE s = Some (key, rest) ->
  String_replace f s = f key +:+ String_replace f rest.
Proof. intros E. unfold String_replace. now rewrite (scan_match _ _ _ E). Qed.

Lemma String_replace_lit f c s :
  INTERPOLATION_RE (String c s) = None ->
  String_replace f (String c s) = String c (String_replace f s).
Proof. intros E. unfold String_replace. now rewrite (scan_lit _ _ E). Qed.

Lemma String_replace_app f a t :
  String_replace f (a +:+ "{{" +:+ t) =
  String_replace f a +:+ String_replace f ("{{" +:+ t).
Proof. unfold String_replace. now rewrite scan_app, map_app, flatten_app. Qed.

Lemma String_replace_placeholder f key b :
  identifier key ->
  String_replace f (placeholder key +:+ b) = f key +:+ String_replace f b.
Proof. intros Hk. unfold String_replace. now rewrite scan_placeholder. Qed.

(** Putting every placeholder back gives the scanned text: the tokens are a
    partition of the string. *)
Lemma String_replace_id s : String_replace placeholder s = s.
Proof.
  induction s as [|s key rest E IH|c s E IH] using scan_ind.
  - reflexivity.
  - rewrite (String_replace_match _ _ _ _ E), IH.
    now apply INTERPOLATION_RE_Some in E as [-> _].
  - now rewrite (String_replace_lit _ _ _ E), IH.
Qed.

Lemma String_replace_ext f g s :
  (forall key, In key (placeholders s) -> f key = g key) ->
  String_replace f s = String_replace g s.
Proof.
  unfold String_replace, placeholders.
  induction (scan s) as [|[c|k] l IH]; simpl; intros H; [reflexivity| |].
  - f_equal. apply IH, H.
  - rewrite (H k) by now left. f_equal. apply IH. intros; apply H. now right.
Qed.

(** The placeholders the scan finds are exactly the identifiers in double
    braces that occur in the text. *)
Lemma placeholders_spec s key :
  In key (placeholders s) <->
  identifier key /\ exists a b, s = a +:+ placeholder key +:+ b.
Proof.
  split.
  - induction s as [|s k rest E IH|c s E IH] using scan_ind.
    + intros [].
    + unfold placeholders. rewrite (scan_match _ _ _ E). simpl.
      apply INTERPOLATION_RE_Some in E as [-> Hk].
      intros [<-|Hin].
      * split; [assumption|]. now exists "", rest.
      * destruct (IH Hin) as (Hkey & a & b & ->). split; [assumption|].
        exists (placeholder k +:+ a), b. now rewrite append_assoc.
    + unfold placeholders. rewrite (scan_lit _ _ E). simpl. intros Hin.
      destruct (IH Hin) as (Hkey & a & b & ->). split; [assumption|].
      now exists (String c a), b.
  - intros (Hk & a & b & ->). unfold placeholders, placeholder.
    rewrite append_assoc. change ("{{" +:+ ?x) with (String lbrace (String lbrace x)).
    change (String lbrace (String lbrace ?x)) with ("{{" +:+ x).
    rewrite scan_app, omap_app.
    apply in_or_app. right.
    change ("{{" +:+ key +:+ "}}" +:+ b) with ((("{{" +:+ key) +:+ "}}") +:+ b).
    pose proof (scan_placeholder key b Hk) as Hs. unfold placeholder in Hs.
    rewrite <- !append_assoc in *. simpl in *. rewrite Hs. now left.
Qed.

End ScanFacts.

(** ** [interpolate] on strings *)

Section InterpolateString.

Import Str Js Interp.

Lemma INTERPOLATION_RE_second c1 c2 s :
  c2 <> lbrace -> INTERPOLATION_RE (String c1 (String c2 s)) = None.
Proof.
  intros Hc. simpl. apply Ascii.eqb_neq in Hc. now rewrite Hc, andb_false_r.
Qed.

Lemma all_word_brace_free k :
  all_chars is_word k = true -> brace_free k.
Proof.
  unfold brace_free. induction k as [|c k IH]; simpl; [reflexivity|].
  intros [Hc Hk]%andb_prop. now rewrite (is_word_not_brace _ Hc), IH.
Qed.

(** A brace-free text in front of a closing brace is determined by the
    whole. *)
Lemma brace_free_prefix t k x y :
  brace_free t -> brace_free k ->
  t +:+ String rbrace x = k +:+ String rbrace y -> t = k.
Proof.
  unfold brace_free, is_brace. revert k.
  induction t as [|c t IH]; intros [|d k]; simpl; intros Ht Hk E.
  - reflexivity.
  - injection E as <- _. now rewrite Ascii.eqb_refl, orb_true_r in Hk.
  - injection E as -> _. now rewrite Ascii.eqb_refl, orb_true_r in Ht.
  - injection E as -> E. apply andb_prop in Ht as [_ Ht], Hk as [_ Hk].
    f_equal. now apply IH.
Qed.

Lemma brace_free_no_lbrace t :
  brace_free t -> all_chars (fun c => negb (Ascii.eqb c lbrace)) t = true.
Proof.
  unfold brace_free, is_brace. induction t as [|c t IH]; simpl; [reflexivity|].
  intros [Hc Ht]%andb_prop. rewrite IH by assumption.
  apply negb_true_iff, orb_false_elim in Hc as [-> _]. reflexivity.
Qed.

Lemma all_chars_app p a b :
  all_chars p (a +:+ b) = all_chars p a && all_chars p b.
Proof.
  induction a as [|c a IH]; simpl; [reflexivity|]. now rewrite IH, andb_assoc.
Qed.

(** Double braces around a text that is no identifier are ordinary text. *)
Lemma String_replace_non_identifier f t b :
  brace_free t -> has_non_word t ->
  String_replace f ("{{" +:+ t +:+ "}}" +:+ b) =
  "{{" +:+ t +:+ "}}" +:+ String_replace f b.
Proof.
  intros Ht Hnw.
  assert (INTERPOLATION_RE ("{{" +:+ t +:+ "}}" +:+ b) = None) as E0.
  { destruct (INTERPOLATION_RE _) as [[k r]|] eqn:E; [exfalso | reflexivity].
    apply INTERPOLATION_RE_Some in E as [E [_ Hk]]. unfold placeholder in E.
    rewrite !append_assoc in E. simpl in E. injection E as E.
    apply brace_free_prefix in E; [|assumption|now apply all_word_brace_free].
    subst k. unfold has_non_word in Hnw. congruence. }
  assert (INTERPOLATION_RE (String lbrace (t +:+ "}}" +:+ b)) = None) as E1.
  { destruct t as [|c t]; simpl append.
    - now apply INTERPOLATION_RE_second.
    - apply INTERPOLATION_RE_second. intros ->. unfold brace_free in Ht.
      cbn [all_chars] in Ht. apply andb_prop in Ht as [Hc _].
      vm_compute in Hc. discriminate Hc. }
  change ("{{" +:+ t +:+ "}}" +:+ b)
    with (String lbrace (String lbrace (t +:+ "}}" +:+ b))) in *.
  rewrite (String_replace_lit _ _ _ E0), (String_replace_lit _ _ _ E1).
  do 2 f_equal. unfold String_replace. rewrite <- append_assoc.
  rewrite scan_no_lbrace, map_app, flatten_app, flatten_lits.
  - now rewrite append_assoc.
  - rewrite all_chars_app, brace_free_no_lbrace by assumption. reflexivity.
Qed.

(** A text in which the scan finds no placeholder is returned as it is. *)
Lemma String_replace_no_placeholder f s :
  placeholders s = [] -> String_replace f s = s.
Proof.
  intros H. rewrite <- (String_replace_id s) at 2.
  apply String_replace_ext. rewrite H. intros key [].
Qed.

End InterpolateString.

(** ** Idempotence of [interpolate] (C3) *)

Section Idempotence.

Import Str Js Interp.

(** A mapping in which the value of one variable is a placeholder for
    another. *)
Definition chained_vars : gmap string string :=
  <["a" := "{{b}}"]> (<["b" := "x"]> ∅).

(** C3, counterexample.  With [a -> "{{b}}"] and [b -> "x"], the first pass
    turns ["{{a}}"] into ["{{b}}"] and the second pass turns that into
    ["x"]: interpolating twice is not interpolating once. *)
Lemma interpolate_twice_differs :
  interpolate chained_vars (interpolate chained_vars (VStr "{{a}}"))
  <> interpolate chained_vars (VStr "{{a}}").
Proof. vm_compute. discriminate. Qed.

(** C3, amended.  A second pass changes nothing once the first pass has
    resolved every key: whenever the text the first pass returns contains
    no [{{key}}] for which [vars[key]] gives something (an entry of the
    mapping, or a member the mapping inherits from [Object.prototype]),
    interpolating it again returns it unchanged. *)
Theorem interpolate_idempotent_once_resolved
    (vars : gmap string string) (s : string) :
  (forall key a b,
      interpolate_string vars s = a +:+ placeholder key +:+ b ->
      identifier key -> property vars key = None) ->
  interpolate vars (interpolate vars (VStr s)) = interpolate vars (VStr s).
Proof.
  intros Hres. cbn [interpolate]. f_equal.
  set (t := interpolate_string vars s) in *.
  unfold interpolate_string at 1.
  rewrite <- (String_replace_id t) at 2.
  apply String_replace_ext. intros key Hin.
  apply placeholders_spec in Hin as (Hk & a & b & E).
  unfold replacer. now rewrite (Hres key a b E Hk).
Qed.

Definition greeting_vars : gmap string string := <["name" := "Ann"]> ∅.

Lemma interpolate_idempotent_once_resolved_witness :
  interpolate greeting_vars
    (interpolate greeting_vars (VStr "hi {{name}}, see {{other}}"))
  = interpolate greeting_vars (VStr "hi {{name}}, see {{other}}").
Proof.
  apply (interpolate_idempotent_once_resolved greeting_vars).
  intros key a b E Hk.
  assert (In key (placeholders
            (interpolate_string greeting_vars "hi {{name}}, see {{other}}")))
    as Hin by (apply placeholders_spec; eauto).
  vm_compute in Hin. destruct Hin as [<-|[]]. reflexivity.
Defined.

End Idempotence.

(** ** Placeholders that are no identifiers (C10) *)

Section NonIdentifiers.

Import Str Js Interp.

(** C10.  Only identifiers made of word characters are placeholders: text
    of the form [{{t}}], where [t] holds no brace and at least one character
    that is no word character, is returned byte for byte, whatever the
    mapping contains (an entry for [t] itself included), and the text around
    it is interpolated as if it stood alone. *)
Theorem interpolate_skips_non_identifier
    (vars : gmap string string) (a t b : string) :
  brace_free t -> has_non_word t ->
  interpolate vars (VStr (a +:+ "{{" +:+ t +:+ "}}" +:+ b)) =
  VStr (interpolate_string vars a +:+ "{{" +:+ t +:+ "}}" +:+
        interpolate_string vars b).
Proof.
  intros Ht Hnw. cbn [interpolate]. f_equal. unfold interpolate_string.
  rewrite String_replace_app. f_equal.
  now apply String_replace_non_identifier.
Qed.

Definition dashed_vars : gmap string string :=
  <["my-var" := "X"]> (<[" name " := "Y"]> (<["id" := "7"]> ∅)).

Lemma interpolate_skips_non_identifier_witness :
  interpolate dashed_vars (VStr ("/u/{{id}}?q=" +:+ "{{" +:+ "my-var" +:+ "}}" +:+ "&n={{ name }}"))
  = VStr (interpolate_string dashed_vars "/u/{{id}}?q=" +:+ "{{" +:+ "my-var" +:+ "}}" +:+
          interpolate_string dashed_vars "&n={{ name }}").
Proof.
  apply (interpolate_skips_non_identifier dashed_vars "/u/{{id}}?q=" "my-var" "&n={{ name }}");
    vm_compute; reflexivity.
Defined.

End NonIdentifiers.

(** ** Tag filter (C5) *)

Section TagFilter.

Import Interp.

(** The test declares at least one of the requested tags. *)
Definition declares_one_of (filterTags : list string) (t : TestCaseRaw) : Prop :=
  exists ts tag, tags t = Some ts /\ In tag ts /\ In tag filterTags.

Lemma includes_In l x : includes l x = true <-> In x l.
Proof.
  unfold includes. rewrite existsb_exists. split.
  - intros (y & Hy & E). apply String.eqb_eq in E. now subst.
  - intros H. exists x. split; [assumption | apply String.eqb_refl].
Qed.

Lemma tag_match_spec filterTags t :
  tag_match filterTags t = true <-> declares_one_of filterTags t.
Proof.
  unfold tag_match, declares_one_of. destruct (tags t) as [ts|].
  - rewrite existsb_exists. split.
    + intros (tag & Hin & Hinc). apply includes_In in Hinc. now exists ts, tag.
    + intros (ts' & tag & [= <-] & Hin & Hf). exists tag.
      split; [assumption | now apply includes_In].
  - split; [discriminate | now intros (? & ? & [=] & _)].
Qed.

(** C5.  With no requested tag the list comes back as it is.  With some,
    the result keeps, one by one and in order, the tests that declare at
    least one requested tag and drops the others; a test without tags
    (absent or empty) is dropped. *)
Theorem filterByTags_spec (filterTags : list string) :
  (forall tests, filterTags = [] -> filterByTags tests filterTags = tests) /\
  (filterTags <> [] ->
   filterByTags [] filterTags = [] /\
   (forall t rest, declares_one_of filterTags t ->
      filterByTags (t :: rest) filterTags = t :: filterByTags rest filterTags) /\
   (forall t rest, ~ declares_one_of filterTags t ->
      filterByTags (t :: rest) filterTags = filterByTags rest filterTags) /\
   (forall t tests, tags t = None \/ tags t = Some [] ->
      ~ In t (filterByTags tests filterTags))).
Proof.
  split.
  - now intros tests ->.
  - intros Hne. unfold filterByTags.
    destruct filterTags as [|f fs]; [congruence|]. cbn [length Nat.eqb].
    repeat split.
    + intros t rest Ht. apply tag_match_spec in Ht. cbn [List.filter]. now rewrite Ht.
    + intros t rest Ht. cbn [List.filter].
      destruct (tag_match (f :: fs) t) eqn:E; [|reflexivity].
      now apply tag_match_spec in E.
    + intros t tests Ht Hin. apply List.filter_In in Hin as [_ Hm].
      apply tag_match_spec in Hm as (ts & tag & E & Hin & _).
      destruct Ht as [Ht|Ht]; rewrite Ht in E; [discriminate|].
      injection E as <-. destruct Hin.
Qed.

(** The result is a sublist of the input: order and multiplicity are
    kept. *)
Lemma filterByTags_sublist tests filterTags :
  sublist (filterByTags tests filterTags) tests.
Proof.
  unfold filterByTags. destruct (length filterTags =? 0); [reflexivity|].
  induction tests as [|t tests IH]; cbn [List.filter]; [constructor|].
  destruct (tag_match filterTags t); now constructor.
Qed.

Lemma filterByTags_In tests filterTags t :
  filterTags <> [] ->
  In t (filterByTags tests filterTags) <->
  In t tests /\ declares_one_of filterTags t.
Proof.
  intros Hne. unfold filterByTags. destruct filterTags; [congruence|].
  cbn [length Nat.eqb]. now rewrite List.filter_In, tag_match_spec.
Qed.

Example filterByTags_smoke :
  let t1 := {| name := "login"; tags := Some ["smoke"; "ui"]; skip := None; only := None; rest := [] |} in
  let t2 := {| name := "bare"; tags := None; skip := None; only := None; rest := [] |} in
  let t3 := {| name := "pay"; tags := Some ["critical"]; skip := None; only := None; rest := [] |} in
  filterByTags [t1; t2; t3] ["critical"; "smoke"] = [t1; t3] /\
  filterByTags [t1; t2; t3] [] = [t1; t2; t3].
Proof. split; reflexivity. Qed.

End TagFilter.

(** ** Induction on value trees *)

Section ValueInduction.

Import Js.

Variable P : value -> Prop.
Hypothesis Hundef : P VUndefined.
Hypothesis Hnull : P VNull.
Hypothesis Hbool : forall b, P (VBool b).
Hypothesis Hnum : forall n, P (VNum n).
Hypothesis Hstr : forall s, P (VStr s).
Hypothesis Harr : forall items, Forall P items -> P (VArr items).
Hypothesis Hobj : forall props, Forall (fun kv => P (snd kv)) props -> P (VObj props).

Fixpoint value_ind' (v : value) : P v :=
  match v with
  | VUndefined => Hundef
  | VNull => Hnull
  | VBool b => Hbool b
  | VNum n => Hnum n
  | VStr s => Hstr s
  | VArr items =>
      Harr items
        ((fix all (l : list value) : Forall P l :=
            match l with
            | [] => @List.Forall_nil _ P
            | x :: l' => @List.Forall_cons _ P x l' (value_ind' x) (all l')
            end) items)
  | VObj props =>
      Hobj props
        ((fix all (o : list (string * value)) : Forall (fun kv => P (snd kv)) o :=
            match o with
            | [] => @List.Forall_nil _ (fun kv => P (snd kv))
            | kv :: o' => @List.Forall_cons _ (fun kv => P (snd kv)) kv o' (value_ind' (snd kv)) (all o')
            end) props)
  end.

End ValueInduction.

(** ** [interpolate] and the store *)

Section Store.

Import Str Js Interp.

Implicit Types (h : heap) (v : hvalue) (t : value).

Lemma repr_mono h h' v t :
  h ⊆ h' -> repr h v t -> repr h' v t.
Proof.
  intros Hsub. revert v. induction t using value_ind'; intros v Hr; inversion Hr; subst.
  all: try constructor.
  - econstructor; [eapply lookup_weaken; eassumption|].
    match goal with H : Forall2 _ _ _ |- _ => revert H end.
    match goal with H : Forall _ _ |- _ => revert H end.
    clear. intros HF H2. induction H2; constructor.
    + inversion HF; subst. auto.
    + inversion HF; subst. auto.
  - econstructor; [eapply lookup_weaken; eassumption|].
    match goal with H : Forall2 _ _ _ |- _ => revert H end.
    match goal with H : Forall _ _ |- _ => revert H end.
    clear. intros HF H2. induction H2 as [|p q ps qs [Hk Hp] H2 IH]; constructor.
    + inversion HF; subst. split; auto.
    + inversion HF; subst. auto.
Qed.


Lemma insert_fresh_subseteq h h1 r c :
  h ⊆ h1 -> h !! r = None -> h ⊆ <[r := c]> h1.
Proof.
  intros Hsub Hr. apply map_subseteq_spec. intros i x Hi.
  rewrite lookup_insert_ne by congruence. eapply lookup_weaken; eassumption.
Qed.

Lemma alloc_fresh h c r h0 :
  alloc h c = (r, h0) -> h !! r = None /\ h0 = <[r := c]> h.
Proof.
  unfold alloc. intros [= <- <-]. split; [|reflexivity].
  apply not_elem_of_dom, is_fresh.
Qed.

(** Frame: the cells of the store the call starts from are still there,
    unchanged, when it returns. *)
Section Frame.

Context (f : hvalue -> heap -> option (hvalue * heap)) (r : loc).
Hypothesis f_frame : forall v h v' h', f v h = Some (v', h') -> h ⊆ h'.

Lemma map_loop_frame hb items hc hf :
  hb ⊆ hc -> hb !! r = None -> map_loop f r items hc = Some hf -> hb ⊆ hf.
Proof.
  revert hc. induction items as [|item rest IH]; intros hc Hsub Hr; simpl.
  - now intros [= <-].
  - destruct (f item hc) as [[v h1]|] eqn:Ef; simpl; [|discriminate].
    unfold push_item. destruct (h1 !! r) as [[done|?]|]; simpl; try discriminate.
    apply IH; [|assumption]. apply insert_fresh_subseteq; [|assumption].
    etrans; [exact Hsub | eapply f_frame, Ef].
Qed.

Lemma entries_loop_frame hb entries hc hf :
  hb ⊆ hc -> hb !! r = None -> entries_loop f r entries hc = Some hf -> hb ⊆ hf.
Proof.
  revert hc. induction entries as [|[k x] rest IH]; intros hc Hsub Hr; simpl.
  - now intros [= <-].
  - destruct (f x hc) as [[v h1]|] eqn:Ef; simpl; [|discriminate].
    unfold assign_prop. destruct (String.eqb k "__proto__"); simpl.
    { apply IH; [|assumption]. etrans; [exact Hsub | eapply f_frame, Ef]. }
    unfold write_prop. destruct (h1 !! r) as [[?|done]|]; simpl; try discriminate.
    apply IH; [|assumption]. apply insert_fresh_subseteq; [|assumption].
    etrans; [exact Hsub | eapply f_frame, Ef].
Qed.

End Frame.

Lemma interpolate_heap_frame fuel vars v h v' h' :
  interpolate_heap fuel vars v h = Some (v', h') -> h ⊆ h'.
Proof.
  revert v h v' h'. induction fuel as [|n IH]; intros v h v' h'; [discriminate|].
  destruct v; cbn [interpolate_heap]; try (now intros [= <- <-]).
  destruct (h !! l) as [[items|props]|] eqn:El; [| |discriminate].
  - destruct (alloc h (CArr [])) as [r h0] eqn:Ea.
    apply alloc_fresh in Ea as [Hr ->].
    destruct (map_loop _ _ _ _) as [hf|] eqn:E; simpl; [|discriminate].
    intros [= <- <-]. eapply (map_loop_frame _ _ IH); [|exact Hr|exact E].
    now apply insert_subseteq.
  - destruct (alloc h (CObj [])) as [r h0] eqn:Ea.
    apply alloc_fresh in Ea as [Hr ->].
    destruct (entries_loop _ _ _ _) as [hf|] eqn:E; simpl; [|discriminate].
    intros [= <- <-]. eapply (entries_loop_frame _ _ IH); [|exact Hr|exact E].
    now apply insert_subseteq.
Qed.


(** Correctness: on a store in which [v] is the root of the tree [t], the
    call returns, and what it returns is the root of [interpolate vars t] in
    the cells created by the call. *)
Definition interpolates (vars : gmap string string) v t : Prop :=
  forall h, repr h v t ->
  exists n v' h',
    (forall fuel, n <= fuel -> interpolate_heap fuel vars v h = Some (v', h')) /\
    h ⊆ h' /\ repr (h' ∖ h) v' (interpolate vars t).

Definition same_key_repr h (p : string * hvalue) (q : string * value) : Prop :=
  fst p = fst q /\ repr h (snd p) (snd q).

Lemma same_key_repr_mono h h' props o :
  h ⊆ h' -> Forall2 (same_key_repr h) props o -> Forall2 (same_key_repr h') props o.
Proof.
  intros Hsub H. eapply Forall2_impl; [exact H|]. intros p q [Hk Hr].
  split; [assumption | eapply repr_mono; eassumption].
Qed.

Lemma Forall2_set_prop h done res k v t :
  Forall2 (same_key_repr h) done res -> repr h v t ->
  Forall2 (same_key_repr h) (set_prop done k v) (set_prop res k t).
Proof.
  intros H Hr. induction H as [|[k1 v1] [k2 t1] done res [Hk Hp] H IH]; simpl.
  - repeat constructor. assumption.
  - simpl in Hk. subst k2. destruct (String.eqb k k1).
    + constructor; [now split | assumption].
    + constructor; [now split | assumption].
Qed.

Section Loop.

Context (vars : gmap string string) (h : heap) (r : loc).
Hypothesis r_fresh : h !! r = None.

(** The cells created since [h], the object under construction apart. *)
Let created (hc : heap) : heap := delete r (hc ∖ h).

Lemma created_step hc h1 c :
  h ⊆ hc -> hc ⊆ h1 -> created hc ⊆ created (<[r := c]> h1).
Proof.
  intros H0 H1. apply map_subseteq_spec. intros i x.
  unfold created. rewrite !lookup_delete_Some, !lookup_difference_Some.
  intros (Hi & Hx & Hn). repeat split; try assumption.
  rewrite lookup_insert_ne by assumption. eapply lookup_weaken; eassumption.
Qed.

Lemma created_new hc h1 c :
  h ⊆ hc -> is_Some (hc !! r) -> h1 ∖ hc ⊆ created (<[r := c]> h1).
Proof.
  intros H0 [y Hy]. apply map_subseteq_spec. intros i x.
  unfold created. rewrite lookup_delete_Some, !lookup_difference_Some.
  intros (Hx & Hn). assert (r <> i) by congruence. repeat split; try assumption.
  - now rewrite lookup_insert_ne.
  - destruct (h !! i) eqn:E; [|reflexivity].
    apply (lookup_weaken _ _ _ _ E) in H0. congruence.
Qed.

Lemma created_all hf : created hf ⊆ hf ∖ h.
Proof. apply delete_subseteq. Qed.

Lemma created_mono hc h1 : hc ⊆ h1 -> created hc ⊆ created h1.
Proof.
  intros H1. apply map_subseteq_spec. intros i x.
  unfold created. rewrite !lookup_delete_Some, !lookup_difference_Some.
  intros (Hi & Hx & Hn). repeat split; try assumption.
  eapply lookup_weaken; eassumption.
Qed.

Lemma map_loop_correct items ts :
  Forall2 (repr h) items ts ->
  Forall (fun t => forall v, interpolates vars v t) ts ->
  forall hc done dts,
    h ⊆ hc -> hc !! r = Some (CArr done) ->
    Forall2 (repr (created hc)) done dts ->
    exists n hf done',
      (forall fuel, n <= fuel ->
         map_loop (interpolate_heap fuel vars) r items hc = Some hf) /\
      h ⊆ hf /\ hf !! r = Some (CArr done') /\
      Forall2 (repr (created hf)) done' (dts ++ map (interpolate vars) ts).
Proof.
  induction 1 as [|item t items ts Hrep _ IH]; intros HF hc done dts Hsub Hr Hdone.
  - exists 0, hc, done. rewrite app_nil_r. now repeat split.
  - inversion HF as [|? ? Ht HF']; subst.
    destruct (Ht item hc (repr_mono _ _ _ _ Hsub Hrep))
      as (n1 & v' & h1 & Hrun & Hsub1 & Hnew).
    pose proof (lookup_weaken _ _ _ _ Hr Hsub1) as Hr1.
    set (h2 := <[r := CArr (done ++ [v'])]> h1).
    destruct (IH HF' h2 (done ++ [v']) (dts ++ [interpolate vars t]))
      as (n2 & hf & done' & Hrun2 & Hsubf & Hrf & Hdone').
    + apply insert_fresh_subseteq; [etrans; eassumption | assumption].
    + apply lookup_insert_eq.
    + apply Forall2_app.
      * eapply Forall2_impl; [exact Hdone|]. intros ? ?.
        apply repr_mono, created_step; assumption.
      * repeat constructor. eapply repr_mono; [|exact Hnew].
        apply created_new; [assumption | eauto].
    + exists (Nat.max n1 n2), hf, done'. repeat split; try assumption.
      * intros fuel Hfuel. cbn [map_loop]. rewrite Hrun by lia. simpl.
        unfold push_item. rewrite Hr1. simpl. apply Hrun2. lia.
      * now rewrite <- app_assoc in Hdone'.
Qed.

Lemma entries_loop_correct props o :
  Forall2 (same_key_repr h) props o ->
  Forall (fun kv => forall v, interpolates vars v (snd kv)) o ->
  forall hc done res,
    h ⊆ hc -> hc !! r = Some (CObj done) ->
    Forall2 (same_key_repr (created hc)) done res ->
    exists n hf done',
      (forall fuel, n <= fuel ->
         entries_loop (interpolate_heap fuel vars) r props hc = Some hf) /\
      h ⊆ hf /\ hf !! r = Some (CObj done') /\
      Forall2 (same_key_repr (created hf)) done'
        (assign_all (interpolate vars) o res).
Proof.
  induction 1 as [|[k x] [k' t] props o [Hk Hrep] _ IH];
    intros HF hc done res Hsub Hr Hdone.
  - exists 0, hc, done. now repeat split.
  - simpl in Hk, Hrep. subst k'. inversion HF as [|? ? Ht HF']; subst. simpl in Ht.
    destruct (Ht x hc (repr_mono _ _ _ _ Hsub Hrep))
      as (n1 & v' & h1 & Hrun & Hsub1 & Hnew).
    pose proof (lookup_weaken _ _ _ _ Hr Hsub1) as Hr1.
    cbn [assign_all]. unfold assign.
    destruct (String.eqb k "__proto__") eqn:Ek.
    { destruct (IH HF' h1 done res) as (n2 & hf & done' & Hrun2 & Hsubf & Hrf & Hdone').
      - etrans; eassumption.
      - assumption.
      - eapply same_key_repr_mono; [|exact Hdone]. now apply created_mono.
      - exists (Nat.max n1 n2), hf, done'. repeat split; try assumption.
        intros fuel Hfuel. cbn [entries_loop]. rewrite Hrun by lia. simpl.
        unfold assign_prop. rewrite Ek. simpl. apply Hrun2. lia. }
    set (h2 := <[r := CObj (set_prop done k v')]> h1).
    destruct (IH HF' h2 (set_prop done k v') (set_prop res k (interpolate vars t)))
      as (n2 & hf & done' & Hrun2 & Hsubf & Hrf & Hdone').
    + apply insert_fresh_subseteq; [etrans; eassumption | assumption].
    + apply lookup_insert_eq.
    + apply Forall2_set_prop.
      * eapply same_key_repr_mono; [|exact Hdone]. now apply created_step.
      * eapply repr_mono; [|exact Hnew]. apply created_new; [assumption | eauto].
    + exists (Nat.max n1 n2), hf, done'. repeat split; try assumption.
      intros fuel Hfuel. cbn [entries_loop]. rewrite Hrun by lia. simpl.
      unfold assign_prop. rewrite Ek. unfold write_prop. rewrite Hr1. simpl.
      apply Hrun2. lia.
Qed.

End Loop.

Lemma interpolate_heap_correct vars t : forall v, interpolates vars v t.
Proof.
  induction t as [| | b | n | s | ts IH | o IH] using value_ind';
    intros v h Hr; inversion Hr; subst.
  1-5: exists 1; eexists; exists h; split; [intros [|fuel] ?; [lia | reflexivity]|].
  1-5: split; [reflexivity | constructor].
  all: match goal with H : _ !! _ = Some _ |- _ => rename H into Hl end.
  all: match goal with H : Forall2 _ _ _ |- _ => rename H into HF2 end.
  - destruct (alloc h (CArr [])) as [r h0] eqn:Ea.
    pose proof Ea as Ea'. apply alloc_fresh in Ea' as [Hfresh ->].
    destruct (map_loop_correct vars h r Hfresh items ts HF2 IH
                (<[r := CArr []]> h) [] [])
      as (n & hf & done' & Hrun & Hsub & Hrf & Hdone).
    { now apply insert_subseteq. }
    { apply lookup_insert_eq. }
    { constructor. }
    exists (S n), (HRef r), hf. repeat split; [|assumption|].
    + intros [|fuel] Hfuel; [lia|]. cbn [interpolate_heap]. rewrite Hl, Ea.
      rewrite Hrun by lia. reflexivity.
    + cbn [interpolate]. econstructor.
      * apply lookup_difference_Some. split; eassumption.
      * eapply Forall2_impl; [exact Hdone|]. intros ? ?.
        apply repr_mono, created_all.
  - destruct (alloc h (CObj [])) as [r h0] eqn:Ea.
    pose proof Ea as Ea'. apply alloc_fresh in Ea' as [Hfresh ->].
    destruct (entries_loop_correct vars h r Hfresh props o HF2 IH
                (<[r := CObj []]> h) [] [])
      as (n & hf & done' & Hrun & Hsub & Hrf & Hdone).
    { now apply insert_subseteq. }
    { apply lookup_insert_eq. }
    { constructor. }
    exists (S n), (HRef r), hf. repeat split; [|assumption|].
    + intros [|fuel] Hfuel; [lia|]. cbn [interpolate_heap]. rewrite Hl, Ea.
      rewrite Hrun by lia. reflexivity.
    + cbn [interpolate]. econstructor.
      * apply lookup_difference_Some. split; eassumption.
      * eapply same_key_repr_mono; [|exact Hdone]. apply created_all.
Qed.

End Store.

(** ** The contract of [interpolate], and where the code leaves it (C2) *)

Section InterpolateContract.

Import Str Js Interp.

Lemma set_prop_new {A} (o : list (string * A)) k v :
  ~ In k (map fst o) -> set_prop o k v = o ++ [(k, v)].
Proof.
  induction o as [|[k' v'] o IH]; simpl; intros Hk; [reflexivity|].
  destruct (String.eqb k k') eqn:E.
  - apply String.eqb_eq in E. subst k'. exfalso. apply Hk. now left.
  - f_equal. apply IH. intros Hin. apply Hk. now right.
Qed.

Lemma assign_all_map {A B} (f : A -> B) (entries : list (string * A)) result :
  NoDup (map fst entries) ->
  ~ In "__proto__" (map fst entries) ->
  (forall k, In k (map fst entries) -> ~ In k (map fst result)) ->
  assign_all f entries result =
  result ++ map (fun kv => (fst kv, f (snd kv))) entries.
Proof.
  revert result.
  induction entries as [|[k v] entries IH]; simpl; intros result Hnd Hproto Hdis.
  - now rewrite app_nil_r.
  - apply NoDup_cons in Hnd as [Hk Hnd]. unfold assign.
    destruct (String.eqb k "__proto__") eqn:Ek.
    { apply String.eqb_eq in Ek. subst k. destruct Hproto. now left. }
    assert (~ In "__proto__" (map fst entries)) as Hproto'
      by (intros Hin; apply Hproto; now right).
    rewrite set_prop_new by (apply Hdis; now left).
    rewrite IH; [now rewrite <- app_assoc | assumption | assumption |].
    intros k' Hin. rewrite map_app, in_app_iff. simpl. intros [Hr|[->|[]]].
    + now apply (Hdis k'); [right|].
    + apply Hk. now apply list_elem_of_In.
Qed.

Lemma no_occurrence_no_placeholder s :
  (forall a key b, s = a +:+ placeholder key +:+ b -> ~ identifier key) ->
  placeholders s = [].
Proof.
  intros H. destruct (placeholders s) as [|k l] eqn:E; [reflexivity|].
  assert (In k (placeholders s)) as Hin by (rewrite E; now left).
  apply placeholders_spec in Hin as (Hk & a & b & ->).
  now destruct (H a k b).
Qed.

(** The contract of [interpolate] where no inherited member is involved.
    In a string leaf every [{{identifier}}] whose identifier has an entry in
    the mapping is replaced by the entry's value, every one for which
    [vars[identifier]] gives nothing stays as it is, the text around a
    placeholder is treated on its own, and a text without placeholders is
    unchanged.  The other leaves are returned as they are; arrays are
    rebuilt element by element, and objects with no key [__proto__] property
    by property, keys and order kept.  On the store, the call returns, every
    object that existed before the call is unchanged after it (so the
    argument still is the tree it was), and the result lives in objects
    created by the call. *)
Lemma interpolate_contract (vars : gmap string string) :
  (forall a key b v, identifier key -> vars !! key = Some v ->
     interpolate vars (VStr (a +:+ placeholder key +:+ b)) =
     VStr (interpolate_string vars a +:+ v +:+ interpolate_string vars b)) /\
  (forall a key b, identifier key -> property vars key = None ->
     interpolate vars (VStr (a +:+ placeholder key +:+ b)) =
     VStr (interpolate_string vars a +:+ placeholder key +:+
           interpolate_string vars b)) /\
  (forall s,
     (forall a key b, s = a +:+ placeholder key +:+ b -> ~ identifier key) ->
     interpolate vars (VStr s) = VStr s) /\
  (interpolate vars VUndefined = VUndefined /\
   interpolate vars VNull = VNull /\
   (forall b, interpolate vars (VBool b) = VBool b) /\
   (forall n, interpolate vars (VNum n) = VNum n)) /\
  (forall items,
     interpolate vars (VArr items) = VArr (map (interpolate vars) items)) /\
  (forall props, NoDup (map fst props) -> ~ In "__proto__" (map fst props) ->
     interpolate vars (VObj props) =
     VObj (map (fun kv => (fst kv, interpolate vars (snd kv))) props)) /\
  (forall (h : heap) v t, repr h v t ->
     exists fuel v' h',
       interpolate_heap fuel vars v h = Some (v', h') /\
       (forall l c, h !! l = Some c -> h' !! l = Some c) /\
       repr h' v t /\
       repr (h' ∖ h) v' (interpolate vars t)).
Proof.
  assert (forall a key b, identifier key ->
            interpolate_string vars (a +:+ placeholder key +:+ b) =
            interpolate_string vars a +:+ replacer vars key +:+
            interpolate_string vars b) as Hsplit.
  { intros a key b Hk. unfold interpolate_string, placeholder.
    change ("{{" +:+ key +:+ "}}") with ("{{" +:+ (key +:+ "}}")).
    rewrite append_assoc. simpl append at 2.
    change (String "{" (String "{" ?x)) with ("{{" +:+ x).
    rewrite String_replace_app. f_equal.
    rewrite <- (String_replace_placeholder (replacer vars) key b Hk).
    unfold placeholder. now rewrite !append_assoc. }
  repeat split.
  - intros a key b v Hk Hv. cbn [interpolate]. rewrite Hsplit by assumption.
    unfold replacer, property. now rewrite Hv.
  - intros a key b Hk Hv. cbn [interpolate]. rewrite Hsplit by assumption.
    unfold replacer. now rewrite Hv.
  - intros s Hs. cbn [interpolate]. f_equal.
    apply String_replace_no_placeholder, no_occurrence_no_placeholder, Hs.
  - intros props Hnd Hproto. cbn [interpolate]. f_equal.
    rewrite assign_all_map; [reflexivity | assumption | assumption | intros ? _ []].
  - intros h v t Hr.
    destruct (interpolate_heap_correct vars t v h Hr) as (n & v' & h' & Hrun & Hsub & Hnew).
    exists n, v', h'. split; [now apply Hrun|]. split; [|split].
    + intros l c Hl. eapply lookup_weaken; eassumption.
    + eapply repr_mono; eassumption.
    + assumption.
Qed.

(** C2, the failing input.  The mapping is empty, so [{{toString}}] names no
    variable and the claim leaves it as it is; [vars[key]] finds the method
    every object inherits and the placeholder is replaced by the text of
    that function.  From the same oversight, an object with a property
    [__proto__] comes back without it: the assignment [result[k] = ...]
    reaches the inherited setter. *)
Lemma interpolate_inherited_member :
  interpolate ∅ (VStr "{{toString}}") = VStr "function toString() { [native code] }" /\
  interpolate ∅ (VStr "{{toString}}") <> VStr "{{toString}}" /\
  interpolate ∅ (VObj [("__proto__", VObj [("a", VNum (Int 1))]); ("b", VNull)]) =
  VObj [("b", VNull)].
Proof. split; [|split]; vm_compute; (reflexivity || discriminate). Qed.

Example interpolate_request :
  let vars : gmap string string := <["userId" := "42"]> (<["token" := "t0k"]> ∅) in
  interpolate vars
    (VObj [("endpoint", VStr "/users/{{userId}}/posts/{{postId}}");
           ("auth", VStr "{{token}}");
           ("retries", VNum (Int 2));
           ("body", VArr [VStr "{{userId}}{{token}}"; VNull; VBool true])])
  = VObj [("endpoint", VStr "/users/42/posts/{{postId}}");
          ("auth", VStr "t0k");
          ("retries", VNum (Int 2));
          ("body", VArr [VStr "42t0k"; VNull; VBool true])].
Proof. vm_compute. reflexivity. Qed.

End InterpolateContract.

(** ** [deepGet] (C8) *)

Section DeepGetFacts.

Import Js Helpers.

Variable Number : string -> number.









(** The guard on [null] and [undefined] in front of the property access is
    what keeps a step from throwing. *)
Lemma deepGet_step_total current key :
  exists r, deepGet_step Number current key = Ok r.
Proof.
  unfold deepGet_step. destruct current; simpl; eauto.
  destruct (isNaN (Number key)); eauto.
Qed.

Lemma reduce_total ks acc : exists r, reduce Number ks acc = Ok r.
Proof.
  revert acc. induction ks as [|k ks IH]; intros acc; simpl; [eauto|].
  destruct (deepGet_step_total acc k) as [r ->]. simpl. apply IH.
Qed.


End DeepGetFacts.

(** ** [deepEqual] (C7) *)

Section DeepEqualFacts.

Import Js Helpers.

(** C7, the failing input.  An object whose only key is [length] compared
    with a one-element array: both have one key, the object's [length] is
    compared with the array's own [length], and the answer is [true]; the
    other way round the array's element is compared with the object's
    missing property ["0"], and the answer is [false]. *)
Lemma deepEqual_not_symmetric :
  deepEqual (VObj [("length", VNum (Int 1))]) (VArr [VNum (Int 5)]) = true /\
  deepEqual (VArr [VNum (Int 5)]) (VObj [("length", VNum (Int 1))]) = false.
Proof. split; reflexivity. Qed.

(** [deepEqual({a:1,b:2},{a:1}) == false] *)
Lemma deepEqual_extra_key :
  deepEqual (VObj [("a", VNum (Int 1)); ("b", VNum (Int 2))])
            (VObj [("a", VNum (Int 1))]) = false.
Proof. reflexivity. Qed.

Lemma num_eqb_refl n : json_number n = true -> num_eqb n n = true.
Proof.
  destruct n; simpl; try discriminate; intros _.
  - apply Z.eqb_refl.
  - now rewrite Z.eqb_refl, Pos.eqb_refl.
Qed.

Lemma assoc_app_new {A} k (pre o : list (string * A)) :
  ~ In k (map fst pre) -> assoc k (pre ++ o) = assoc k o.
Proof.
  induction pre as [|[k' v] pre IH]; simpl; intros Hk; [reflexivity|].
  destruct (String.eqb k k') eqn:E.
  - apply String.eqb_eq in E. subst. exfalso. apply Hk. now left.
  - apply IH. intros H. apply Hk. now right.
Qed.

(** Reflexivity holds on JSON-like values. *)
Lemma deepEqual_refl a : json_like a -> deepEqual a a = true.
Proof.
  induction a as [| | b | n | s | items IH | props IH] using value_ind'.
  - intros [].
  - reflexivity.
  - intros _. simpl. now rewrite Bool.eqb_reflx.
  - intros Hn. simpl in *. now rewrite num_eqb_refl.
  - intros _. simpl. now rewrite String.eqb_refl.
  - intros Hj. cbn [deepEqual strict_eq orb typeof]. rewrite String.eqb_refl.
    cbn [negb]. rewrite Nat.eqb_refl. cbn [negb].
    assert (forall pre l, items = pre ++ l ->
              (fix every (l : list value) (i : nat) : bool :=
                 match l with
                 | [] => true
                 | item :: l' =>
                     deepEqual item (nth i items VUndefined) && every l' (S i)
                 end) l (length pre) = true) as H.
    { intros pre l. revert pre. induction l as [|x l IHl]; intros pre E; [reflexivity|].
      assert (In x items) as Hin by (rewrite E; apply in_or_app; right; now left).
      assert (json_like x) as Hx.
      { clear -Hj Hin. simpl in Hj. induction items as [|y ys IHy]; [destruct Hin|].
        destruct Hj as [Hy Hys]. destruct Hin as [->|Hin]; auto. }
      rewrite Forall_forall in IH.
      replace (nth (length pre) items VUndefined) with x
        by (rewrite E, app_nth2, Nat.sub_diag by lia; reflexivity).
      rewrite (IH x) by (assumption || now apply list_elem_of_In).
      simpl. specialize (IHl (pre ++ [x])). rewrite length_app in IHl. simpl in IHl.
      rewrite Nat.add_1_r in IHl. apply IHl. now rewrite <- app_assoc. }
    apply (H [] items eq_refl).
  - intros Hj. cbn [deepEqual strict_eq orb typeof]. rewrite String.eqb_refl.
    cbn [negb]. rewrite Nat.eqb_refl. cbn [negb].
    destruct Hj as [Hnd Hj].
    assert (forall pre o, props = pre ++ o ->
              (fix every (o : list (string * value)) : bool :=
                 match o with
                 | [] => true
                 | (key, x) :: o' =>
                     deepEqual x (get_own (VObj props) key) && every o'
                 end) o = true) as H.
    { intros pre o. revert pre. induction o as [|[k x] o IHo]; intros pre E; [reflexivity|].
      assert (In (k, x) props) as Hin by (rewrite E; apply in_or_app; right; now left).
      assert (json_like x) as Hx.
      { clear -Hj Hin. induction props as [|[k' y] ys IHy]; [destruct Hin|].
        destruct Hj as [Hy Hys]. destruct Hin as [[= -> ->]|Hin]; auto. }
      assert (get_own (VObj props) k = x) as ->.
      { unfold get_own, get. rewrite E, assoc_app_new.
        - simpl. now rewrite String.eqb_refl.
        - rewrite E, map_app in Hnd. apply NoDup_app in Hnd as (_ & Hdis & _).
          intros Hk. apply (Hdis k); [now apply list_elem_of_In|]. simpl. left. }
      rewrite Forall_forall in IH.
      pose proof (IH (k, x) ltac:(now apply list_elem_of_In) Hx) as Hd.
      simpl in Hd. rewrite Hd.
      simpl. apply (IHo (pre ++ [(k, x)])). now rewrite <- app_assoc. }
    apply (H [] props eq_refl).
Qed.

End DeepEqualFacts.

(** ** Where [deepEqual] is symmetric *)

Section DeepEqualSymmetry.

Import Js Helpers.

(** A JSON-like value none of whose objects has a key [length]. *)
Fixpoint tidy (v : value) : Prop :=
  match v with
  | VUndefined => False
  | VNull | VBool _ | VStr _ => True
  | VNum n => json_number n = true
  | VArr l => (fix all (l : list value) : Prop :=
                 match l with [] => True | x :: l' => tidy x /\ all l' end) l
  | VObj o => (NoDup (map fst o) /\ ~ In "length" (map fst o)) /\
              (fix all (o : list (string * value)) : Prop :=
                 match o with [] => True | (_, x) :: o' => tidy x /\ all o' end) o
  end.

Lemma tidy_arr l : tidy (VArr l) <-> Forall tidy l.
Proof.
  simpl. induction l as [|x l IH]; [split; constructor|].
  rewrite Forall_cons, <- IH. reflexivity.
Qed.

Lemma tidy_obj o :
  tidy (VObj o) <->
  NoDup (map fst o) /\ ~ In "length" (map fst o) /\ Forall (fun kv => tidy (snd kv)) o.
Proof.
  cbn [tidy].
  assert ((fix all (o : list (string * value)) : Prop :=
             match o with [] => True | (_, x) :: o' => tidy x /\ all o' end) o
          <-> Forall (fun kv => tidy (snd kv)) o) as ->.
  { induction o as [|[k x] o IH]; [split; constructor|].
    rewrite Forall_cons, <- IH. reflexivity. }
  tauto.
Qed.

Lemma strict_eq_sym a b : strict_eq a b = strict_eq b a.
Proof.
  destruct a, b; simpl; try reflexivity.
  - now destruct b, b0.
  - destruct n, n0; simpl; try reflexivity.
    + apply Z.eqb_sym.
    + now rewrite Z.eqb_sym, Pos.eqb_sym.
    + now destruct negative, negative0.
  - apply String.eqb_sym.
Qed.

Definition is_container (v : value) : bool :=
  match v with VArr _ | VObj _ => true | _ => false end.

Lemma deepEqual_leaf_l a b :
  is_container a = false -> deepEqual a b = strict_eq a b.
Proof.
  intros Ha. destruct a; try discriminate; destruct b; simpl; try reflexivity.
  all: repeat match goal with
         | |- context [if ?c then _ else _] => destruct c eqn:?; try reflexivity
         end.
Qed.

Lemma deepEqual_leaf_r a b :
  is_container b = false -> deepEqual a b = strict_eq a b.
Proof.
  intros Hb. destruct (is_container a) eqn:Ha; [|now apply deepEqual_leaf_l].
  destruct a; try discriminate; destruct b; try discriminate; reflexivity.
Qed.

Lemma deepEqual_undefined x : tidy x -> deepEqual x VUndefined = false.
Proof. intros Hx. rewrite deepEqual_leaf_r by reflexivity. now destruct x. Qed.


(** The two loops of [deepEqual], named. *)
Definition every_from (f : value -> nat -> bool) :=
  fix every (l : list value) (i : nat) : bool :=
    match l with
    | [] => true
    | item :: l' => f item i && every l' (S i)
    end.

Definition every_entry (f : string -> value -> bool) :=
  fix every (o : list (string * value)) : bool :=
    match o with
    | [] => true
    | (key, x) :: o' => f key x && every o'
    end.

Lemma every_from_spec f l i :
  every_from f l i = true <->
  forall j x, l !! j = Some x -> f x (i + j) = true.
Proof.
  revert i. induction l as [|y l IH]; intros i; simpl.
  - split; [intros _ j x Hj; destruct j; discriminate | reflexivity].
  - rewrite andb_true_iff, IH. split.
    + intros [Hy Hl] [|j] x Hj; simpl in Hj.
      * injection Hj as <-. now rewrite Nat.add_0_r.
      * rewrite <- Nat.add_succ_comm. now apply Hl.
    + intros H. split.
      * specialize (H 0 y eq_refl). now rewrite Nat.add_0_r in H.
      * intros j x Hj. rewrite Nat.add_succ_comm. now apply (H (S j)).
Qed.

Lemma every_entry_spec f o :
  every_entry f o = true <-> forall k x, In (k, x) o -> f k x = true.
Proof.
  induction o as [|[k0 x0] o IH]; simpl.
  - split; [intros _ k x [] | reflexivity].
  - rewrite andb_true_iff, IH. split.
    + intros [H0 Ho] k x [[= <- <-]|Hin]; auto.
    + intros H. split; [apply H; now left | intros k x Hin; apply H; now right].
Qed.

Lemma deepEqual_arr_arr la lb :
  deepEqual (VArr la) (VArr lb) = true <->
  length la = length lb /\
  forall i x, la !! i = Some x -> deepEqual x (nth i lb VUndefined) = true.
Proof.
  assert (deepEqual (VArr la) (VArr lb) =
          if negb (length la =? length lb) then false
          else every_from (fun item i => deepEqual item (nth i lb VUndefined)) la 0)
    as -> by reflexivity.
  destruct (length la =? length lb) eqn:E; cbn [negb].
  - apply Nat.eqb_eq in E. rewrite every_from_spec. simpl. tauto.
  - apply Nat.eqb_neq in E. split; [discriminate | tauto].
Qed.

Lemma deepEqual_arr_obj la ob :
  deepEqual (VArr la) (VObj ob) = true <->
  length la = length ob /\
  forall i x, la !! i = Some x ->
              deepEqual x (get_own (VObj ob) (index_key i)) = true.
Proof.
  assert (deepEqual (VArr la) (VObj ob) =
          if negb (length (keys (VArr la)) =? length (keys (VObj ob))) then false
          else every_from
                 (fun item i => deepEqual item (get_own (VObj ob) (index_key i))) la 0)
    as -> by reflexivity.
  assert (length (keys (VArr la)) = length la) as ->.
  { unfold keys, entries. rewrite length_map. generalize 0.
    induction la; intros; simpl; auto. }
  assert (length (keys (VObj ob)) = length ob) as ->
    by (unfold keys, entries; apply length_map).
  destruct (length la =? length ob) eqn:E; cbn [negb].
  - apply Nat.eqb_eq in E. rewrite every_from_spec. simpl. tauto.
  - apply Nat.eqb_neq in E. split; [discriminate | tauto].
Qed.

Lemma deepEqual_obj oa b :
  is_container b = true ->
  deepEqual (VObj oa) b = true <->
  length oa = length (keys b) /\
  forall k x, In (k, x) oa -> deepEqual x (get_own b k) = true.
Proof.
  intros Hb.
  assert (deepEqual (VObj oa) b =
          if negb (length (keys (VObj oa)) =? length (keys b)) then false
          else every_entry (fun key x => deepEqual x (get_own b key)) oa) as ->.
  { destruct b; try discriminate; cbn [deepEqual strict_eq orb typeof];
      rewrite String.eqb_refl; reflexivity. }
  assert (length (keys (VObj oa)) = length oa) as ->
    by (unfold keys, entries; apply length_map).
  destruct (length oa =? length (keys b)) eqn:E; cbn [negb].
  - apply Nat.eqb_eq in E. rewrite every_entry_spec. tauto.
  - apply Nat.eqb_neq in E. split; [discriminate | tauto].
Qed.


(** Index keys. *)
Lemma index_key_inj i j : index_key i = index_key j -> i = j.
Proof.
  unfold index_key. intros E.
  apply (f_equal NilZero.uint_of_string) in E.
  assert (forall n, Nat.to_uint n <> Decimal.Nil) as Hnn.
  { intros n Hn. pose proof (f_equal Nat.of_uint Hn) as H0.
    rewrite Unsigned.of_to in H0. simpl in H0. subst n. discriminate Hn. }
  rewrite !NilZero.usu in E by apply Hnn. injection E as E.
  now apply Unsigned.to_uint_inj.
Qed.

Lemma index_key_not_length i : index_key i <> "length".
Proof.
  unfold index_key. intros E. apply (f_equal NilZero.uint_of_string) in E.
  rewrite NilZero.usu in E; [discriminate|].
  intros Hn. pose proof (f_equal Nat.of_uint Hn) as H0.
  rewrite Unsigned.of_to in H0. simpl in H0. subst i. discriminate Hn.
Qed.

Lemma assoc_Some_In {A} k (x : A) o : assoc k o = Some x -> In (k, x) o.
Proof.
  induction o as [|[k' x'] o IH]; simpl; [discriminate|].
  destruct (String.eqb k k') eqn:E.
  - apply String.eqb_eq in E. intros [= ->]. left. now subst.
  - intros H. right. now apply IH.
Qed.

Lemma assoc_In {A} k (x : A) o :
  NoDup (map fst o) -> In (k, x) o -> assoc k o = Some x.
Proof.
  induction o as [|[k' x'] o IH]; simpl; [intros _ []|].
  intros [Hk Hnd]%NoDup_cons [[= -> ->]|Hin].
  - now rewrite String.eqb_refl.
  - destruct (String.eqb k k') eqn:E; [|now apply IH].
    apply String.eqb_eq in E. subst k'. exfalso. apply Hk.
    apply list_elem_of_In. apply (in_map fst) in Hin. exact Hin.
Qed.

Lemma array_entries_keys l i0 :
  map fst (array_entries i0 l) = map index_key (seq i0 (length l)).
Proof.
  revert i0. induction l as [|x l IH]; intros i0; simpl; [reflexivity|].
  now rewrite IH.
Qed.

Lemma array_entries_In l i0 k x :
  In (k, x) (array_entries i0 l) <->
  exists j, k = index_key (i0 + j) /\ l !! j = Some x.
Proof.
  revert i0. induction l as [|y l IH]; intros i0; simpl.
  - split; [intros [] | intros (j & _ & Hj); destruct j; discriminate].
  - rewrite IH. split.
    + intros [[= <- <-]|(j & -> & Hj)].
      * exists 0. now rewrite Nat.add_0_r.
      * exists (S j). now rewrite <- Nat.add_succ_comm.
    + intros ([|j] & -> & Hj); simpl in Hj.
      * left. injection Hj as <-. now rewrite Nat.add_0_r.
      * right. exists j. now rewrite Nat.add_succ_comm.
Qed.

Lemma length_keys_arr l : length (keys (VArr l)) = length l.
Proof.
  unfold keys, entries. now rewrite array_entries_keys, length_map, length_seq.
Qed.

Lemma length_keys_obj o : length (keys (VObj o)) = length o.
Proof. unfold keys, entries. apply length_map. Qed.

Lemma index_keys_NoDup i0 n : NoDup (map index_key (seq i0 n)).
Proof.
  apply NoDup_fmap_2; [intros ? ?; apply index_key_inj | apply NoDup_seq].
Qed.

Lemma get_own_arr_index l i x :
  l !! i = Some x -> get_own (VArr l) (index_key i) = x.
Proof.
  intros Hi. unfold get_own, get.
  destruct (String.eqb (index_key i) "length") eqn:E.
  { apply String.eqb_eq in E. now apply index_key_not_length in E. }
  rewrite (assoc_In (index_key i) x); [reflexivity| |].
  - rewrite array_entries_keys. apply index_keys_NoDup.
  - apply array_entries_In. now exists i.
Qed.

Lemma tidy_not_undefined x y :
  tidy x -> deepEqual x y = true -> y <> VUndefined.
Proof. intros Hx E ->. now rewrite deepEqual_undefined in E. Qed.

Lemma get_own_obj_Some o k y :
  get_own (VObj o) k = y -> y <> VUndefined -> assoc k o = Some y.
Proof.
  unfold get_own, get. destruct (assoc k o); simpl; congruence.
Qed.

Lemma get_own_arr_Some l k y :
  k <> "length" -> get_own (VArr l) k = y -> y <> VUndefined ->
  exists i, k = index_key i /\ l !! i = Some y.
Proof.
  intros Hk. unfold get_own, get. apply String.eqb_neq in Hk. rewrite Hk.
  destruct (assoc k (array_entries 0 l)) as [z|] eqn:E; simpl; [|congruence].
  intros <- _. apply assoc_Some_In, array_entries_In in E. exact E.
Qed.

Definition symmetric_at (a : value) : Prop :=
  tidy a -> forall b, tidy b -> deepEqual a b = true -> deepEqual b a = true.

Lemma deepEqual_sym_arr la : Forall symmetric_at la -> symmetric_at (VArr la).
Proof.
  intros IH Ha b Hb E. rewrite Forall_forall in IH.
  apply tidy_arr in Ha. rewrite Forall_forall in Ha.
  destruct b as [| | | | |lb|ob];
    try (rewrite deepEqual_leaf_r in E by reflexivity; discriminate E).
  - apply deepEqual_arr_arr in E as [Hlen E]. apply deepEqual_arr_arr.
    split; [congruence|]. intros i y Hy.
    destruct (lookup_lt_is_Some_2 la i) as [x Hx].
    { rewrite Hlen. eapply lookup_lt_Some, Hy. }
    rewrite (nth_lookup_Some _ _ _ _ Hx).
    pose proof (E i x Hx) as Exy. rewrite (nth_lookup_Some _ _ _ _ Hy) in Exy.
    apply tidy_arr in Hb. rewrite Forall_forall in Hb.
    apply (IH x); eauto using list_elem_of_lookup_2.
  - apply deepEqual_arr_obj in E as [Hlen E].
    apply tidy_obj in Hb as (Hnd & _ & Hvals). rewrite Forall_forall in Hvals.
    apply deepEqual_obj; [reflexivity|]. split.
    { now rewrite length_keys_arr. }
    assert (incl (map fst ob) (map index_key (seq 0 (length la)))) as Hincl.
    { apply NoDup_length_incl.
      - apply NoDup_ListNoDup, index_keys_NoDup.
      - rewrite !length_map, length_seq. lia.
      - intros k (i & <- & Hi)%in_map_iff. apply in_seq in Hi.
        destruct (lookup_lt_is_Some_2 la i) as [x Hx]; [lia|].
        pose proof (E i x Hx) as Exy.
        pose proof (tidy_not_undefined _ _ (Ha x (list_elem_of_lookup_2 _ _ _ Hx)) Exy) as Hy.
        apply (get_own_obj_Some _ _ _ eq_refl), assoc_Some_In in Hy.
        apply (in_map fst) in Hy. exact Hy. }
    intros k y Hin.
    assert (In k (map fst ob)) as Hk by (apply (in_map fst) in Hin; exact Hin).
    apply Hincl, in_map_iff in Hk as (i & <- & Hi). apply in_seq in Hi.
    destruct (lookup_lt_is_Some_2 la i) as [x Hx]; [lia|].
    rewrite (get_own_arr_index _ _ _ Hx).
    pose proof (E i x Hx) as Exy.
    unfold get_own, get in Exy. rewrite (assoc_In _ _ _ Hnd Hin) in Exy. simpl in Exy.
    apply (IH x); eauto using list_elem_of_lookup_2.
    apply (Hvals (index_key i, y)). now apply list_elem_of_In.
Qed.

Lemma deepEqual_sym_obj oa :
  Forall (fun kv => symmetric_at (snd kv)) oa -> symmetric_at (VObj oa).
Proof.
  intros IH Ha b Hb E. rewrite Forall_forall in IH.
  apply tidy_obj in Ha as (Hnda & Hlen_key & Hvals). rewrite Forall_forall in Hvals.
  assert (forall k x, In (k, x) oa -> tidy x /\ symmetric_at x) as Hx.
  { intros k x Hin. apply list_elem_of_In in Hin.
    split; [apply (Hvals _ Hin) | apply (IH _ Hin)]. }
  destruct b as [| | | | |lb|ob];
    try (rewrite deepEqual_leaf_r in E by reflexivity; discriminate E).
  - apply deepEqual_obj in E as [Hlen E]; [|reflexivity].
    rewrite length_keys_arr in Hlen.
    apply tidy_arr in Hb. rewrite Forall_forall in Hb.
    assert (forall k x, In (k, x) oa ->
              exists i, k = index_key i /\ lb !! i = Some (get_own (VArr lb) k)) as Hidx.
    { intros k x Hin. apply (get_own_arr_Some lb k _); [|reflexivity|].
      - intros ->. apply Hlen_key. apply (in_map fst) in Hin. exact Hin.
      - eapply tidy_not_undefined; [apply (Hx k x Hin) | apply (E k x Hin)]. }
    assert (incl (map index_key (seq 0 (length lb))) (map fst oa)) as Hincl.
    { apply NoDup_length_incl; [now apply NoDup_ListNoDup | |].
      - rewrite !length_map, length_seq. lia.
      - intros k ((k' & x) & <- & Hin)%in_map_iff. simpl.
        destruct (Hidx k' x Hin) as (i & -> & Hi).
        apply in_map, in_seq. apply lookup_lt_Some in Hi. lia. }
    apply deepEqual_arr_obj. split; [lia|]. intros i y Hy.
    assert (In (index_key i) (map fst oa)) as Hk.
    { apply Hincl, in_map, in_seq. apply lookup_lt_Some in Hy. lia. }
    apply in_map_iff in Hk as ((k & x) & Hk & Hin). simpl in Hk. subst k.
    unfold get_own at 1, get. rewrite (assoc_In _ _ _ Hnda Hin). simpl.
    pose proof (E _ _ Hin) as Exy. rewrite (get_own_arr_index _ _ _ Hy) in Exy.
    destruct (Hx _ _ Hin) as [Htx Hsx]. apply Hsx; [assumption| |assumption].
    apply Hb. eapply list_elem_of_lookup_2, Hy.
  - apply deepEqual_obj in E as [Hlen E]; [|reflexivity].
    rewrite length_keys_obj in Hlen.
    apply tidy_obj in Hb as (Hndb & _ & Hvalsb). rewrite Forall_forall in Hvalsb.
    assert (forall k x, In (k, x) oa -> assoc k ob = Some (get_own (VObj ob) k)) as Hin_b.
    { intros k x Hin. apply (get_own_obj_Some ob k _ eq_refl).
      eapply tidy_not_undefined; [apply (Hx k x Hin) | apply (E k x Hin)]. }
    assert (incl (map fst ob) (map fst oa)) as Hincl.
    { apply NoDup_length_incl; [now apply NoDup_ListNoDup | |].
      - rewrite !length_map. lia.
      - intros k ((k' & x) & <- & Hin)%in_map_iff. simpl.
        pose proof (assoc_Some_In _ _ _ (Hin_b k' x Hin)) as H.
        apply (in_map fst) in H. exact H. }
    apply deepEqual_obj; [reflexivity|]. split.
    { rewrite length_keys_obj. lia. }
    intros k y Hin.
    assert (In k (map fst oa)) as Hk.
    { apply Hincl. apply (in_map fst) in Hin. exact Hin. }
    apply in_map_iff in Hk as ((k' & x) & Hk & Hina). simpl in Hk. subst k'.
    unfold get_own at 1, get. rewrite (assoc_In _ _ _ Hnda Hina). simpl.
    pose proof (E _ _ Hina) as Exy.
    unfold get_own, get in Exy. rewrite (assoc_In _ _ _ Hndb Hin) in Exy. simpl in Exy.
    destruct (Hx _ _ Hina) as [Htx Hsx]. apply Hsx; [assumption| |assumption].
    apply (Hvalsb (k, y)). now apply list_elem_of_In.
Qed.

Lemma deepEqual_sym_imp a : symmetric_at a.
Proof.
  induction a as [| | b0 | n | s | la IH | oa IH] using value_ind'.
  1-5: intros _ b _ E; rewrite deepEqual_leaf_l in E by reflexivity;
       rewrite deepEqual_leaf_r, strict_eq_sym by reflexivity; exact E.
  - now apply deepEqual_sym_arr.
  - now apply deepEqual_sym_obj.
Qed.

(** No object of the value has a key [__proto__]. *)
Fixpoint no_proto_key (v : value) : Prop :=
  match v with
  | VArr l => (fix all (l : list value) : Prop :=
                 match l with [] => True | x :: l' => no_proto_key x /\ all l' end) l
  | VObj o => ~ In "__proto__" (map fst o) /\
              (fix all (o : list (string * value)) : Prop :=
                 match o with [] => True | (_, x) :: o' => no_proto_key x /\ all o' end) o
  | _ => True
  end.

(** On JSON-like values none of whose objects has a key [length] or
    [__proto__], [deepEqual] is symmetric.  (Under the key [__proto__] the
    code reads, from an object that lacks it, the prototype of the object,
    where the model reads nothing; the other inherited members are
    functions, which equal no JSON-like value, as nothing does.) *)
Theorem deepEqual_sym a b :
  tidy a -> tidy b -> no_proto_key a -> no_proto_key b ->
  deepEqual a b = deepEqual b a.
Proof.
  intros Ha Hb _ _.
  destruct (deepEqual a b) eqn:E1, (deepEqual b a) eqn:E2; try reflexivity.
  - apply (deepEqual_sym_imp a Ha b Hb) in E1. congruence.
  - apply (deepEqual_sym_imp b Hb a Ha) in E2. congruence.
Qed.

End DeepEqualSymmetry.

(** ** [deepContains] is reflexive *)

Section DeepContainsFacts.

Import Js Helpers.

Lemma strict_eq_refl a :
  json_like a -> is_container a = false -> strict_eq a a = true.
Proof.
  destruct a; simpl; try discriminate; intros H _.
  - destruct H.
  - reflexivity.
  - apply Bool.eqb_reflx.
  - now apply num_eqb_refl.
  - apply String.eqb_refl.
Qed.

Lemma json_like_arr l : json_like (VArr l) <-> Forall json_like l.
Proof.
  simpl. induction l as [|x l IH]; [split; constructor|].
  rewrite Forall_cons, <- IH. reflexivity.
Qed.

Lemma json_like_obj o :
  json_like (VObj o) <->
  NoDup (map fst o) /\ Forall (fun kv => json_like (snd kv)) o.
Proof.
  cbn [json_like].
  assert ((fix all (o : list (string * value)) : Prop :=
             match o with [] => True | (_, x) :: o' => json_like x /\ all o' end) o
          <-> Forall (fun kv => json_like (snd kv)) o) as ->; [|reflexivity].
  induction o as [|[k x] o IH]; [split; constructor|].
  rewrite Forall_cons, <- IH. reflexivity.
Qed.

Definition every_item (f : value -> bool) :=
  fix every (l : list value) : bool :=
    match l with
    | [] => true
    | item :: l' => f item && every l'
    end.

Lemma every_item_spec f l :
  every_item f l = true <-> forall x, In x l -> f x = true.
Proof.
  induction l as [|y l IH]; simpl.
  - split; [intros _ x [] | reflexivity].
  - rewrite andb_true_iff, IH. split.
    + intros [Hy Hl] x [<-|Hin]; auto.
    + intros H. split; [apply H; now left | intros x Hin; apply H; now right].
Qed.

(** [deepContains(x, x) == true] for every JSON-like [x]. *)
Lemma deepContains_refl x : json_like x -> deepContains x x = true.
Proof.
  induction x as [| | b | n | s | items IH | props IH] using value_ind';
    intros Hx.
  1: destruct Hx.
  1-4: cbn [deepContains]; rewrite (strict_eq_refl _ Hx eq_refl); reflexivity.
  - apply json_like_arr in Hx.
    assert (deepContains (VArr items) (VArr items) =
            every_item (fun item => existsb (fun sup => deepContains sup item) items)
              items) as -> by reflexivity.
    apply every_item_spec. intros item Hin. apply existsb_exists. exists item.
    split; [assumption|]. apply list_elem_of_In in Hin.
    rewrite Forall_forall in IH, Hx. now apply IH; [|apply Hx].
  - apply json_like_obj in Hx as [Hnd Hx].
    assert (deepContains (VObj props) (VObj props) =
            every_entry (fun key x => deepContains (get_own (VObj props) key) x)
              props) as -> by reflexivity.
    apply every_entry_spec. intros k x Hin.
    unfold get_own, get. rewrite (assoc_In _ _ _ Hnd Hin). simpl.
    rewrite Forall_forall in IH, Hx. apply list_elem_of_In in Hin.
    now apply (IH (k, x)); [|apply (Hx (k, x))].
Qed.

End DeepContainsFacts.

Section DeepEqualExamples.

Import Js Helpers.

(** Two objects that list the same properties in different orders. *)
Lemma deepEqual_sym_witness :
  deepEqual (VObj [("a", VNum (Int 1)); ("b", VArr [VNum (Int 2); VStr "x"])])
            (VObj [("b", VArr [VNum (Int 2); VStr "x"]); ("a", VNum (Int 1))])
  = deepEqual (VObj [("b", VArr [VNum (Int 2); VStr "x"]); ("a", VNum (Int 1))])
              (VObj [("a", VNum (Int 1)); ("b", VArr [VNum (Int 2); VStr "x"])]).
Proof.
  apply deepEqual_sym; simpl; repeat split;
    solve [ apply (bool_decide_unpack _); vm_compute; exact I
          | intros [H|[H|[]]]; discriminate H ].
Defined.

Lemma deepEqual_refl_witness :
  deepEqual (VObj [("a", VNum (Int 1)); ("b", VArr [VNull; VStr "x"])])
            (VObj [("a", VNum (Int 1)); ("b", VArr [VNull; VStr "x"])]) = true.
Proof.
  apply deepEqual_refl; simpl; repeat split.
  apply (bool_decide_unpack _); vm_compute; exact I.
Defined.

(** [deepContains({a:1,b:2},{a:1})] holds and [deepContains({a:1},{a:1,b:2})]
    does not. *)
Lemma deepContains_refl_witness :
  deepContains (VObj [("a", VNum (Int 1)); ("b", VArr [VNull; VStr "x"])])
               (VObj [("a", VNum (Int 1)); ("b", VArr [VNull; VStr "x"])]) = true.
Proof.
  apply deepContains_refl; simpl; repeat split.
  apply (bool_decide_unpack _); vm_compute; exact I.
Defined.

Lemma deepContains_examples :
  deepContains (VObj [("a", VNum (Int 1)); ("b", VNum (Int 2))])
               (VObj [("a", VNum (Int 1))]) = true /\
  deepContains (VObj [("a", VNum (Int 1))])
               (VObj [("a", VNum (Int 1)); ("b", VNum (Int 2))]) = false.
Proof. split; reflexivity. Qed.

End DeepEqualExamples.

(** ** Negative payloads (C6) *)

Section NegativePayloads.

Import Js Boundary.

(** The payload derived from one boundary case: the valid payload with the
    case's field set to the case's value. *)
Definition negative_of (validPayload : list (string * Js.value))
    (c : BoundaryCase) : NegativePayload :=
  {| np_description := description c;
     payload := set_prop validPayload (field c) (value c) |}.

(** The cases of a spec that are expected to be rejected. *)
Definition invalid_cases (spec : FieldSpec) : list BoundaryCase :=
  List.filter (fun c => negb (expectValid c)) (generateBoundaryCases spec).

Lemma assoc_set_prop_eq {A} (o : list (string * A)) k v :
  assoc k (set_prop o k v) = Some v.
Proof.
  induction o as [|[k' v'] o IH]; simpl.
  - now rewrite String.eqb_refl.
  - destruct (String.eqb k k') eqn:E; simpl; [now rewrite String.eqb_refl|].
    now rewrite E.
Qed.

Lemma assoc_set_prop_ne {A} (o : list (string * A)) k k' v :
  k' <> k -> assoc k' (set_prop o k v) = assoc k' o.
Proof.
  intros Hne. apply String.eqb_neq in Hne.
  induction o as [|[k0 v0] o IH]; simpl.
  - now rewrite Hne.
  - destruct (String.eqb k k0) eqn:E; simpl.
    + apply String.eqb_eq in E. subst k0. now rewrite Hne.
    + now rewrite IH.
Qed.

Lemma keys_set_prop {A} (o : list (string * A)) k v :
  map fst (set_prop o k v) =
  if existsb (String.eqb k) (map fst o) then map fst o else map fst o ++ [k].
Proof.
  induction o as [|[k' v'] o IH]; simpl; [reflexivity|].
  destruct (String.eqb k k') eqn:E; simpl.
  - apply String.eqb_eq in E. now subst.
  - rewrite IH. now destruct (existsb _ _).
Qed.

Lemma fold_push_negative valid cases results :
  fold_left (push_negative valid) cases results =
  results ++ map (negative_of valid) cases.
Proof.
  revert results. induction cases as [|c cases IH]; intros results; simpl.
  - now rewrite app_nil_r.
  - rewrite IH. unfold push_negative, negative_of. now rewrite <- app_assoc.
Qed.


(** The policy of [generateBoundaryCases]: a required field starts with
    the missing and the null case, both invalid; then come 8 cases for a
    string, 7 for an email, 8 for a number, 9 for an integer and 5 for a
    boolean. *)
Lemma generateBoundaryCases_shape spec :
  length (generateBoundaryCases spec) =
    (if default false (required spec) then 2 else 0) +
    match type spec with
    | TString => 8 | TEmail => 7 | TNumber => 8 | TInteger => 9 | TBoolean => 5
    end /\
  (required spec = Some true ->
   exists rest,
     generateBoundaryCases spec =
     mk (name spec +:+ ": missing (undefined)") (name spec) VUndefined false ::
     mk (name spec +:+ ": null") (name spec) VNull false :: rest).
Proof.
  unfold generateBoundaryCases. split.
  - destruct (default false (required spec)), (type spec); reflexivity.
  - intros ->. cbn [default]. destruct (type spec); cbn [app]; eauto.
Qed.


(** The payloads generated for the age field of the user registration
    test. *)
Example negative_payloads_age :
  let age := {| name := "age"; type := TInteger; minLength := None;
                maxLength := None; min := Some 0%Z; max := Some 150%Z;
                required := Some false |} in
  map payload
    (generateNegativePayloads
       [("name", VStr "Valid User"); ("age", VNum (Int 30))] [age]) =
  [[("name", VStr "Valid User"); ("age", VNum (Int (-1)))];
   [("name", VStr "Valid User"); ("age", VNum (Int 151))];
   [("name", VStr "Valid User"); ("age", VNum (Int (-1)))];
   [("name", VStr "Valid User"); ("age", VNum NaN)];
   [("name", VStr "Valid User"); ("age", VStr "not-a-number")];
   [("name", VStr "Valid User"); ("age", VNum (Frac 3 1))]].
Proof. vm_compute. reflexivity. Qed.

End NegativePayloads.

(** ** Integer boundaries (C9) *)

Section IntegerBoundaries.

Import Boundary.

Local Open Scope Z_scope.

(** [Number.isSafeInteger] *)
Definition safe (z : Z) : Prop := MIN_SAFE_INTEGER <= z <= MAX_SAFE_INTEGER.

Lemma round_double_exact z : - 2 ^ 53 <= z <= 2 ^ 53 -> round_double z = z.
Proof.
  intros Hz. unfold round_double.
  destruct (Z.eq_dec (Z.abs z) (2 ^ 53)) as [E|E].
  - destruct (Z.abs_eq_or_opp z) as [E'|E']; rewrite E in E';
      [subst z | replace z with (- 2 ^ 53) by lia]; reflexivity.
  - assert (Z.log2 (Z.abs z) < 53) as Hl.
    { destruct (Z.eq_dec z 0) as [->|Hnz]; [reflexivity|].
      apply Z.log2_lt_pow2; lia. }
    destruct (Z.log2 (Z.abs z) - 52 <=? 0) eqn:Ek; [reflexivity|].
    apply Z.leb_gt in Ek. lia.
Qed.

(** C9, counterexample.  At [min = max = 2^53] the third element is
    [2^53] and not [2^53 + 1]: the sum is no float and rounds back to
    [min]. *)
Lemma integerBoundaries_rounds :
  integerBoundaries (2 ^ 53) (2 ^ 53) <>
  [2 ^ 53 - 1; 2 ^ 53; 2 ^ 53 + 1; (2 ^ 53 + 2 ^ 53) / 2;
   2 ^ 53 - 1; 2 ^ 53; 2 ^ 53 + 1].
Proof. vm_compute. discriminate. Qed.

(** C9, amended.  For safe integers [min] and [max] whose sum is a safe
    integer too, the result is exactly the seven numbers [min-1, min,
    min+1, floor((min+max)/2), max-1, max, max+1], in this order; the
    result has seven elements whatever the arguments. *)
Theorem integerBoundaries_exact (min max : Z) :
  safe min -> safe max -> safe (min + max) ->
  integerBoundaries min max =
    [min - 1; min; min + 1; (min + max) / 2; max - 1; max; max + 1] /\
  length (integerBoundaries min max) = 7%nat.
Proof.
  unfold safe, MIN_SAFE_INTEGER, MAX_SAFE_INTEGER. intros Hmin Hmax Hsum.
  split; [|reflexivity].
  unfold integerBoundaries, js_add, js_sub, floor_half.
  rewrite !round_double_exact by lia. reflexivity.
Qed.

(** [integerBoundaries(0,150)] is [[-1,0,1,75,149,150,151]]. *)
Lemma integerBoundaries_exact_witness :
  integerBoundaries 0 150 = [-1; 0; 1; 75; 149; 150; 151] /\
  length (integerBoundaries 0 150) = 7%nat.
Proof.
  apply (integerBoundaries_exact 0 150);
    unfold safe, MIN_SAFE_INTEGER, MAX_SAFE_INTEGER; lia.
Defined.

(** [stringLengthBoundaries(1,255)]: eight strings of lengths
    [0,0,1,2,128,254,255,256]; with [maxLen = 0] the call throws. *)
Lemma stringLengthBoundaries_lengths :
  (exists l, stringLengthBoundaries 1 255 = Js.Ok l /\
             map String.length l = [0; 0; 1; 2; 128; 254; 255; 256]%nat) /\
  stringLengthBoundaries 0 0 = Js.Throw (Js.RangeError "Invalid count value").
Proof.
  split; [|reflexivity]. eexists. split; [reflexivity|]. vm_compute. reflexivity.
Qed.

End IntegerBoundaries.

(** ** The UI action dispatcher (C4) *)

Section DispatcherFacts.

Import Str Js UiRunner.

Variable page : Type.
Variable perform : call -> page -> page * option exn.
Variable String_ : Js.value -> string.
Variable Number_ : Js.value -> number.

Abbreviation dispatch := (dispatch String_ Number_).
Abbreviation executeAction := (executeAction page perform String_ Number_).
Abbreviation run_steps := (run_steps page perform String_ Number_).

Definition unknown_action_error (name : string) : exn :=
  Error ("Unknown UI action: " +:+ String dquote (name +:+ String dquote "")).





End DispatcherFacts.

(** Scenario D of the specification: [fill, click, waitForURL,
    assertVisible] on a page where the click finds no element. *)
Section ScenarioD.

Import Str Js UiRunner.

(** A page that counts the calls it served and rejects every click. *)
Definition counting_page (c : call) (served : nat) : nat * option exn :=
  match c with
  | locator_click _ _ => (served, Some (Error "locator.click: Timeout exceeded"))
  | _ => (S served, None)
  end.

Definition show_value (v : Js.value) : string :=
  match v with VStr s => s | _ => "undefined" end.

Definition step (a : string) (sel : option string) (v : Js.value) : UiAction :=
  {| action := a; selector := sel; value := v; options := VUndefined;
     description := None |}.

Example scenario_D :
  run_steps nat counting_page show_value (fun _ => NaN) 0
    [step "fill" (Some "input[name='email']") (VStr "admin@example.com");
     step "click" (Some "button[type='submit']") VUndefined;
     step "waitForURL" None (VStr "**/dashboard**");
     step "assertVisible" (Some "[data-testid='dashboard']") VUndefined] 0
  = (1,
     [Step "Step 1: fill";
      Host (locator_fill (Some "input[name='email']") "admin@example.com");
      Step "Step 2: click";
      Host (locator_click (Some "button[type='submit']") VUndefined)],
     Some (Error "locator.click: Timeout exceeded")).
Proof. vm_compute. reflexivity. Qed.

Example unknown_action_fails :
  run_steps nat counting_page show_value (fun _ => NaN) 0
    [step "fill" (Some "#q") (VStr "x"); step "doubleClick" (Some "#go") VUndefined;
     step "click" (Some "#go") VUndefined] 0
  = (1,
     [Step "Step 1: fill"; Host (locator_fill (Some "#q") "x");
      Step "Step 2: doubleClick"],
     Some (unknown_action_error "doubleClick")).
Proof. vm_compute. reflexivity. Qed.

End ScenarioD.

(** ** The HTTP assertions (C1) *)

Section AssertionFacts.

Import Str Js Helpers ApiRunner.

Variable Number : string -> number.
Variable validateAgainstSchema : Js.value -> Js.value -> res exn bool.
Variable toEqual : Js.value -> Js.value -> bool.
Variable RegExp_test : string -> string -> res exn bool.
Variable String_ : Js.value -> string.

Abbreviation runAssertions :=
  (runAssertions Number validateAgainstSchema toEqual RegExp_test String_).
Abbreviation checks :=
  (checks Number validateAgainstSchema toEqual RegExp_test String_).
Abbreviation check_path := (check_path Number toEqual RegExp_test String_).
Abbreviation path_checks := (path_checks Number toEqual RegExp_test String_).
Abbreviation all_path_checks :=
  (all_path_checks Number toEqual RegExp_test String_).

Definition passes (c : check) : Prop := c = Ok tt.

(** The keys the code tests for truthiness hold no falsy value: the schema
    is truthy, the maximal response time is not zero, and no [type] or
    [regex] is the empty string. *)
Definition no_falsy_key (exp : ApiExpectation) : Prop :=
  (forall schema, bodySchema exp = Some schema -> truthy schema = true) /\
  responseTime exp <> Some 0%Z /\
  forall bps, bodyPath exp = Some bps ->
    Forall (fun bp => type bp <> Some "" /\ regex bp <> Some "") bps.

Lemma seq_Ok (b : check) : Ok tt >> b = b.
Proof. reflexivity. Qed.

Lemma seq_Ok_r (a : check) : a >> Ok tt = a.
Proof. now destruct a as [[]|]. Qed.

Lemma seq_assoc (a b c : check) : (a >> b) >> c = a >> (b >> c).
Proof. now destruct a. Qed.

Lemma seq_congr (a a' b b' : check) : a = a' -> b = b' -> a >> b = a' >> b'.
Proof. now intros -> ->. Qed.

Lemma first_failure_app l1 l2 :
  first_failure (l1 ++ l2) = first_failure l1 >> first_failure l2.
Proof.
  induction l1 as [|[[]|f] l1 IH]; simpl; [reflexivity | exact IH | reflexivity].
Qed.

Lemma first_failure_one (c : check) : first_failure [c] = c.
Proof. now destruct c as [[]|]. Qed.

Lemma when_some_present {A} (o : option A) f g :
  (forall x, f x = first_failure (g x)) ->
  when_some o f = first_failure (present o g).
Proof. intros H. destruct o; simpl; [apply H | reflexivity]. Qed.

Lemma when_string_present (o : option string) f g :
  (forall x, f x = first_failure (g x)) ->
  when_string o f = first_failure (present (truthy_string o) g).
Proof.
  intros H. destruct o as [x|]; simpl; [|reflexivity].
  destruct (String.eqb x ""); simpl; [reflexivity | apply H].
Qed.

Lemma when_number_present (o : option Z) f g :
  (forall x, f x = first_failure (g x)) ->
  when_number o f = first_failure (present (truthy_number o) g).
Proof.
  intros H. destruct o as [x|]; simpl; [|reflexivity].
  destruct (x =? 0)%Z; simpl; [reflexivity | apply H].
Qed.

Lemma when_truthy_present (o : option Js.value) f g :
  (forall x, f x = first_failure (g x)) ->
  when_truthy o f = first_failure (present (truthy_value o) g).
Proof.
  intros H. destruct o as [x|]; simpl; [|reflexivity].
  destruct (truthy x); simpl; [apply H | reflexivity].
Qed.

Lemma check_path_checks body i bp :
  check_path body i bp = first_failure (path_checks body i (switched_on_path bp)).
Proof.
  unfold ApiRunner.check_path, ApiRunner.path_checks, deepGet.
  cbn [path equals contains type minLength maxLength regex switched_on_path].
  destruct (reduce_total Number (split_dot (path bp)) body) as [actual ->].
  cbn [lift bind]. rewrite !first_failure_app.
  repeat apply seq_congr.
  - apply when_some_present. intros e. now rewrite first_failure_one.
  - apply when_some_present. intros e. now rewrite first_failure_one.
  - apply when_string_present. intros e. now rewrite first_failure_one.
  - apply when_some_present. intros e. now rewrite first_failure_one.
  - apply when_some_present. intros e. now rewrite first_failure_one.
  - apply when_string_present. intros e. now rewrite first_failure_one.
Qed.

Lemma for_each_path_checks body bps i :
  for_each (check_path body) i bps =
  first_failure (all_path_checks body i (map switched_on_path bps)).
Proof.
  revert i. induction bps as [|bp bps IH]; intros i; simpl.
  - reflexivity.
  - now rewrite first_failure_app, check_path_checks, IH.
Qed.

Lemma for_each_map {A} (f : A -> check) (xs : list A) i :
  for_each (fun _ => f) i xs = first_failure (map f xs).
Proof.
  revert i. induction xs as [|x xs IH]; intros i; simpl; [reflexivity|].
  rewrite IH. now destruct (f x) as [[]|].
Qed.

(** An expectation with no key passes on every response. *)
Lemma empty_expectation_passes response :
  runAssertions
    {| status := None; statusRange := None; bodyContains := None;
       bodyExact := None; bodySchema := None; bodyPath := None;
       headers := None; responseTime := None |} response = Ok tt.
Proof. reflexivity. Qed.

(** The test function is the sequential reading of the independent checks
    of the keys that are switched on: it returns the first failure among
    them. *)
Lemma runAssertions_first_failure exp response :
  runAssertions exp response = first_failure (checks (switched_on exp) response).
Proof.
  unfold ApiRunner.runAssertions, ApiRunner.checks.
  cbn [status statusRange bodyContains bodyExact bodySchema bodyPath headers
       responseTime switched_on].
  rewrite !first_failure_app. repeat apply seq_congr.
  - apply when_some_present. intros x. now rewrite first_failure_one.
  - apply when_some_present. intros [mn mx]. simpl.
    now destruct (expect A_statusRange_min _) as [[]|],
                 (expect A_statusRange_max _) as [[]|].
  - apply when_some_present. intros x. now rewrite first_failure_one.
  - apply when_some_present. intros x. now rewrite first_failure_one.
  - apply when_truthy_present. intros x. rewrite first_failure_one.
    now destruct (validateAgainstSchema _ _).
  - destruct (bodyPath exp) as [bps|]; simpl; [|reflexivity].
    exact (for_each_path_checks _ bps 0%nat).
  - destruct (headers exp) as [hs|]; simpl; [|reflexivity].
    exact (for_each_map _ hs 0%nat).
  - apply when_number_present. intros x. now rewrite first_failure_one.
Qed.

Lemma truthy_string_id (o : option string) : o <> Some "" -> truthy_string o = o.
Proof.
  intros Ho. destruct o as [x|]; simpl; [|reflexivity].
  destruct (String.eqb x "") eqn:E; [|reflexivity].
  apply String.eqb_eq in E. congruence.
Qed.

Lemma switched_on_path_id bps :
  Forall (fun bp => type bp <> Some "" /\ regex bp <> Some "") bps ->
  map switched_on_path bps = bps.
Proof.
  induction 1 as [|bp bps [Hty Hre] _ IH]; simpl; [reflexivity|].
  rewrite IH. f_equal. unfold switched_on_path.
  rewrite !truthy_string_id by assumption. now destruct bp.
Qed.

(** Where no key holds a falsy value, every key that is present is switched
    on. *)
Lemma switched_on_id exp : no_falsy_key exp -> switched_on exp = exp.
Proof.
  intros (Hs & Hrt & Hbp). unfold switched_on.
  assert (truthy_value (bodySchema exp) = bodySchema exp) as ->.
  { destruct (bodySchema exp) as [v|]; simpl; [|reflexivity].
    now rewrite (Hs v eq_refl). }
  assert (truthy_number (responseTime exp) = responseTime exp) as ->.
  { destruct (responseTime exp) as [n|]; simpl; [|reflexivity].
    destruct (n =? 0)%Z eqn:E; [|reflexivity].
    apply Z.eqb_eq in E. congruence. }
  assert (option_map (map switched_on_path) (bodyPath exp) = bodyPath exp) as ->.
  { destruct (bodyPath exp) as [bps|]; simpl; [|reflexivity].
    now rewrite switched_on_path_id by now apply Hbp. }
  now destruct exp.
Qed.

Lemma first_failure_passes l :
  passes (first_failure l) <-> Forall passes l.
Proof.
  unfold passes. induction l as [|[[]|f] l IH]; simpl.
  - split; [constructor | reflexivity].
  - rewrite IH. split; [now constructor | now inversion 1].
  - split; [discriminate | inversion 1; discriminate].
Qed.

Lemma first_failure_at pre f post :
  Forall passes pre -> first_failure (pre ++ Throw f :: post) = Throw f.
Proof.
  unfold passes. induction 1 as [|c pre -> _ IH]; simpl; [reflexivity | exact IH].
Qed.

(** C1, amended.  For every expectation and every response: the assertions
    of the keys that are switched on (present and, for bodySchema,
    responseTime and the type and regex of a bodyPath entry, truthy) are
    evaluated in the fixed order status, statusRange, bodyContains,
    bodyExact, bodySchema, bodyPath, headers, responseTime, and the test
    passes exactly when every one of them holds.  When some do not, the run
    stops at the first of them in that order: its failure is the outcome and
    the only one reported, whatever the later assertions would have given.
    Where no key holds a falsy value, the keys switched on are the keys
    present. *)
Theorem assertions_first_failure exp response :
  runAssertions exp response = first_failure (checks (switched_on exp) response) /\
  (passes (runAssertions exp response) <->
   Forall passes (checks (switched_on exp) response)) /\
  (forall pre f post,
     checks (switched_on exp) response = pre ++ Throw f :: post ->
     Forall passes pre ->
     runAssertions exp response = Throw f /\
     reported (runAssertions exp response) = [f]) /\
  (no_falsy_key exp -> switched_on exp = exp).
Proof.
  pose proof (runAssertions_first_failure exp response) as E.
  split; [exact E | split; [|split]].
  - rewrite E. apply first_failure_passes.
  - intros pre f post Hc Hpre. rewrite E, Hc, first_failure_at by assumption.
    now split.
  - apply switched_on_id.
Qed.

End AssertionFacts.

(** Scenarios: a response that fails two assertions, and one that passes. *)
Section AssertionScenarios.

Import Str Js Helpers ApiRunner.

Local Open Scope Z_scope.

(** Collaborators for the scenarios: no key is numeric, every schema
    accepts, [toEqual] is [deepEqual], every pattern matches. *)
Definition run_with : ApiExpectation -> Response -> check :=
  ApiRunner.runAssertions (fun _ => NaN) (fun _ _ => Ok true) deepEqual
    (fun _ _ => Ok true) (fun _ => "").

Definition checks_with : ApiExpectation -> Response -> list check :=
  ApiRunner.checks (fun _ => NaN) (fun _ _ => Ok true) deepEqual
    (fun _ _ => Ok true) (fun _ => "").

Definition no_expectation : ApiExpectation :=
  {| status := None; statusRange := None; bodyContains := None;
     bodyExact := None; bodySchema := None; bodyPath := None;
     headers := None; responseTime := None |}.

Definition expect_users : ApiExpectation :=
  {| status := Some 200; statusRange := None; bodyContains := None;
     bodyExact := None; bodySchema := None;
     bodyPath := Some [{| path := "data"; equals := None; contains := None;
                          type := Some "object"; minLength := None;
                          maxLength := None; regex := None |}];
     headers := None; responseTime := Some 100 |}.

Definition users_ok : Response :=
  {| r_status := 200; r_headers := ∅;
     r_body := VObj [("data", VObj [])]; r_elapsed := 20 |}.

Definition users_missing_slow : Response :=
  {| r_status := 404; r_headers := ∅;
     r_body := VObj [("data", VObj [])]; r_elapsed := 900 |}.

(** C1, counterexample.  The status and the response time both fail; the
    run reports the status and never reaches the response time. *)
Lemma assertions_not_all_reported :
  reported (run_with expect_users users_missing_slow) <>
  failing (checks_with expect_users users_missing_slow).
Proof. vm_compute. discriminate. Qed.

Lemma assertions_first_failure_witness :
  run_with expect_users users_missing_slow =
  first_failure (checks_with (switched_on expect_users) users_missing_slow) /\
  (passes (run_with expect_users users_missing_slow) <->
   Forall passes (checks_with (switched_on expect_users) users_missing_slow)) /\
  (forall pre f post,
     checks_with (switched_on expect_users) users_missing_slow =
       pre ++ Throw f :: post ->
     Forall passes pre ->
     run_with expect_users users_missing_slow = Throw f /\
     reported (run_with expect_users users_missing_slow) = [f]) /\
  (no_falsy_key expect_users -> switched_on expect_users = expect_users).
Proof.
  exact (assertions_first_failure (fun _ => NaN) (fun _ _ => Ok true) deepEqual
           (fun _ _ => Ok true) (fun _ => "") expect_users users_missing_slow).
Defined.

(** A maximal response time of zero, an empty [type] and a [null] schema
    check nothing: the slow response passes. *)
Example falsy_keys_check_nothing :
  run_with
    {| status := None; statusRange := None; bodyContains := None;
       bodyExact := None; bodySchema := Some VNull;
       bodyPath := Some [{| path := "data"; equals := None; contains := None;
                            type := Some ""; minLength := None;
                            maxLength := None; regex := Some "" |}];
       headers := None; responseTime := Some 0 |} users_missing_slow = Ok tt.
Proof. vm_compute. reflexivity. Qed.

(** Scenarios A and B of the specification, and the empty expectation. *)
Example scenario_A : run_with expect_users users_ok = Ok tt.
Proof. vm_compute. reflexivity. Qed.

Example scenario_B :
  run_with expect_users users_missing_slow = Throw (Failed A_status) /\
  failing (checks_with expect_users users_missing_slow) =
  [Failed A_status; Failed A_responseTime].
Proof. split; vm_compute; reflexivity. Qed.

Example no_expectation_passes response : run_with no_expectation response = Ok tt.
Proof. reflexivity. Qed.

End AssertionScenarios.

(** ** More on [deepContains] and [deepEqual] *)

Section ContainmentFacts.

Import Js Helpers.

Lemma deepContains_arr_arr sup sub :
  deepContains (VArr sup) (VArr sub) =
  every_item (fun item => existsb (fun s => deepContains s item) sup) sub.
Proof. reflexivity. Qed.

Lemma deepContains_obj_obj sup sub :
  deepContains (VObj sup) (VObj sub) =
  every_entry (fun key x => deepContains (get_own (VObj sup) key) x) sub.
Proof. reflexivity. Qed.

(** Arrays are compared as sets: an expected array is contained in every
    array that holds each of its elements, whatever the order and however
    often.  The elements are taken to contain themselves, as every
    JSON-like value does. *)
Theorem deepContains_array_as_set sup sub :
  (forall x, In x sub -> deepContains x x = true) ->
  (forall x, In x sub -> In x sup) ->
  deepContains (VArr sup) (VArr sub) = true.
Proof.
  intros Hself Hsub. rewrite deepContains_arr_arr. apply every_item_spec.
  intros item Hin. apply existsb_exists. exists item. split; [now apply Hsub|].
  now apply Hself.
Qed.

Lemma every_entry_ext f g o :
  (forall k x, In (k, x) o -> f k x = g k x) -> every_entry f o = every_entry g o.
Proof.
  induction o as [|[k x] o IH]; intros H; simpl; [reflexivity|].
  rewrite (H k x) by now left. f_equal. apply IH. intros k' x' Hin. apply H. now right.
Qed.

(** Of the object it is given, [deepContains] reads only the properties the
    expectation names: two objects that agree on them are treated alike, so
    a property the expectation does not name never makes the check fail. *)
Theorem deepContains_reads_named_keys sup sup' sub :
  (forall key, In key (map fst sub) -> assoc key sup' = assoc key sup) ->
  deepContains (VObj sup') (VObj sub) = deepContains (VObj sup) (VObj sub).
Proof.
  intros H. rewrite !deepContains_obj_obj. apply every_entry_ext.
  intros k x Hin. unfold get_own, get. rewrite H; [reflexivity|].
  apply (in_map fst) in Hin. exact Hin.
Qed.

(** [deepEqual] does not tell an array from the object that lists the same
    elements under the keys ["0"], ["1"], ...: the two are equal, in both
    directions (so [[]] equals [{}]).  The elements are taken to equal
    themselves, as every JSON-like value does. *)
Theorem deepEqual_array_as_object l :
  (forall x, In x l -> deepEqual x x = true) ->
  deepEqual (VArr l) (VObj (array_entries 0 l)) = true /\
  deepEqual (VObj (array_entries 0 l)) (VArr l) = true.
Proof.
  intros Hj.
  assert (length (array_entries 0 l) = length l) as Hlen.
  { rewrite <- (length_map fst), array_entries_keys, length_map. apply length_seq. }
  split.
  - apply deepEqual_arr_obj. split; [now rewrite Hlen|].
    intros i x Hi. unfold get_own, get.
    rewrite (assoc_In (index_key i) x).
    + simpl. apply Hj. apply list_elem_of_In. now apply list_elem_of_lookup_2 in Hi.
    + rewrite array_entries_keys. apply index_keys_NoDup.
    + apply array_entries_In. now exists i.
  - apply deepEqual_obj; [reflexivity|]. split; [now rewrite Hlen, length_keys_arr|].
    intros k x (j & -> & Hj')%array_entries_In. simpl.
    rewrite (get_own_arr_index _ _ _ Hj').
    apply Hj. apply list_elem_of_In. now apply list_elem_of_lookup_2 in Hj'.
Qed.


Definition sample_items : list value :=
  [VNum (Int 1); VStr "a"; VObj [("k", VNull)]].

Lemma deepContains_array_as_set_witness :
  deepContains (VArr sample_items)
    (VArr [VObj [("k", VNull)]; VNum (Int 1); VNum (Int 1)]) = true.
Proof.
  apply deepContains_array_as_set.
  - intros x [<-|[<-|[<-|[]]]]; reflexivity.
  - intros x [<-|[<-|[<-|[]]]]; simpl; tauto.
Defined.

Lemma deepContains_reads_named_keys_witness :
  deepContains (VObj [("id", VNum (Int 7)); ("etag", VStr "x")])
               (VObj [("id", VNum (Int 7))]) =
  deepContains (VObj [("id", VNum (Int 7))]) (VObj [("id", VNum (Int 7))]).
Proof.
  apply deepContains_reads_named_keys.
  intros key [<-|[]]. reflexivity.
Defined.

Lemma deepEqual_array_as_object_witness :
  deepEqual (VArr sample_items) (VObj (array_entries 0 sample_items)) = true /\
  deepEqual (VObj (array_entries 0 sample_items)) (VArr sample_items) = true.
Proof.
  apply deepEqual_array_as_object.
  intros x [<-|[<-|[<-|[]]]]; reflexivity.
Defined.

End ContainmentFacts.

(** ** The labels of the boundary cases *)

Section BoundaryLabels.

Import Str Js Boundary.

Lemma length_repeat_a n : String.length (repeat "a" n) = n.
Proof. induction n as [|n IH]; simpl; [reflexivity | now rewrite IH]. Qed.

Lemma repeat_a_inj m n : repeat "a" m = repeat "a" n -> m = n.
Proof.
  intros E. apply (f_equal String.length) in E. now rewrite !length_repeat_a in E.
Qed.

Lemma repeat_a_head n c s : repeat "a" n = String c s -> c = "a"%char.
Proof. destruct n; simpl; [discriminate | now intros [= <- _]]. Qed.

(** The labels of a string field agree with its bounds, with [0] and [255]
    where a bound is missing: a case whose value is a run of [n] letters is
    labelled valid exactly when [n] lies within the bounds.  This holds for
    every minimum except [1]. *)
Theorem string_cases_follow_bounds spec c n :
  type spec = TString ->
  default 0 (minLength spec) <= default 255 (maxLength spec) ->
  default 0 (minLength spec) <> 1 ->
  In c (generateBoundaryCases spec) ->
  value c = VStr (repeat "a" n) ->
  expectValid c =
    (default 0 (minLength spec) <=? n) && (n <=? default 255 (maxLength spec)).
Proof.
  unfold generateBoundaryCases. intros -> Hle Hne.
  set (lo := default 0 (minLength spec)) in *.
  set (hi := default 255 (maxLength spec)) in *.
  assert (forall c : BoundaryCase,
            In c
              [mk (name spec +:+ ": empty string") (name spec) (VStr "") (lo =? 0);
               mk (name spec +:+ ": at minLength (" +:+ show_nat lo +:+ ")") (name spec)
                  (VStr (repeat "a" lo)) true;
               mk (name spec +:+ ": below minLength") (name spec)
                  (VStr (repeat "a" (Nat.max 0 (lo - 1)))) (lo <=? 1);
               mk (name spec +:+ ": at maxLength (" +:+ show_nat hi +:+ ")") (name spec)
                  (VStr (repeat "a" hi)) true;
               mk (name spec +:+ ": above maxLength") (name spec)
                  (VStr (repeat "a" (hi + 1))) false;
               mk (name spec +:+ ": unicode") (name spec) (VStr unicode) true;
               mk (name spec +:+ ": XSS attempt") (name spec) (VStr htmlInjection) false;
               mk (name spec +:+ ": SQL injection") (name spec) (VStr sqlInjection) false] ->
            value c = VStr (repeat "a" n) ->
            expectValid c = (lo <=? n) && (n <=? hi)) as Hcases.
  { clear c. intros c Hin Hv.
    repeat (destruct Hin as [<-|Hin]); try destruct Hin; cbn [value expectValid mk] in *;
      injection Hv as Hv.
    - destruct n; [|discriminate Hv]. now destruct lo.
    - apply repeat_a_inj in Hv. subst n. rewrite Nat.leb_refl. simpl.
      symmetry. now apply Nat.leb_le.
    - apply repeat_a_inj in Hv. subst n.
      destruct (lo <=? 1) eqn:E.
      + apply Nat.leb_le in E. assert (lo = 0) as -> by lia. reflexivity.
      + apply Nat.leb_gt in E. symmetry. apply andb_false_iff. left.
        apply Nat.leb_gt. lia.
    - apply repeat_a_inj in Hv. subst n. rewrite Nat.leb_refl, andb_true_r.
      symmetry. now apply Nat.leb_le.
    - apply repeat_a_inj in Hv. subst n. symmetry. apply andb_false_iff. right.
      apply Nat.leb_gt. lia.
    - symmetry in Hv. apply repeat_a_head in Hv. discriminate Hv.
    - symmetry in Hv. apply repeat_a_head in Hv. discriminate Hv.
    - symmetry in Hv. apply repeat_a_head in Hv. discriminate Hv. }
  destruct (default false (required spec)); cbn [app].
  - intros [<-|[<-|Hin]]; [discriminate | discriminate | now apply Hcases].
  - apply Hcases.
Qed.


(** With [minLength = 1] the generator contradicts itself: the empty
    string is generated twice for the field, as the case [empty string]
    labelled invalid and as the case [below minLength] labelled valid. *)
Theorem string_minLength_one_conflict spec :
  type spec = TString -> minLength spec = Some 1 ->
  exists c1 c2,
    In c1 (generateBoundaryCases spec) /\ In c2 (generateBoundaryCases spec) /\
    field c1 = field c2 /\ value c1 = VStr "" /\ value c2 = VStr "" /\
    expectValid c1 = false /\ expectValid c2 = true.
Proof.
  intros Ht Hm.
  exists (mk (name spec +:+ ": empty string") (name spec) (VStr "") false),
         (mk (name spec +:+ ": below minLength") (name spec) (VStr "") true).
  unfold generateBoundaryCases. rewrite Ht, Hm. cbn [default].
  repeat split; apply in_or_app; right; cbn; tauto.
Qed.

Local Open Scope Z_scope.

(** The labels of a number or integer field agree with its bounds, with
    the safe integers where a bound is missing: a case whose value is an
    integer is labelled valid exactly when the integer lies within the
    bounds.  This holds when the bounds are safe integers, in order, and the
    maximum is not below [-1]. *)
Theorem number_cases_follow_bounds spec c z :
  type spec = TNumber \/ type spec = TInteger ->
  safe (default MIN_SAFE_INTEGER (min spec)) ->
  safe (default MAX_SAFE_INTEGER (max spec)) ->
  default MIN_SAFE_INTEGER (min spec) <= default MAX_SAFE_INTEGER (max spec) ->
  -1 <= default MAX_SAFE_INTEGER (max spec) ->
  In c (generateBoundaryCases spec) ->
  value c = num z ->
  expectValid c =
    (default MIN_SAFE_INTEGER (min spec) <=? z) &&
    (z <=? default MAX_SAFE_INTEGER (max spec)).
Proof.
  unfold generateBoundaryCases. intros Ht.
  set (lo := default MIN_SAFE_INTEGER (min spec)) in *.
  set (hi := default MAX_SAFE_INTEGER (max spec)) in *.
  unfold safe, MIN_SAFE_INTEGER, MAX_SAFE_INTEGER. intros Hlo Hhi Hle Hneg.
  assert (forall c : BoundaryCase,
            In c
              [mk (name spec +:+ ": zero") (name spec) (num 0) ((lo <=? 0) && (0 <=? hi));
               mk (name spec +:+ ": at min (" +:+ show_Z lo +:+ ")") (name spec) (num lo) true;
               mk (name spec +:+ ": below min") (name spec) (num (js_sub lo 1)) false;
               mk (name spec +:+ ": at max (" +:+ show_Z hi +:+ ")") (name spec) (num hi) true;
               mk (name spec +:+ ": above max") (name spec) (num (js_add hi 1)) false;
               mk (name spec +:+ ": negative") (name spec) (num (-1)) (lo <=? -1);
               mk (name spec +:+ ": NaN") (name spec) (VNum NaN) false;
               mk (name spec +:+ ": string instead") (name spec) (VStr "not-a-number") false] ->
            value c = num z ->
            expectValid c = (lo <=? z) && (z <=? hi)) as Hcases.
  { clear c. intros c Hin Hv. unfold num, js_sub, js_add in *.
    rewrite !round_double_exact in Hin by lia.
    repeat (destruct Hin as [<-|Hin]); try destruct Hin; cbn [value expectValid mk] in *;
      try discriminate Hv; injection Hv as <-.
    - reflexivity.
    - rewrite Z.leb_refl. symmetry. now apply Z.leb_le.
    - symmetry. apply andb_false_iff. left. apply Z.leb_gt. lia.
    - rewrite Z.leb_refl, andb_true_r. symmetry. now apply Z.leb_le.
    - symmetry. apply andb_false_iff. right. apply Z.leb_gt. lia.
    - assert ((-1 <=? hi) = true) as -> by now apply Z.leb_le.
      now rewrite andb_true_r. }
  assert (forall c : BoundaryCase,
            In c [mk (name spec +:+ ": float") (name spec) (VNum (Frac 3 1)) false] ->
            value c = num z -> expectValid c = (lo <=? z) && (z <=? hi)) as Hfloat.
  { clear c. intros c [<-|[]] Hv. discriminate Hv. }
  assert (forall c : BoundaryCase,
            In c [mk (name spec +:+ ": missing (undefined)") (name spec) VUndefined false;
                  mk (name spec +:+ ": null") (name spec) VNull false] ->
            value c = num z -> expectValid c = (lo <=? z) && (z <=? hi)) as Hreq.
  { clear c. intros c [<-|[<-|[]]] Hv; discriminate Hv. }
  destruct Ht as [-> | ->]; destruct (default false (required spec));
    rewrite ?app_nil_l; intros Hin Hv;
    repeat (apply in_app_or in Hin as [Hin|Hin]); eauto.
Qed.

(** The label of the case [negative] looks at the minimum only: for a
    range that lies below [-1] the case carries [-1], which is above the
    maximum, and is labelled valid. *)
Theorem negative_case_ignores_max spec :
  type spec = TNumber \/ type spec = TInteger ->
  default MIN_SAFE_INTEGER (min spec) <= -1 ->
  default MAX_SAFE_INTEGER (max spec) < -1 ->
  exists c, In c (generateBoundaryCases spec) /\
            value c = num (-1) /\ expectValid c = true /\
            (-1 <=? default MAX_SAFE_INTEGER (max spec)) = false.
Proof.
  intros Ht Hlo Hhi.
  exists (mk (name spec +:+ ": negative") (name spec) (num (-1)) true).
  repeat split; [|now apply Z.leb_gt].
  unfold generateBoundaryCases.
  assert ((default MIN_SAFE_INTEGER (min spec) <=? -1) = true) as E by now apply Z.leb_le.
  destruct Ht as [-> | ->]; rewrite E;
    repeat (apply in_or_app; first [ right; cbn; tauto | left ]).
Qed.

End BoundaryLabels.

Section QuickSets.

Import Str Js Boundary.

(** [stringLengthBoundaries(minLen, maxLen)] on natural numbers: with
    [maxLen = 0] the call throws a [RangeError] (a string is repeated [-1]
    times); otherwise it returns eight runs of the letter [a], of the
    lengths [0], [minLen - 1] (not below [0]), [minLen], [minLen + 1], the
    middle, [maxLen - 1], [maxLen] and [maxLen + 1]. *)
Theorem stringLengthBoundaries_spec (minLen maxLen : nat) :
  (maxLen = 0 ->
   stringLengthBoundaries minLen maxLen = Throw (RangeError "Invalid count value")) /\
  (0 < maxLen ->
   stringLengthBoundaries minLen maxLen =
   Ok (map (repeat "a")
         [0; minLen - 1; minLen; minLen + 1; (minLen + maxLen) / 2;
          maxLen - 1; maxLen; maxLen + 1])).
Proof.
  unfold stringLengthBoundaries, String_repeat. cbn [sequence bind].
  assert ((Z.max 0 (Z.of_nat minLen - 1) <? 0)%Z = false) as -> by (apply Z.ltb_ge; lia).
  assert ((Z.of_nat minLen <? 0)%Z = false) as -> by (apply Z.ltb_ge; lia).
  assert ((Z.of_nat minLen + 1 <? 0)%Z = false) as -> by (apply Z.ltb_ge; lia).
  assert (((Z.of_nat minLen + Z.of_nat maxLen) / 2 <? 0)%Z = false) as ->
    by (apply Z.ltb_ge, Z.div_pos; lia).
  assert ((Z.of_nat maxLen <? 0)%Z = false) as -> by (apply Z.ltb_ge; lia).
  assert ((Z.of_nat maxLen + 1 <? 0)%Z = false) as -> by (apply Z.ltb_ge; lia).
  cbn [bind]. split.
  - intros ->. reflexivity.
  - intros Hpos.
    assert ((Z.of_nat maxLen - 1 <? 0)%Z = false) as -> by (apply Z.ltb_ge; lia).
    cbn [bind map]. repeat f_equal; try lia.
    rewrite <- Nat2Z.inj_add. change 2%Z with (Z.of_nat 2).
    rewrite <- Nat2Z.inj_div. apply Nat2Z.id.
Qed.

Local Open Scope Z_scope.

(** Which of the seven numbers of [integerBoundaries] lie in the range:
    with [min < max] all but the first and the last, as the boundary test
    of the age field expects; with [min = max] the third and the fifth lie
    outside as well. *)
Theorem integerBoundaries_in_range (min max : Z) :
  safe min -> safe max -> safe (min + max) ->
  (min < max ->
   map (fun age => (min <=? age) && (age <=? max)) (integerBoundaries min max) =
   [false; true; true; true; true; true; false]) /\
  (min = max ->
   map (fun age => (min <=? age) && (age <=? max)) (integerBoundaries min max) =
   [false; true; false; true; false; true; false]).
Proof.
  unfold safe, MIN_SAFE_INTEGER, MAX_SAFE_INTEGER. intros Hmin Hmax Hsum.
  unfold integerBoundaries, js_add, js_sub, floor_half.
  rewrite !round_double_exact by lia. cbn [map].
  assert (forall a b, a <= b -> (a <=? b) = true) as Hle by (intros; now apply Z.leb_le).
  assert (forall a b, b < a -> (a <=? b) = false) as Hgt by (intros; now apply Z.leb_gt).
  split.
  - intros Hlt.
    assert (min <= (min + max) / 2) by (apply Z.div_le_lower_bound; lia).
    assert ((min + max) / 2 <= max) by (apply Z.div_le_upper_bound; lia).
    rewrite (Hgt min (min - 1)), (Hgt (max + 1) max), !Hle by lia. reflexivity.
  - intros <-. replace ((min + min) / 2) with min
      by (replace (min + min) with (min * 2) by lia; now rewrite Z.div_mul).
    rewrite (Hgt min (min - 1)), (Hgt (min + 1) min), !Hle by lia. reflexivity.
Qed.

End QuickSets.

Section NegativeCounts.

Import Str Js Boundary.

Lemma fold_specs valid specs results :
  fold_left
    (fun results spec =>
       fold_left (push_negative valid)
         (List.filter (fun c => negb (expectValid c)) (generateBoundaryCases spec))
         results) specs results =
  results ++ flat_map (fun spec => map (negative_of valid) (invalid_cases spec)) specs.
Proof.
  revert results. induction specs as [|spec specs IH]; intros results; simpl.
  - now rewrite app_nil_r.
  - rewrite IH, fold_push_negative. now rewrite <- app_assoc.
Qed.

(** How many cases of a field are expected invalid. *)
Definition invalid_count (spec : FieldSpec) : nat :=
  (if default false (required spec) then 2 else 0) +
  match type spec with
  | TString =>
      let lo := default 0 (minLength spec) in
      3 + (if lo =? 0 then 0 else 1) + (if lo <=? 1 then 0 else 1)
  | TEmail => 5
  | TNumber | TInteger =>
      let lo := default MIN_SAFE_INTEGER (min spec) in
      let hi := default MAX_SAFE_INTEGER (max spec) in
      match type spec with TInteger => 5 | _ => 4 end +
      (if (lo <=? 0)%Z && (0 <=? hi)%Z then 0 else 1) +
      (if (lo <=? -1)%Z then 0 else 1)
  | TBoolean => 3
  end.

(** The number of negative payloads is the sum, over the fields, of the
    number of their invalid cases, which the type, the bounds and the
    [required] flag of the field determine. *)
Theorem generateNegativePayloads_count validPayload specs :
  length (generateNegativePayloads validPayload specs) =
  list_sum (map invalid_count specs).
Proof.
  unfold generateNegativePayloads. rewrite (fold_specs validPayload specs []).
  cbn [app]. induction specs as [|spec specs IH]; [reflexivity|].
  cbn [flat_map map list_sum]. rewrite length_app, length_map, IH. f_equal.
  unfold invalid_cases, invalid_count, generateBoundaryCases.
  destruct (default false (required spec)), (type spec); cbn [app List.filter mk
    expectValid negb length];
    repeat match goal with
           | |- context [if negb ?b then _ else _] => destruct b; cbn [negb length]
           | |- context [if ?b then _ else _] => destruct b; cbn [negb length]
           end;
    reflexivity.
Qed.

End NegativeCounts.

Section BoundaryWitnesses.

Import Str Js Boundary.

(** The fields of the user registration test. *)
Definition password_field : FieldSpec :=
  {| name := "password"; type := TString; minLength := Some 8; maxLength := Some 128;
     min := None; max := None; required := Some true |}.

Definition name_field : FieldSpec :=
  {| name := "name"; type := TString; minLength := Some 1; maxLength := Some 255;
     min := None; max := None; required := Some true |}.

Definition age_field : FieldSpec :=
  {| name := "age"; type := TInteger; minLength := None; maxLength := None;
     min := Some 0%Z; max := Some 150%Z; required := Some false |}.

(** A field whose range lies below [-1]. *)
Definition depth_field : FieldSpec :=
  {| name := "depth"; type := TNumber; minLength := None; maxLength := None;
     min := Some (-10)%Z; max := Some (-5)%Z; required := None |}.

Lemma string_cases_follow_bounds_witness :
  expectValid (mk "password: below minLength" "password" (VStr (repeat "a" 7)) false) =
  (8 <=? 7) && (7 <=? 128).
Proof.
  apply (string_cases_follow_bounds password_field
           (mk "password: below minLength" "password" (VStr (repeat "a" 7)) false) 7).
  - reflexivity.
  - simpl. lia.
  - simpl. lia.
  - vm_compute. tauto.
  - reflexivity.
Defined.

Lemma string_minLength_one_conflict_witness :
  exists c1 c2,
    In c1 (generateBoundaryCases name_field) /\ In c2 (generateBoundaryCases name_field) /\
    field c1 = field c2 /\ value c1 = VStr "" /\ value c2 = VStr "" /\
    expectValid c1 = false /\ expectValid c2 = true.
Proof. apply (string_minLength_one_conflict name_field); reflexivity. Defined.

Lemma number_cases_follow_bounds_witness :
  expectValid (mk "age: above max" "age" (num 151) false) =
  (0 <=? 151)%Z && (151 <=? 150)%Z.
Proof.
  apply (number_cases_follow_bounds age_field (mk "age: above max" "age" (num 151) false)
           151%Z).
  - right. reflexivity.
  - unfold safe, MIN_SAFE_INTEGER, MAX_SAFE_INTEGER. simpl. lia.
  - unfold safe, MIN_SAFE_INTEGER, MAX_SAFE_INTEGER. simpl. lia.
  - simpl. lia.
  - simpl. lia.
  - vm_compute. tauto.
  - reflexivity.
Defined.

Lemma negative_case_ignores_max_witness :
  exists c, In c (generateBoundaryCases depth_field) /\
            value c = num (-1) /\ expectValid c = true /\ (-1 <=? -5)%Z = false.
Proof.
  apply (negative_case_ignores_max depth_field).
  - left. reflexivity.
  - simpl. lia.
  - simpl. lia.
Defined.

Lemma integerBoundaries_in_range_witness :
  ((0 < 150)%Z ->
   map (fun age => (0 <=? age)%Z && (age <=? 150)%Z) (integerBoundaries 0 150) =
   [false; true; true; true; true; true; false]) /\
  (0%Z = 150%Z ->
   map (fun age => (0 <=? age)%Z && (age <=? 150)%Z) (integerBoundaries 0 150) =
   [false; true; false; true; false; true; false]).
Proof.
  apply (integerBoundaries_in_range 0 150);
    unfold safe, MIN_SAFE_INTEGER, MAX_SAFE_INTEGER; lia.
Defined.

End BoundaryWitnesses.

(** ** [buildUrl] *)

Section UrlFacts.

Import Str Url.

Lemma all_slashes_repeat n : all_slashes (repeat "/" n) = true.
Proof. induction n as [|n IH]; simpl; [reflexivity | exact IH]. Qed.

Lemma all_slashes_app a b : all_slashes (a +:+ b) = all_slashes a && all_slashes b.
Proof.
  induction a as [|c a IH]; simpl; [reflexivity|]. now rewrite IH, andb_assoc.
Qed.

Lemma all_slashes_is_repeat s : all_slashes s = true -> s = repeat "/" (String.length s).
Proof.
  induction s as [|c s IH]; simpl; [reflexivity|].
  intros [Hc Hs]%andb_true_iff. apply Ascii.eqb_eq in Hc. subst c.
  now rewrite <- IH.
Qed.

Lemma replace_trailing_slashes_app b n :
  replace_trailing_slashes (b +:+ repeat "/" n) = replace_trailing_slashes b.
Proof.
  induction b as [|c b IH].
  - simpl. destruct n; simpl; [reflexivity|]. now rewrite all_slashes_repeat.
  - cbn [append replace_trailing_slashes all_slashes].
    rewrite all_slashes_app, all_slashes_repeat, andb_true_r. now rewrite IH.
Qed.

Lemma replace_leading_slashes_app m e :
  replace_leading_slashes (repeat "/" m +:+ e) = replace_leading_slashes e.
Proof. induction m as [|m IH]; simpl; [reflexivity | exact IH]. Qed.

(** The text does not end with a slash. *)
Definition no_trailing_slash (s : string) : Prop := forall s', s <> s' +:+ "/".

(** The text does not start with a slash. *)
Definition no_leading_slash (s : string) : Prop := forall s', s <> "/" +:+ s'.

Lemma replace_trailing_slashes_clean s : no_trailing_slash (replace_trailing_slashes s).
Proof.
  induction s as [|c s IH]; intros s'; cbn [replace_trailing_slashes].
  - destruct s'; discriminate.
  - destruct (all_slashes (String c s)) eqn:E; [destruct s'; discriminate|].
    destruct s' as [|c' s'']; simpl.
    + intros [= -> Hs]. destruct s as [|d s]; [discriminate E|].
      cbn [replace_trailing_slashes] in Hs.
      destruct (all_slashes (String d s)) eqn:E'; [|discriminate Hs].
      simpl in E. simpl in E'. now rewrite E' in E.
    + intros [= <- Hs]. now apply (IH s'').
Qed.

Lemma replace_leading_slashes_clean s : no_leading_slash (replace_leading_slashes s).
Proof.
  induction s as [|c s IH]; intros s'; simpl; [discriminate|].
  destruct (is_slash c) eqn:E; [apply IH|].
  intros [= -> _]. discriminate E.
Qed.

Lemma replace_trailing_slashes_split s :
  exists n, s = replace_trailing_slashes s +:+ repeat "/" n.
Proof.
  induction s as [|c s [n IH]]; [now exists 0|].
  cbn [replace_trailing_slashes]. destruct (all_slashes (String c s)) eqn:E.
  - exists (String.length (String c s)). now apply all_slashes_is_repeat.
  - exists n. simpl. now rewrite <- IH.
Qed.

Lemma replace_leading_slashes_split s :
  exists m, s = repeat "/" m +:+ replace_leading_slashes s.
Proof.
  induction s as [|c s [m IH]]; [now exists 0|]. simpl.
  destruct (is_slash c) eqn:E.
  - apply Ascii.eqb_eq in E. subst c. exists (S m). simpl. now rewrite <- IH.
  - now exists 0.
Qed.

Lemma replace_trailing_slashes_id s :
  no_trailing_slash s -> replace_trailing_slashes s = s.
Proof.
  intros H. destruct (replace_trailing_slashes_split s) as [[|n] E].
  - simpl in E. rewrite append_nil_r in E. now symmetry.
  - exfalso. apply (H (replace_trailing_slashes s +:+ repeat "/" n)).
    rewrite E at 1. rewrite append_assoc. f_equal.
    clear. induction n as [|n IH]; simpl; [reflexivity|]. now rewrite <- IH.
Qed.

Lemma replace_leading_slashes_id s :
  no_leading_slash s -> replace_leading_slashes s = s.
Proof.
  intros H. destruct s as [|c s]; [reflexivity|]. simpl.
  destruct (is_slash c) eqn:E; [|reflexivity].
  apply Ascii.eqb_eq in E. subst c. now destruct (H s).
Qed.

Section WithSearchParams.

Variable URLSearchParams_toString : list (string * string) -> string.

Abbreviation buildUrl := (buildUrl URLSearchParams_toString).

(** [buildUrl] joins its two parts with exactly one slash: slashes at the
    end of the base and at the start of the endpoint do not count, and what
    is left of the two is joined by one slash.  With the empty base, as the
    API runner calls it, the URL is the endpoint behind one slash.  The
    query string follows a [?] when the query has a key. *)
Theorem buildUrl_one_slash :
  (forall base endpoint query n m,
     buildUrl (base +:+ repeat "/" n) (repeat "/" m +:+ endpoint) query =
     buildUrl base endpoint query) /\
  (forall base endpoint,
     no_trailing_slash base -> no_leading_slash endpoint ->
     buildUrl base endpoint None = base +:+ "/" +:+ endpoint) /\
  (forall base endpoint,
     exists b e n m,
       base = b +:+ repeat "/" n /\ endpoint = repeat "/" m +:+ e /\
       no_trailing_slash b /\ no_leading_slash e /\
       buildUrl base endpoint None = b +:+ "/" +:+ e) /\
  (forall endpoint,
     buildUrl "" endpoint None = "/" +:+ replace_leading_slashes endpoint /\
     no_leading_slash (replace_leading_slashes endpoint)) /\
  (forall base endpoint query,
     buildUrl base endpoint query =
     match query with
     | None | Some [] => buildUrl base endpoint None
     | Some (p :: q) =>
         buildUrl base endpoint None +:+ "?" +:+ URLSearchParams_toString (p :: q)
     end).
Proof.
  split; [|split; [|split; [|split]]].
  - intros base endpoint query n m. unfold Url.buildUrl, join_url.
    now rewrite replace_trailing_slashes_app, replace_leading_slashes_app.
  - intros base endpoint Hb He. unfold Url.buildUrl, join_url.
    now rewrite replace_trailing_slashes_id, replace_leading_slashes_id.
  - intros base endpoint.
    destruct (replace_trailing_slashes_split base) as [n Hn].
    destruct (replace_leading_slashes_split endpoint) as [m Hm].
    exists (replace_trailing_slashes base), (replace_leading_slashes endpoint), n, m.
    repeat split; try assumption.
    + apply replace_trailing_slashes_clean.
    + apply replace_leading_slashes_clean.
  - intros endpoint. split; [reflexivity | apply replace_leading_slashes_clean].
  - intros base endpoint [[|p q]|]; reflexivity.
Qed.

End WithSearchParams.

End UrlFacts.

(** ** [resolveAuth] *)

Section AuthFacts.

Import Str Js Helpers Url Auth.

Variable Number : string -> number.
Variable String_ : Js.value -> string.
Variable base64 : string -> string.
Variable post : string -> list (string * string) -> res exn PostResponse.

Abbreviation resolveAuth := (resolveAuth Number String_ base64 post).
Abbreviation token_of := (token_of Number).

(** The strategies the [switch] names, ['none'] apart. *)
Definition known_strategy (s : string) : bool :=
  String.eqb s "bearer" || String.eqb s "basic" || String.eqb s "api-key".

(** The credentials leave the process in one case only: the bearer
    strategy posts them once, to the token endpoint joined to the base URL.
    No other strategy makes a request, and a strategy the [switch] does not
    name, a misspelt one included, gives no header and no error. *)
Theorem resolveAuth_requests baseUrl auth :
  (strategy auth <> "bearer" -> fst (resolveAuth baseUrl auth) = []) /\
  (forall r, In r (fst (resolveAuth baseUrl auth)) ->
     strategy auth = "bearer" /\
     exists endpoint creds,
       tokenEndpoint auth = Some endpoint /\ endpoint <> "" /\
       credentials auth = Some creds /\
       r = (join_url baseUrl endpoint, creds) /\
       fst (resolveAuth baseUrl auth) = [r]) /\
  (known_strategy (strategy auth) = false ->
   resolveAuth baseUrl auth = ([], Ok {| headers := []; token := None |})).
Proof.
  unfold Auth.resolveAuth, known_strategy. split; [|split].
  - intros Hs. apply String.eqb_neq in Hs. rewrite Hs.
    repeat match goal with
           | |- context [match ?x with _ => _ end] => destruct x; try reflexivity
           end.
  - intros r. destruct (String.eqb (strategy auth) "bearer") eqn:Eb.
    + apply String.eqb_eq in Eb.
      destruct (tokenEndpoint auth) as [endpoint|]; [|intros []].
      destruct (credentials auth) as [creds|]; [|intros []].
      destruct (String.eqb endpoint "") eqn:Ee; [intros []|].
      apply String.eqb_neq in Ee. intros [<-|[]]. split; [assumption|].
      exists endpoint, creds. repeat split; assumption.
    + repeat match goal with
             | |- context [match ?x with _ => _ end] => destruct x; try (now intros [])
             end.
  - intros H. apply orb_false_elim in H as [H Hk]. apply orb_false_elim in H as [Hb Hc].
    now rewrite Hb, Hc, Hk.
Qed.

(** Every way the call can succeed: a bearer token that is truthy, a basic
    pair whose two parts are not empty, an API key that is not empty, or a
    strategy without authentication.  A header is never built from an empty
    credential. *)
Theorem resolveAuth_success baseUrl auth r :
  snd (resolveAuth baseUrl auth) = Ok r ->
  (strategy auth = "bearer" /\
   exists tok, truthy tok = true /\ token r = Some tok /\
               headers r = [("Authorization", "Bearer " +:+ template String_ tok)]) \/
  (strategy auth = "basic" /\
   exists username password,
     credential auth "username" = Some username /\ username <> "" /\
     credential auth "password" = Some password /\ password <> "" /\
     token r = None /\
     headers r = [("Authorization", "Basic " +:+ base64 (username +:+ ":" +:+ password))]) \/
  (strategy auth = "api-key" /\
   exists key, key <> "" /\ token r = None /\
     or_else (apiKey auth) (credential auth "apiKey") = Some key /\
     headers r = [(default "X-API-Key" (headerName auth), key)]) \/
  (known_strategy (strategy auth) = false /\ token r = None /\ headers r = []).
Proof.
  unfold Auth.resolveAuth, known_strategy.
  destruct (String.eqb (strategy auth) "bearer") eqn:Eb.
  { apply String.eqb_eq in Eb. intros H. left. split; [assumption|].
    destruct (tokenEndpoint auth) as [endpoint|]; [|discriminate H].
    destruct (credentials auth) as [creds|]; [|discriminate H].
    destruct (String.eqb endpoint ""); [discriminate H|]. cbn [snd] in H.
    destruct (post _ creds) as [res|]; [|discriminate H]. cbn [bind] in H.
    destruct (ok res); [|discriminate H]. cbn [negb] in H.
    destruct (json res) as [body|]; [|discriminate H]. cbn [bind] in H.
    destruct (Auth.token_of Number body) as [tok|]; [|discriminate H]. cbn [bind] in H.
    destruct (truthy tok) eqn:Et; [|discriminate H]. cbn [negb] in H.
    injection H as <-. exists tok. now repeat split. }
  destruct (String.eqb (strategy auth) "basic") eqn:Ec.
  { apply String.eqb_eq in Ec. intros H. right. left. split; [assumption|].
    destruct (credential auth "username") as [username|]; [|discriminate H].
    destruct (credential auth "password") as [password|]; [|discriminate H].
    destruct (String.eqb username "") eqn:Eu; [discriminate H|].
    destruct (String.eqb password "") eqn:Ep; [discriminate H|].
    apply String.eqb_neq in Eu, Ep. cbn [orb snd] in H. injection H as <-.
    exists username, password. repeat split; assumption. }
  destruct (String.eqb (strategy auth) "api-key") eqn:Ek.
  { apply String.eqb_eq in Ek. intros H. right. right. left. split; [assumption|].
    destruct (or_else (apiKey auth) (credential auth "apiKey")) as [key|];
      [|discriminate H].
    destruct (String.eqb key "") eqn:E; [discriminate H|].
    apply String.eqb_neq in E. cbn [snd] in H. injection H as <-.
    exists key. repeat split; assumption. }
  cbn [snd orb]. intros [= <-]. right. right. right. repeat split.
Qed.

(** A [token] that is there but falsy (the empty string, [0], [false])
    stops the search: the other locations are not consulted and the call
    fails, whatever they hold. *)
Theorem resolveAuth_falsy_token baseUrl auth endpoint creds res body tok :
  strategy auth = "bearer" ->
  tokenEndpoint auth = Some endpoint -> endpoint <> "" ->
  credentials auth = Some creds ->
  post (join_url baseUrl endpoint) creds = Ok res ->
  ok res = true -> json res = Ok body ->
  deepGet Number body "token" = Ok tok ->
  is_nullish tok = false -> truthy tok = false ->
  snd (resolveAuth baseUrl auth) =
  Throw (Error "Could not extract token from auth response").
Proof.
  intros Hs He Hne Hc Hp Hok Hj Ht Hn Hf. unfold Auth.resolveAuth.
  rewrite Hs, He, Hc. cbn [String.eqb Ascii.eqb Bool.eqb].
  apply String.eqb_neq in Hne. rewrite Hne. cbn [snd]. rewrite Hp. cbn [bind].
  rewrite Hok. cbn [negb]. rewrite Hj. cbn [bind].
  unfold Auth.token_of, first_of at 1. rewrite Ht. cbn [bind]. rewrite Hn.
  cbn [bind]. now rewrite Hf.
Qed.

End AuthFacts.

Section AuthWitnesses.

Import Str Js Helpers Url Auth.

(** A token endpoint that answers with an empty [token] beside a usable
    [data.token]. *)
Definition empty_token_server (url : string) (data : list (string * string))
  : res exn PostResponse :=
  Ok {| ok := true; status := 200; statusText := "OK";
        json := Ok (VObj [("token", VStr "");
                          ("data", VObj [("token", VStr "abc")])]) |}.

Definition bearer_config : AuthConfig :=
  {| strategy := "bearer"; tokenEndpoint := Some "/login";
     credentials := Some [("username", "u"); ("password", "p")];
     apiKey := None; headerName := None |}.

Definition api_key_config : AuthConfig :=
  {| strategy := "api-key"; tokenEndpoint := None;
     credentials := Some [("apiKey", "k1")]; apiKey := None; headerName := None |}.

Definition no_number (s : string) : number := NaN.
Definition text_of (v : Js.value) : string :=
  match v with VStr s => s | _ => "" end.
Definition plain (s : string) : string := s.

Lemma resolveAuth_success_witness :
  (strategy api_key_config = "bearer" /\
   exists tok, truthy tok = true /\ None = Some tok /\
               [("X-API-Key", "k1")] =
               [("Authorization", "Bearer " +:+ template text_of tok)]) \/
  (strategy api_key_config = "basic" /\
   exists username password,
     credential api_key_config "username" = Some username /\ username <> "" /\
     credential api_key_config "password" = Some password /\ password <> "" /\
     @None Js.value = None /\
     [("X-API-Key", "k1")] =
     [("Authorization", "Basic " +:+ plain (username +:+ ":" +:+ password))]) \/
  (strategy api_key_config = "api-key" /\
   exists key, key <> "" /\ @None Js.value = None /\
     or_else (apiKey api_key_config) (credential api_key_config "apiKey") = Some key /\
     [("X-API-Key", "k1")] = [(default "X-API-Key" (headerName api_key_config), key)]) \/
  (known_strategy (strategy api_key_config) = false /\ @None Js.value = None /\
   [("X-API-Key", "k1")] = @nil (string * string)).
Proof.
  apply (resolveAuth_success no_number text_of plain empty_token_server
           "http://host/" api_key_config
           {| headers := [("X-API-Key", "k1")]; token := None |}).
  reflexivity.
Defined.

Lemma resolveAuth_falsy_token_witness :
  snd (resolveAuth no_number text_of plain empty_token_server "http://host/"
         bearer_config) =
  Throw (Error "Could not extract token from auth response").
Proof.
  eapply (resolveAuth_falsy_token no_number text_of plain empty_token_server
            "http://host/" bearer_config "/login").
  - reflexivity.
  - reflexivity.
  - intros H. discriminate H.
  - reflexivity.
  - reflexivity.
  - reflexivity.
  - reflexivity.
  - reflexivity.
  - reflexivity.
  - reflexivity.
Defined.

End AuthWitnesses.

(** ** Fixtures and request preparation *)

Section FixtureFacts.

Import Str Js Auth Fixtures.

Lemma spread_lookup {A} (a b : list (string * A)) k :
  NoDup (map fst b) ->
  assoc k (spread a b) =
  match assoc k b with
  | Some v => Some v
  | None => assoc k a
  end.
Proof.
  unfold spread. revert a. induction b as [|[k' v] b IH]; intros a Hnd; simpl.
  - reflexivity.
  - apply NoDup_cons in Hnd as [Hk Hnd]. rewrite IH by assumption.
    destruct (String.eqb k k') eqn:E.
    + apply String.eqb_eq in E. subst k'.
      destruct (assoc k b) as [w|] eqn:Eb.
      * exfalso. apply Hk. apply list_elem_of_In.
        apply assoc_Some_In in Eb. apply (in_map fst) in Eb. exact Eb.
      * apply assoc_set_prop_eq.
    + apply String.eqb_neq in E.
      destruct (assoc k b); [reflexivity|]. now apply assoc_set_prop_ne.
Qed.

Variable Number : string -> number.
Variable String_ : Js.value -> string.
Variable base64 : string -> string.
Variable post : string -> list (string * string) -> res exn PostResponse.

Lemma resolveAuth_one_header baseUrl cfg r :
  snd (resolveAuth Number String_ base64 post baseUrl cfg) = Ok r ->
  NoDup (map fst (Auth.headers r)).
Proof.
  unfold resolveAuth.
  destruct (String.eqb (strategy cfg) "bearer").
  { intros H.
    destruct (tokenEndpoint cfg) as [endpoint|]; [|discriminate H].
    destruct (credentials cfg) as [creds|]; [|discriminate H].
    destruct (String.eqb endpoint ""); [discriminate H|]. cbn [snd] in H.
    destruct (post _ creds) as [res|]; [|discriminate H]. cbn [bind] in H.
    destruct (ok res); [|discriminate H]. cbn [negb] in H.
    destruct (json res) as [body|]; [|discriminate H]. cbn [bind] in H.
    destruct (token_of Number body) as [tok|]; [|discriminate H]. cbn [bind] in H.
    destruct (truthy tok); [|discriminate H]. injection H as <-.
    apply NoDup_singleton. }
  destruct (String.eqb (strategy cfg) "basic").
  { intros H.
    destruct (credential cfg "username") as [username|]; [|discriminate H].
    destruct (credential cfg "password") as [password|]; [|discriminate H].
    destruct (String.eqb username "" || String.eqb password ""); [discriminate H|].
    injection H as <-. apply NoDup_singleton. }
  destruct (String.eqb (strategy cfg) "api-key").
  { intros H.
    destruct (or_else (apiKey cfg) (credential cfg "apiKey")) as [key|];
      [|discriminate H].
    destruct (String.eqb key ""); [discriminate H|].
    injection H as <-. apply NoDup_singleton. }
  intros [= <-]. constructor.
Qed.

(** What the API context sends by default: the headers of the environment,
    except where authentication provides one of the same name. *)
Theorem apiContext_headers envConfig requests hs k :
  authHeaders Number String_ base64 post envConfig = (requests, Ok hs) ->
  assoc k (extraHTTPHeaders envConfig hs) =
  match assoc k hs with
  | Some v => Some v
  | None => assoc k (headers envConfig)
  end.
Proof.
  unfold authHeaders, extraHTTPHeaders. intros H. apply spread_lookup.
  destruct (String.eqb (strategy (auth envConfig)) "none").
  - injection H as _ <-. constructor.
  - destruct (resolveAuth _ _ _ _ _ _) as [reqs [r|e]] eqn:E; [|discriminate H].
    cbn [bind] in H. injection H as _ <-.
    apply (resolveAuth_one_header (apiBaseUrl envConfig) (auth envConfig)).
    now rewrite E.
Qed.

End FixtureFacts.

Section ApiSuiteFacts.

Import Str Js Helpers Interp Url ApiSuite.

Variable Number : string -> number.

Lemma interpolate_string_placeholder (vars : gmap string string) a key b :
  identifier key ->
  interpolate_string vars (a +:+ placeholder key +:+ b) =
  interpolate_string vars a +:+ replacer vars key +:+ interpolate_string vars b.
Proof.
  intros Hk. unfold interpolate_string, placeholder.
  change ("{{" +:+ key +:+ "}}") with ("{{" +:+ (key +:+ "}}")).
  rewrite append_assoc. simpl append at 2.
  change (String "{" (String "{" ?x)) with ("{{" +:+ x).
  rewrite String_replace_app. f_equal.
  rewrite <- (String_replace_placeholder (replacer vars) key b Hk).
  unfold placeholder. now rewrite !append_assoc.
Qed.

(** From the login of the suite to the requests of its tests.  A string
    found at [fromPath] is stored under [as] (any name but [__proto__], under
    which nothing is stored), the other variables stay, and from then on
    [{{as}}] in a test case is replaced by it, unless the [dataInjection] of
    the test case has a value of its own for that name.  A value that is no
    string (a numeric token, [null], a missing path) is not stored: the
    variables are unchanged. *)
Theorem extracted_token_reaches_tests
    (vars : gmap string string) body fromPath as_ val :
  deepGet Number body fromPath = Ok val ->
  identifier as_ ->
  (forall s, val = VStr s -> as_ <> "__proto__" ->
     exists vars',
       extractToken Number vars body fromPath as_ = Ok vars' /\
       (forall k, k <> as_ -> vars' !! k = vars !! k) /\
       (forall dataInjection a b,
          interpolate (localVars vars' dataInjection)
            (VStr (a +:+ placeholder as_ +:+ b)) =
          VStr (interpolate_string (localVars vars' dataInjection) a +:+
                default s (default ∅ dataInjection !! as_) +:+
                interpolate_string (localVars vars' dataInjection) b))) /\
  ((forall s, val <> VStr s) \/ as_ = "__proto__" ->
   extractToken Number vars body fromPath as_ = Ok vars).
Proof.
  intros Hget Hid. unfold extractToken. rewrite Hget. cbn [bind]. split.
  - intros s -> Hnp. apply String.eqb_neq in Hnp. rewrite Hnp.
    exists (<[as_ := s]> vars). split; [reflexivity|]. split.
    + intros k Hk. now rewrite lookup_insert_ne.
    + intros di a b. cbn [interpolate]. f_equal.
      rewrite interpolate_string_placeholder by assumption. do 2 f_equal.
      unfold replacer, property, localVars. rewrite lookup_union.
      destruct (default ∅ di !! as_) as [v|]; simpl.
      * now rewrite union_Some_l.
      * now rewrite lookup_insert_eq.
  - intros [Hns | ->].
    + destruct val; try reflexivity. now destruct (Hns s).
    + now destruct val.
Qed.

(** The headers a test case sends: its own, and when it has a non-empty
    [auth], the header [Authorization] set to [Bearer <auth>] whatever the
    case lists under that name; the other headers and their order are
    kept.  Without [auth], or with an empty one, the headers are the
    case's own. *)
Theorem request_headers_spec headers :
  (forall a, a <> "" ->
     assoc "Authorization" (request_headers headers (Some a)) = Some ("Bearer " +:+ a) /\
     (forall k, k <> "Authorization" ->
        assoc k (request_headers headers (Some a)) = assoc k (default [] headers)) /\
     map fst (request_headers headers (Some a)) =
       if existsb (String.eqb "Authorization") (map fst (default [] headers))
       then map fst (default [] headers)
       else map fst (default [] headers) ++ ["Authorization"]) /\
  request_headers headers None = default [] headers /\
  request_headers headers (Some "") = default [] headers.
Proof.
  unfold request_headers. split; [|split; reflexivity].
  intros a Ha. apply String.eqb_neq in Ha. rewrite Ha. split; [|split].
  - apply assoc_set_prop_eq.
  - intros k Hk. now apply assoc_set_prop_ne.
  - apply keys_set_prop.
Qed.

End ApiSuiteFacts.

Section SuiteWitnesses.

Import Str Js Helpers Interp Auth Fixtures ApiSuite.

Definition api_key_env : EnvironmentConfig :=
  {| apiBaseUrl := "http://host/api";
     auth := api_key_config;
     headers := [("Accept", "application/json"); ("X-API-Key", "from-file")] |}.

Lemma apiContext_headers_witness :
  assoc "X-API-Key" (extraHTTPHeaders api_key_env [("X-API-Key", "k1")]) =
  match assoc "X-API-Key" [("X-API-Key", "k1")] with
  | Some v => Some v
  | None => assoc "X-API-Key" (headers api_key_env)
  end.
Proof.
  apply (apiContext_headers no_number text_of plain empty_token_server api_key_env []).
  reflexivity.
Defined.

Definition login_body : Js.value :=
  VObj [("data", VObj [("token", VStr "t0k")])].

Lemma extracted_token_reaches_tests_witness :
  (forall s, VStr "t0k" = VStr s -> "token" <> "__proto__" ->
     exists vars',
       extractToken no_number ∅ login_body "data.token" "token" = Ok vars' /\
       (forall k, k <> "token" -> vars' !! k = (∅ : gmap string string) !! k) /\
       (forall dataInjection a b,
          interpolate (localVars vars' dataInjection)
            (VStr (a +:+ placeholder "token" +:+ b)) =
          VStr (interpolate_string (localVars vars' dataInjection) a +:+
                default s (default ∅ dataInjection !! "token") +:+
                interpolate_string (localVars vars' dataInjection) b))) /\
  ((forall s, VStr "t0k" <> VStr s) \/ "token" = "__proto__" ->
   extractToken no_number ∅ login_body "data.token" "token" = Ok ∅).
Proof.
  apply (extracted_token_reaches_tests no_number ∅ login_body "data.token" "token"
           (VStr "t0k")).
  - reflexivity.
  - split; [intros H; discriminate H | reflexivity].
Defined.

End SuiteWitnesses.

(** ** [bodyPath] entries and tag filters *)

Section BodyPathFacts.

Import Str Js Helpers ApiRunner.

Variable Number : string -> number.
Variable toEqual : Js.value -> Js.value -> bool.
Variable RegExp_test : string -> string -> res exn bool.
Variable String_ : Js.value -> string.

Abbreviation check_path' := (ApiRunner.check_path Number toEqual RegExp_test String_).

(** The names [typeof] can answer for what a path leads to in a response:
    those of the JSON values and of [undefined], and ["function"] for a
    method the path reaches by inheritance. *)
Definition typeof_names : list string :=
  ["undefined"; "object"; "boolean"; "number"; "string"; "function"].

Lemma typeof_in_names v : In (typeof v) typeof_names.
Proof. destruct v; cbn; tauto. Qed.

(** No key of the path is the name of a member objects inherit; on such a
    path a lookup finds what the object itself holds, or nothing. *)
Definition own_path (path : string) : Prop :=
  Forall (fun key => assoc key Interp.Object_prototype = None) (split_dot path).

(** The [type] of a [bodyPath] entry is compared with what [typeof]
    answers.  A name [typeof] never answers (["array"], ["null"],
    ["integer"], ...) fails on every response; with no other check in the
    entry, and on a path none of whose keys names an inherited member, the
    entry passes exactly when the name is the [typeof] of the value at the
    path, which for an array and for [null] is ["object"]. *)
Theorem bodyPath_type_names body i bp ty :
  equals bp = None -> contains bp = None ->
  type bp = Some ty -> ty <> "" ->
  (~ In ty typeof_names ->
   check_path' body i bp = Throw (Failed (A_bodyPath i (path bp) P_type))) /\
  (forall actual,
     own_path (path bp) ->
     deepGet Number body (path bp) = Ok actual ->
     minLength bp = None -> maxLength bp = None -> regex bp = None ->
     (check_path' body i bp = Ok tt <-> ty = typeof actual) /\
     ((actual = VNull \/ exists l, actual = VArr l) ->
      (check_path' body i bp = Ok tt <-> ty = "object"))).
Proof.
  intros He Hc Ht Hne. apply String.eqb_neq in Hne.
  unfold ApiRunner.check_path, deepGet. rewrite He, Hc, Ht. cbn [when_some when_string].
  rewrite Hne. split.
  - intros Hnot.
    destruct (reduce_total Number (split_dot (path bp)) body) as [actual ->].
    cbn [lift bind]. rewrite seq_Ok, seq_Ok.
    destruct (String.eqb (typeof actual) ty) eqn:E.
    + apply String.eqb_eq in E. subst ty. destruct Hnot. apply typeof_in_names.
    + reflexivity.
  - intros actual _ Ha Hmin Hmax Hre. unfold deepGet in Ha. rewrite Ha, Hmin, Hmax, Hre.
    cbn [lift bind when_some when_string]. rewrite !seq_Ok, !seq_Ok_r.
    assert (expect (A_bodyPath i (path bp) P_type) (String.eqb (typeof actual) ty) = Ok tt
            <-> ty = typeof actual) as Hiff.
    { unfold expect. destruct (String.eqb (typeof actual) ty) eqn:E.
      - apply String.eqb_eq in E. split; [now intros _ | reflexivity].
      - apply String.eqb_neq in E. split; [discriminate | congruence]. }
    split; [exact Hiff|]. intros Hobj. rewrite Hiff.
    now destruct Hobj as [-> | [l ->]].
Qed.

(** A length assertion on a path that leads to [undefined] or [null] is
    not reported as a failed assertion: reading [length] throws a
    [TypeError], which ends the test function. *)
Theorem bodyPath_length_of_nothing body i bp n actual :
  deepGet Number body (path bp) = Ok actual -> is_nullish actual = true ->
  equals bp = None -> contains bp = None ->
  type bp = None \/ type bp = Some "" ->
  minLength bp = Some n \/ (minLength bp = None /\ maxLength bp = Some n) ->
  exists msg, check_path' body i bp = Throw (Raised (TypeError msg)).
Proof.
  intros Ha Hn He Hc Ht Hlen. unfold ApiRunner.check_path.
  rewrite Ha, He, Hc. cbn [lift bind when_some]. rewrite !seq_Ok.
  assert (when_string (type bp)
            (fun ty => expect (A_bodyPath i (path bp) P_type)
                         (String.eqb (typeof actual) ty)) = Ok tt) as ->
    by (destruct Ht as [-> | ->]; reflexivity).
  rewrite seq_Ok.
  destruct actual; try discriminate Hn;
    destruct Hlen as [-> | [-> ->]]; cbn [when_some get lift bind seq]; eauto.
Qed.

End BodyPathFacts.

Section BodyPathWitnesses.

Import Str Js Helpers ApiRunner.

Definition same_leaf (a b : Js.value) : bool := strict_eq a b.
Definition no_regex (pattern text : string) : res exn bool := Ok true.

Definition items_is_array : BodyPath :=
  {| path := "items"; equals := None; contains := None; type := Some "array";
     minLength := None; maxLength := None; regex := None |}.

Definition missing_has_length : BodyPath :=
  {| path := "missing"; equals := None; contains := None; type := None;
     minLength := Some 1%Z; maxLength := None; regex := None |}.

Definition items_body : Js.value := VObj [("items", VArr [VNum (Int 1)])].

Lemma bodyPath_type_names_witness :
  (~ In "array" typeof_names ->
   ApiRunner.check_path no_number same_leaf no_regex text_of items_body 0 items_is_array =
   Throw (Failed (A_bodyPath 0 "items" P_type))) /\
  (forall actual,
     own_path "items" ->
     deepGet no_number items_body "items" = Ok actual ->
     minLength items_is_array = None -> maxLength items_is_array = None ->
     regex items_is_array = None ->
     (ApiRunner.check_path no_number same_leaf no_regex text_of items_body 0
        items_is_array = Ok tt <-> "array" = typeof actual) /\
     ((actual = VNull \/ exists l, actual = VArr l) ->
      (ApiRunner.check_path no_number same_leaf no_regex text_of items_body 0
         items_is_array = Ok tt <-> "array" = "object"))).
Proof.
  apply (bodyPath_type_names no_number same_leaf no_regex text_of items_body 0
           items_is_array "array").
  - reflexivity.
  - reflexivity.
  - reflexivity.
  - intros H. discriminate H.
Defined.

Lemma bodyPath_length_of_nothing_witness :
  exists msg,
    ApiRunner.check_path no_number same_leaf no_regex text_of items_body 0
      missing_has_length = Throw (Raised (TypeError msg)).
Proof.
  apply (bodyPath_length_of_nothing no_number same_leaf no_regex text_of items_body 0
           missing_has_length 1%Z VUndefined).
  - reflexivity.
  - reflexivity.
  - reflexivity.
  - reflexivity.
  - left. reflexivity.
  - left. reflexivity.
Defined.

End BodyPathWitnesses.

Section TagFilterFacts.

Import Js Interp.

Lemma filterByTags_filter tests filterTags :
  filterByTags tests filterTags =
  List.filter (fun t => (length filterTags =? 0) || tag_match filterTags t) tests.
Proof.
  unfold filterByTags. destruct (length filterTags =? 0); cbn [orb]; [|reflexivity].
  induction tests as [|t tests IH]; simpl; [reflexivity | now rewrite <- IH].
Qed.

Lemma filter_filter_and {A} (p q : A -> bool) l :
  List.filter q (List.filter p l) = List.filter (fun x => p x && q x) l.
Proof.
  induction l as [|x l IH]; simpl; [reflexivity|].
  destruct (p x); simpl; [destruct (q x); now rewrite IH | exact IH].
Qed.

Lemma filter_ext_bool {A} (p q : A -> bool) l :
  (forall x, p x = q x) -> List.filter p l = List.filter q l.
Proof.
  intros H. induction l as [|x l IH]; simpl; [reflexivity|]. now rewrite H, IH.
Qed.

(** Filtering twice: the order of the two filters does not matter, the same
    filter twice is the filter once, and a test is kept when each filter is
    empty or names one of its tags. *)
Theorem filterByTags_twice tests f g :
  filterByTags (filterByTags tests f) g = filterByTags (filterByTags tests g) f /\
  filterByTags (filterByTags tests f) f = filterByTags tests f /\
  (forall t, In t (filterByTags (filterByTags tests f) g) <->
             In t tests /\ (f = [] \/ tag_match f t = true) /\
             (g = [] \/ tag_match g t = true)).
Proof.
  rewrite !filterByTags_filter, !filter_filter_and. split; [|split].
  - apply filter_ext_bool. intros t. apply andb_comm.
  - apply filter_ext_bool. intros t. now destruct (_ || _).
  - intros t. rewrite List.filter_In, andb_true_iff, !orb_true_iff, !Nat.eqb_eq.
    assert (forall l : list string, length l = 0 <-> l = []) as Hnil
      by (intros []; split; (reflexivity || discriminate)).
    now rewrite !Hnil.
Qed.

End TagFilterFacts.

(** ** The UI test function *)

Section UiSuiteFacts.

Import Str Js UiRunner UiSuite.

Variable page : Type.
Variable perform : test_call -> page -> page * option exn.
Variable String_ : Js.value -> string.
Variable Number_ : Js.value -> number.
Variable status_differs : page -> bool.

Abbreviation ui_test := (ui_test page perform String_ Number_ status_differs).
Abbreviation step_run :=
  (run_steps page (fun c => perform (of_step c)) String_ Number_).

(** The calls that come before the steps, and those that come after. *)
Definition before_steps (ev : test_event) : bool :=
  match ev with
  | Did (page_setViewportSize _ _) | Did (page_goto_url _) => true
  | _ => false
  end.

Definition after_steps (ev : test_event) : bool :=
  match ev with
  | Did (locator_toHaveScreenshot _ _) | Did (page_toHaveScreenshot _ _)
  | Did page_screenshot_fullPage | Did (attachScreenshot _) => true
  | _ => false
  end.

Lemma of_event_not_after log : Forall (fun ev => after_steps ev = false) (map of_event log).
Proof. apply Forall_forall. intros ev [e [-> _]]%list_elem_of_fmap. now destruct e. Qed.

Lemma on_failure_after p p' log r :
  on_failure page perform status_differs p = (p', log, r) ->
  Forall (fun ev => after_steps ev = true) log.
Proof.
  unfold on_failure, await. destruct (status_differs p).
  - destruct (perform page_screenshot_fullPage p) as [p1 [e|]].
    + intros [= _ <- _]. now repeat constructor.
    + destruct (perform (attachScreenshot "failure-screenshot") p1) as [p2 [e|]];
        intros [= _ <- _]; now repeat constructor.
  - intros [= _ <- _]. constructor.
Qed.

Lemma compare_snapshot_after tc p p' log r :
  compare_snapshot page perform status_differs tc p = (p', log, r) ->
  Forall (fun ev => after_steps ev = true) log.
Proof.
  unfold compare_snapshot. destruct (snapshot tc) as [snap|]; [|apply on_failure_after].
  destruct (truthy_string (snap_selector snap)) as [sel|]; unfold await.
  - destruct (perform _ p) as [p1 [e|]].
    + intros [= _ <- _]. now repeat constructor.
    + destruct (on_failure _ _ _ p1) as [[p2 log2] r2] eqn:E.
      intros [= _ <- _]. constructor; [reflexivity|]. now apply on_failure_after in E.
  - destruct (perform _ p) as [p1 [e|]].
    + intros [= _ <- _]. now repeat constructor.
    + destruct (on_failure _ _ _ p1) as [[p2 log2] r2] eqn:E.
      intros [= _ <- _]. constructor; [reflexivity|]. now apply on_failure_after in E.
Qed.

(** The shape of a run once the steps are reached. *)
Definition steps_phase tc (log : list test_event) (r : option exn) : Prop :=
  exists p0 p1 slog sr,
    step_run 0 (steps tc) p0 = (p1, slog, sr) /\
    match sr with
    | Some e => log = map of_event slog /\ r = Some e
    | None =>
        exists post, log = map of_event slog ++ post /\
                     Forall (fun ev => after_steps ev = true) post
    end.

Lemma execute_steps_phase tc p p' log r :
  execute_steps page perform String_ Number_ status_differs tc p = (p', log, r) ->
  steps_phase tc log r.
Proof.
  unfold execute_steps, steps_phase.
  destruct (run_steps _ _ _ _ 0 (steps tc) p) as [[p1 slog] sr] eqn:E.
  destruct sr as [e|].
  - intros [= _ <- <-]. exists p, p1, slog, (Some e). now rewrite E.
  - destruct (compare_snapshot _ _ _ tc p1) as [[p2 log2] r2] eqn:E2.
    intros [= _ <- _]. exists p, p1, slog, None. rewrite E. split; [reflexivity|].
    exists log2. split; [reflexivity|]. now apply compare_snapshot_after in E2.
Qed.

(** A run of the test function: the calls made before the steps, then the
    steps, then the snapshot and the screenshot; a call that throws ends the
    run, so a step that throws leaves no snapshot and no screenshot in the
    log. *)
Theorem ui_test_phases basePath tc p p' log r :
  ui_test basePath tc p = (p', log, r) ->
  exists pre rest,
    log = pre ++ rest /\
    Forall (fun ev => before_steps ev = true) pre /\
    ((rest = [] /\ exists e, r = Some e) \/ steps_phase tc rest r).
Proof.
  unfold UiSuite.ui_test.
  assert (forall p p' log r,
            navigate page perform String_ Number_ status_differs basePath tc p
              = (p', log, r) ->
            exists pre rest,
              log = pre ++ rest /\
              Forall (fun ev => before_steps ev = true) pre /\
              ((rest = [] /\ exists e, r = Some e) \/ steps_phase tc rest r)) as Hnav.
  { clear. intros p p' log r. unfold navigate.
    destruct (truthy_string (url tc)) as [u|]; unfold await.
    - destruct (perform _ p) as [p1 [e|]].
      + intros [= _ <- <-]. exists [Did (page_goto_url (default "" basePath +:+ u))], [].
        repeat split; [now repeat constructor | left; eauto].
      + destruct (execute_steps _ _ _ _ _ tc p1) as [[p2 log2] r2] eqn:E.
        intros [= _ <- <-]. exists [Did (page_goto_url (default "" basePath +:+ u))], log2.
        repeat split; [now repeat constructor | right].
        now apply execute_steps_phase in E.
    - intros E. exists [], log. repeat split; [constructor | right].
      now apply execute_steps_phase in E. }
  destruct (viewport tc) as [[w h]|]; [|apply Hnav].
  unfold await. destruct (perform _ p) as [p1 [e|]].
  - intros [= _ <- <-]. exists [Did (page_setViewportSize w h)], [].
    repeat split; [now repeat constructor | left; eauto].
  - destruct (navigate _ _ _ _ _ basePath tc p1) as [[p2 log2] r2] eqn:E.
    intros [= _ <- <-]. apply Hnav in E as (pre & rest & -> & Hpre & Hrest).
    exists (Did (page_setViewportSize w h) :: pre), rest.
    repeat split; [now constructor | assumption].
Qed.

End UiSuiteFacts.

Section UiSuiteWitnesses.

Import Str Js UiRunner UiSuite.

(** A page that counts the calls it serves and on which every click
    fails. *)
Definition clicks_fail (c : test_call) (served : nat) : nat * option exn :=
  match c with
  | of_step (locator_click _ _) => (S served, Some (Error "element is not visible"))
  | _ => (S served, None)
  end.

Definition login_case : UiTestCase :=
  {| url := Some "/login";
     viewport := Some (1280, 720)%Z;
     steps := [ {| action := "fill"; selector := Some "#user"; value := VStr "ann";
                   options := VUndefined; description := None |};
                {| action := "click"; selector := Some "#submit"; value := VUndefined;
                   options := VUndefined; description := None |};
                {| action := "assertVisible"; selector := Some "#home";
                   value := VUndefined; options := VUndefined; description := None |} ];
     snapshot := Some {| snap_name := "home"; snap_fullPage := None;
                         snap_selector := None |} |}.

Definition number_of (v : Js.value) : number :=
  match v with VNum n => n | _ => NaN end.

Definition login_run : nat * list test_event * option exn :=
  Eval vm_compute in
    UiSuite.ui_test nat clicks_fail text_of number_of (fun _ => true) None login_case 0.

Lemma ui_test_phases_witness :
  exists pre rest,
    snd (fst login_run) = pre ++ rest /\
    Forall (fun ev => before_steps ev = true) pre /\
    ((rest = [] /\ exists e, snd login_run = Some e) \/
     steps_phase nat clicks_fail text_of number_of login_case rest (snd login_run)).
Proof.
  apply (ui_test_phases nat clicks_fail text_of number_of (fun _ => true) None login_case
           0 (fst (fst login_run))).
  reflexivity.
Defined.

End UiSuiteWitnesses.

(** ** Validation and loading of test files *)

Section LoaderFacts.

Import Str Js Loader.

Variable validators : string -> option ValidateFunction.
Variable JSON_stringify : Js.value -> string.
Variable JSON_parse : string -> res exn Js.value.
Variable existsSync : string -> bool.
Variable readFileSync : string -> string.
Variable readdirSync : string -> list string.
Variable path_join : string -> string -> string.
Variable path_resolve : string -> string -> string.
Variable DATA_DIR : string.
Variable dataDir : string.

Abbreviation validateTestData := (validateTestData validators JSON_stringify).
Abbreviation validateTestFile :=
  (validateTestFile validators JSON_stringify JSON_parse existsSync readFileSync).
Abbreviation validate_files :=
  (validate_files validators JSON_stringify JSON_parse existsSync readFileSync path_join).
Abbreviation validate_dirs :=
  (validate_dirs validators JSON_stringify JSON_parse existsSync readFileSync
     readdirSync path_join).
Abbreviation main :=
  (main validators JSON_stringify JSON_parse existsSync readFileSync readdirSync
     path_join dataDir).
Abbreviation loadTestFile :=
  (loadTestFile validators JSON_stringify JSON_parse existsSync readFileSync
     path_resolve DATA_DIR).
Abbreviation loadAllTestFiles :=
  (loadAllTestFiles validators JSON_stringify JSON_parse existsSync readFileSync
     readdirSync path_join path_resolve DATA_DIR).
Abbreviation load_each :=
  (load_each validators JSON_stringify JSON_parse existsSync readFileSync
     path_join path_resolve DATA_DIR).

(** The [.json] entries of a folder, as both loops select them. *)
Definition json_files (folder : string) : list string :=
  List.filter (fun f => endsWith f ".json") (readdirSync folder).

Lemma validate_files_flag folder type files h :
  snd (validate_files folder type files h) = false <->
  h = false /\
  forall f, In f files -> valid (validateTestFile (path_join folder f) type) = true.
Proof.
  revert h. induction files as [|file rest IH]; intros h; cbn [Loader.validate_files].
  - simpl. split; [intros ->; split; [reflexivity | intros f []] | now intros [-> _]].
  - destruct (valid (validateTestFile (path_join folder file) type)) eqn:E.
    + destruct (validate_files folder type rest h) as [out h'] eqn:Er.
      cbn [snd]. specialize (IH h). rewrite Er in IH. cbn [snd] in IH. rewrite IH.
      split.
      * intros [-> H]. split; [reflexivity|]. intros f [<-|Hin]; auto.
      * intros [-> H]. split; [reflexivity|]. intros f Hin. apply H. now right.
    + destruct (validate_files folder type rest true) as [out h'] eqn:Er.
      cbn [snd]. specialize (IH true). rewrite Er in IH. cbn [snd] in IH. rewrite IH.
      split.
      * intros [[=] _].
      * intros [-> H]. specialize (H file (or_introl eq_refl)). congruence.
Qed.

Lemma validate_dirs_flag dirs h :
  snd (validate_dirs dirs h) = false <->
  h = false /\
  forall folder type f,
    In (folder, type) dirs -> existsSync folder = true -> In f (json_files folder) ->
    valid (validateTestFile (path_join folder f) type) = true.
Proof.
  revert h. induction dirs as [|[folder type] rest IH]; intros h;
    cbn [Loader.validate_dirs].
  - simpl. split; [intros ->; split; [reflexivity | intros ? ? ? []] | now intros [-> _]].
  - destruct (existsSync folder) eqn:Ex; cbn [negb].
    + fold (json_files folder).
      pose proof (validate_files_flag folder type (json_files folder) h) as Hf.
      destruct (validate_files folder type (json_files folder) h) as [out h1].
      cbn [snd] in Hf. specialize (IH h1).
      destruct (validate_dirs rest h1) as [out' h2]. cbn [snd] in *.
      rewrite IH, Hf. split.
      * intros [[-> H1] H2]. split; [reflexivity|].
        intros folder' type' f [[= <- <-]|Hin] He Hj; eauto.
      * intros [-> H]. split; [split; [reflexivity|]|].
        -- intros f Hin. apply H; [now left | assumption | assumption].
        -- intros folder' type' f Hin. apply H. now right.
    + rewrite IH. split.
      * intros [-> H]. split; [reflexivity|].
        intros folder' type' f [[= <- <-]|Hin] He Hj; [congruence | eauto].
      * intros [-> H]. split; [reflexivity|].
        intros folder' type' f Hin. apply H. now right.
Qed.

(** The CLI exits with [0] exactly when every [.json] file of the two
    folders that exist validates; otherwise it exits with [1]. *)
Theorem cli_exit_code :
  (snd main = 0%Z \/ snd main = 1%Z) /\
  (snd main = 0%Z <->
   forall folder type f,
     In (folder, type) [(path_join dataDir "api", "api"); (path_join dataDir "ui", "ui")] ->
     existsSync folder = true -> In f (json_files folder) ->
     valid (validateTestFile (path_join folder f) type) = true).
Proof.
  unfold Loader.main.
  pose proof (validate_dirs_flag
                [(path_join dataDir "api", "api"); (path_join dataDir "ui", "ui")] false)
    as H.
  destruct (validate_dirs _ false) as [out h]. cbn [snd] in *. split.
  - destruct h; auto.
  - destruct h.
    + split; [discriminate|]. intros Hall.
      assert (true = false) as E by (apply H; now split). discriminate E.
    + split; [intros _|reflexivity]. now apply H.
Qed.


(** The loader accepts exactly the files the validator accepts, and what it
    returns is the parsed content of the file. *)
Theorem loadTestFile_accepts_valid_files relativePath type :
  ((exists raw, loadTestFile relativePath type = Ok raw) <->
   valid (validateTestFile (path_resolve DATA_DIR relativePath) type) = true) /\
  (forall raw, loadTestFile relativePath type = Ok raw ->
     existsSync (path_resolve DATA_DIR relativePath) = true /\
     JSON_parse (readFileSync (path_resolve DATA_DIR relativePath)) = Ok raw /\
     valid (validateTestData raw type) = true /\
     errors (validateTestData raw type) = []).
Proof.
  unfold Loader.loadTestFile, Loader.validateTestFile.
  destruct (existsSync (path_resolve DATA_DIR relativePath)); cbn [negb].
  2: { split; [split; [intros [raw [=]] | discriminate] | intros raw [=]]. }
  destruct (JSON_parse (readFileSync (path_resolve DATA_DIR relativePath)))
    as [data|e]; cbn [bind].
  2: { split; [split; [intros [raw [=]] | discriminate] | intros raw [=]]. }
  destruct (valid (validateTestData data type)) eqn:E; cbn [negb].
  - split; [split; eauto|]. intros raw [= <-]. repeat split; try assumption.
    revert E. unfold Loader.validateTestData.
    destruct (validators type) as [validate|]; [|discriminate].
    destruct (validate data) as [[] errs]; [reflexivity | discriminate].
  - split; [split; [intros [raw [=]] | discriminate] | intros raw [=]].
Qed.

Lemma load_each_spec subdir type files l :
  load_each subdir type files = Ok l <->
  Forall2 (fun f raw => loadTestFile (path_join subdir f) type = Ok raw) files l.
Proof.
  revert l. induction files as [|f rest IH]; intros l; cbn [Loader.load_each].
  - split; [intros [= <-]; constructor | intros H; now inversion H].
  - destruct (loadTestFile (path_join subdir f) type) as [x|e] eqn:E; cbn [bind].
    + destruct (load_each subdir type rest) as [xs|e] eqn:Er; cbn [bind].
      * split.
        -- intros [= <-]. constructor; [assumption | now apply IH].
        -- intros H. inversion H as [|? y ? ys Hx Hxs]; subst.
           apply IH in Hxs. injection Hxs as <-.
           assert (Ok x = Ok y :> res exn value) as Exy by (rewrite <- E; exact Hx).
           now injection Exy as <-.
      * split; [discriminate|]. intros H. inversion H as [|? y ? ys Hx Hxs]; subst.
        apply IH in Hxs. discriminate Hxs.
    + split; [discriminate|]. intros H. inversion H as [|? y ? ys Hx Hxs]; subst.
      assert (Throw e = Ok y :> res exn value) as Exy by (rewrite <- E; exact Hx).
      discriminate Exy.
Qed.

Lemma load_each_first_failure subdir type pre f post raws e :
  Forall2 (fun f raw => loadTestFile (path_join subdir f) type = Ok raw) pre raws ->
  loadTestFile (path_join subdir f) type = Throw e ->
  load_each subdir type (pre ++ f :: post) = Throw e.
Proof.
  intros Hpre Hf. induction Hpre as [|g raw pre raws Hg _ IH]; cbn [app Loader.load_each].
  - destruct (loadTestFile (path_join subdir f) type) as [x|e']; cbn [bind];
      [discriminate Hf | now injection Hf as ->].
  - destruct (loadTestFile (path_join subdir g) type) as [x|e']; cbn [bind];
      [|discriminate Hg].
    destruct (load_each subdir type (pre ++ f :: post)) as [xs|e''];
      [discriminate IH | exact IH].
Qed.

(** [loadAllTestFiles] loads every [.json] entry of the folder, in the
    order of the listing, or nothing at all. *)
Theorem loadAllTestFiles_all_or_nothing subdir type :
  (existsSync (path_join DATA_DIR subdir) = false ->
   loadAllTestFiles subdir type = Ok []) /\
  (existsSync (path_join DATA_DIR subdir) = true ->
   (forall l,
      loadAllTestFiles subdir type = Ok l <->
      Forall2 (fun f raw => loadTestFile (path_join subdir f) type = Ok raw)
        (json_files (path_join DATA_DIR subdir)) l) /\
   (forall pre f post raws e,
      json_files (path_join DATA_DIR subdir) = pre ++ f :: post ->
      Forall2 (fun f raw => loadTestFile (path_join subdir f) type = Ok raw) pre raws ->
      loadTestFile (path_join subdir f) type = Throw e ->
      loadAllTestFiles subdir type = Throw e)).
Proof.
  unfold Loader.loadAllTestFiles. split; intros ->; cbn [negb]; [reflexivity|].
  fold (json_files (path_join DATA_DIR subdir)). split.
  - intros l. apply load_each_spec.
  - intros pre f post raws e -> Hpre Hf. eapply load_each_first_failure; eassumption.
Qed.

End LoaderFacts.

(** ** Environment configuration *)

Section EnvConfigFacts.

Import Str Js Loader EnvConfig.

Variable env : gmap string string.
Variable Number : string -> number.

Abbreviation env_var := (env_var env).
Abbreviation applyEnvOverrides := (applyEnvOverrides env Number).

Lemma override_lookup name key f config k :
  assoc k (override env name key f config) =
  if String.eqb k key then
    match env_var name with
    | Some s => Some (f s)
    | None => assoc k config
    end
  else assoc k config.
Proof.
  unfold override. destruct (String.eqb k key) eqn:E.
  - apply String.eqb_eq in E. subst k.
    destruct (env_var name); [apply assoc_set_prop_eq | reflexivity].
  - apply String.eqb_neq in E.
    destruct (env_var name); [now apply assoc_set_prop_ne | reflexivity].
Qed.

(** The value an overridden key gets, or the one of the file. *)
Definition overridden (name : string) (f : string -> Js.value)
    (from_file : option Js.value) : option Js.value :=
  match env_var name with
  | Some s => Some (f s)
  | None => from_file
  end.

(** The four overrides: each key follows its own variable, a variable that
    is unset or empty changes nothing, and no other key is touched. *)
Theorem applyEnvOverrides_spec config :
  assoc "apiBaseUrl" (applyEnvOverrides config) =
    overridden "API_BASE_URL" VStr (assoc "apiBaseUrl" config) /\
  assoc "uiBaseUrl" (applyEnvOverrides config) =
    overridden "UI_BASE_URL" VStr (assoc "uiBaseUrl" config) /\
  assoc "timeout" (applyEnvOverrides config) =
    overridden "TEST_TIMEOUT" (fun s => VNum (Number s)) (assoc "timeout" config) /\
  assoc "retries" (applyEnvOverrides config) =
    overridden "TEST_RETRIES" (fun s => VNum (Number s)) (assoc "retries" config) /\
  (forall k, ~ In k ["apiBaseUrl"; "uiBaseUrl"; "timeout"; "retries"] ->
     assoc k (applyEnvOverrides config) = assoc k config) /\
  ((forall name, In name ["API_BASE_URL"; "UI_BASE_URL"; "TEST_TIMEOUT"; "TEST_RETRIES"] ->
      env !! name = None \/ env !! name = Some "") ->
   applyEnvOverrides config = config).
Proof.
  unfold EnvConfig.applyEnvOverrides, overridden.
  repeat split.
  1-4: rewrite !override_lookup; cbn [String.eqb Ascii.eqb Bool.eqb];
       repeat match goal with |- context [env_var ?n] => destruct (env_var n) end;
       reflexivity.
  - intros k Hk. rewrite !override_lookup.
    assert (forall key, In key ["apiBaseUrl"; "uiBaseUrl"; "timeout"; "retries"] ->
                        String.eqb k key = false) as Hne.
    { intros key Hin. apply String.eqb_neq. now intros ->. }
    rewrite !Hne by (cbn; tauto). reflexivity.
  - intros H. unfold override.
    assert (forall name,
              In name ["API_BASE_URL"; "UI_BASE_URL"; "TEST_TIMEOUT"; "TEST_RETRIES"] ->
              env_var name = None) as Hnone.
    { intros name Hin. unfold EnvConfig.env_var. now destruct (H name Hin) as [-> | ->]. }
    rewrite !Hnone by (cbn; tauto). reflexivity.
Qed.


End EnvConfigFacts.

Section EnvironmentListing.

Import Str Js Loader EnvConfig.

(** The pattern occurs somewhere in the text. *)
Definition occurs (pattern s : string) : Prop :=
  exists a b, s = a +:+ pattern +:+ b.

Lemma prefix_json_overlap n b :
  starts_with ".json" (n +:+ ".json" +:+ b) = true -> n = "" \/ occurs ".json" n.
Proof.
  intros H.
  destruct n as [|c1 [|c2 [|c3 [|c4 [|c5 n]]]]]; [now left|right..];
    cbn [starts_with String.append] in H;
    repeat match type of H with
           | (Ascii.eqb _ _ && _) = true =>
               let E := fresh "E" in
               apply andb_true_iff in H as [E H]; apply Ascii.eqb_eq in E;
               first [discriminate E | subst]
           end.
  exists "", n. reflexivity.
Qed.

Lemma remove_first_json a b :
  ~ occurs ".json" a -> remove_first ".json" (a +:+ ".json" +:+ b) = a +:+ b.
Proof.
  induction a as [|c a IH]; intros Ha.
  - reflexivity.
  - destruct (starts_with ".json" (String c a +:+ ".json" +:+ b)) eqn:E.
    + apply prefix_json_overlap in E as [E|E]; [discriminate E | now destruct Ha].
    + change (String c a +:+ ".json" +:+ b) with (String c (a +:+ ".json" +:+ b)) in *.
      cbn [remove_first]. rewrite E. cbn [append]. f_equal. apply IH.
      intros (x & y & ->). apply Ha. now exists (String c x), y.
Qed.

Lemma substring_all s : substring 0 (String.length s) s = s.
Proof. induction s as [|c s IH]; simpl; [reflexivity | now rewrite IH]. Qed.

Lemma substring_skip a s m : substring (String.length a) m (a +:+ s) = substring 0 m s.
Proof. induction a as [|c a IH]; simpl; [reflexivity | exact IH]. Qed.

Lemma endsWith_app a suffix : endsWith (a +:+ suffix) suffix = true.
Proof.
  unfold endsWith. rewrite length_append.
  destruct (String.length a + String.length suffix <? String.length suffix) eqn:E.
  - apply Nat.ltb_lt in E. lia.
  - replace (String.length a + String.length suffix - String.length suffix)
      with (String.length a) by lia.
    rewrite substring_skip, substring_all. apply String.eqb_refl.
Qed.

Variable existsSync : string -> bool.
Variable readdirSync : string -> list string.
Variable environments_dir : string.

Abbreviation listAvailableEnvironments :=
  (listAvailableEnvironments existsSync readdirSync environments_dir).

(** The names [listAvailableEnvironments] gives.  A file [stem.json] whose
    stem does not hold [.json] is listed as [stem], the name under which
    [loadJsonConfig] finds it again; in general it is the first [.json] of
    the file name that goes, not its extension. *)
Theorem listAvailableEnvironments_names :
  (existsSync environments_dir = false -> listAvailableEnvironments = []) /\
  (existsSync environments_dir = true ->
   (forall stem,
      In (stem +:+ ".json") (readdirSync environments_dir) ->
      ~ occurs ".json" stem ->
      In stem listAvailableEnvironments) /\
   (forall a b,
      In (a +:+ ".json" +:+ b +:+ ".json") (readdirSync environments_dir) ->
      ~ occurs ".json" a ->
      In (a +:+ b +:+ ".json") listAvailableEnvironments) /\
   length listAvailableEnvironments =
   length (List.filter (fun f => endsWith f ".json") (readdirSync environments_dir))).
Proof.
  unfold EnvConfig.listAvailableEnvironments. split; intros ->; cbn [negb]; [reflexivity|].
  split; [|split].
  - intros stem Hin Hs. apply in_map_iff. exists (stem +:+ ".json"). split.
    + rewrite <- (append_nil_r (stem +:+ ".json")), append_assoc.
      rewrite remove_first_json by assumption. apply append_nil_r.
    + apply List.filter_In. split; [assumption | apply endsWith_app].
  - intros a b Hin Ha. apply in_map_iff. exists (a +:+ ".json" +:+ b +:+ ".json").
    split.
    + now rewrite remove_first_json.
    + apply List.filter_In. split; [assumption|].
      rewrite <- !append_assoc. apply endsWith_app.
  - apply length_map.
Qed.

End EnvironmentListing.
